(** * Qt Creator plugin helpers: class view utilities, QNX environment
      discovery and the qmldump tool lookup

    A shallow embedding of
    - [src/plugins/classview/classviewutils.cpp]
      ([ClassView::Internal::Utils]),
    - [src/plugins/qnx/qnxutils.cpp]
      ([QnxUtils::qnxEnvironmentFromEnvFile]),
    - [src/plugins/qt4projectmanager/qmldumptool.cpp]
      ([QmlDumpTool::qmlDumpPath]),
    together with the properties of these functions.

    Conventions.  A C++ [int] is a [Z]; the only arithmetic the functions
    below do on [int]s is on positions in a string or in the rows of an
    item, which stay within its length, and row indices, which range over
    [0 .. rowCount()], are [nat].  A [QString] is a [string], a [QHash] a
    [gmap], a [QSet] a [gset], a [QList] a [list]. *)

From Stdlib Require Import ZArith String Ascii List Bool Lia.
From Stdlib Require Import Structures.OrdersEx DecimalString.
From stdpp Require Import base decidable option list gmap sets strings.

Set Warnings "-register-all,-clear-no-such-hyp".
Local Open Scope Z_scope.

(** ** Values stored in items *)

(** [ClassView::Internal::SymbolLocation] is declared in
    [classviewsymbollocation.h]; the utilities only store values of the
    class in sets, so what matters is that it is a plain value with
    equality: a file name, a line and a column. *)
Record SymbolLocation : Type := mkSymbolLocation {
  fileName : string;
  line : Z;
  column : Z
}.

#[global] Instance SymbolLocation_eq_dec : EqDecision SymbolLocation.
Proof. solve_decision. Defined.

#[global] Instance SymbolLocation_countable : Countable SymbolLocation.
Proof.
  refine (inj_countable'
            (fun l => (fileName l, line l, column l))
            (fun t => mkSymbolLocation t.1.1 t.1.2 t.2) _).
  by intros [].
Defined.

(** The part of [QVariant] the utilities see: an invalid variant, a
    [QString], an [int], a [SymbolLocation] registered as a meta type
    ([QVariant::fromValue]), and a [QList<QVariant>]. *)
Inductive QVariant : Type :=
  | Invalid
  | VString (s : string)
  | VInt (n : Z)
  | VLocation (loc : SymbolLocation)
  | VList (l : list QVariant).

Definition isValid (v : QVariant) : bool :=
  match v with Invalid => false | _ => true end.

(** [QVariant::canConvert<SymbolLocation>()] and
    [QVariant::value<SymbolLocation>()]: no converter to the class is
    registered, only a variant holding one converts. *)
Definition canConvertLocation (v : QVariant) : bool :=
  match v with VLocation _ => true | _ => false end.

Definition valueLocation (v : QVariant) : SymbolLocation :=
  match v with
  | VLocation loc => loc
  | _ => mkSymbolLocation EmptyString 0 0
  end.

(** ** Symbol information *)

(** [ClassView::Internal::SymbolInformation]: the three values the
    constructor [SymbolInformation(name, type, iconType)] takes and the
    accessors [name()], [type()], [iconType()] return.  [operator==] compares
    these three, which is Leibniz equality on the record. *)
Record SymbolInformation : Type := mkSymbolInformation {
  name : string;
  type : string;
  iconType : Z
}.

#[global] Instance SymbolInformation_eq_dec : EqDecision SymbolInformation.
Proof. solve_decision. Defined.

(** ** Location sets and their role encoding *)

(** [Utils::locationsToRole]: one variant per element of the set, in the
    order the set is traversed. *)
Definition locationsToRole (locations : gset SymbolLocation) : list QVariant :=
  foldl (fun locationsVar loc => locationsVar ++ [VLocation loc])
        [] (elements locations).

(** [Utils::roleToLocations]: the variants that convert, inserted one by
    one. *)
Definition roleToLocations (locationsVar : list QVariant) : gset SymbolLocation :=
  foldl (fun locations loc =>
           if canConvertLocation loc
           then {[ valueLocation loc ]} ∪ locations
           else locations)
        ∅ locationsVar.

(** ** Declarations the sources include but do not contain

    [classviewutils.cpp] includes [classviewconstants.h] (the item data
    roles), [classviewsymbolinformation.h] ([operator<] of
    [SymbolInformation]) and [cplusplus/Icons.h] (the numbering of the icon
    enumeration), and it uses Qt's conversions between numbers and strings
    inside [QVariant].  None of these is part of the sources at hand, so the
    embedding takes them as parameters. *)

(** The entries of [Constants::IconSortOrder] are enumerators of
    [Utils::CodeModelIcon::Type]; these are the ones the table lists, in the
    order of the table. *)
Module CodeModelIcon.
Inductive Type_ : Type :=
  | Namespace
  | Enum
  | Class
  | FuncPublic
  | FuncProtected
  | FuncPrivate
  | FuncPublicStatic
  | FuncProtectedStatic
  | FuncPrivateStatic
  | Signal
  | SlotPublic
  | SlotProtected
  | SlotPrivate
  | VarPublic
  | VarProtected
  | VarPrivate
  | VarPublicStatic
  | VarProtectedStatic
  | VarPrivateStatic
  | Enumerator
  | Keyword
  | Macro
  | Unknown.
End CodeModelIcon.

Class Declarations : Type := {
  (** [Constants::SymbolNameRole], [SymbolTypeRole], [IconTypeRole] *)
  SymbolNameRole : Z;
  SymbolTypeRole : Z;
  IconTypeRole : Z;
  (** the integer an enumerator of [Utils::CodeModelIcon::Type] stands for *)
  iconValue : CodeModelIcon.Type_ -> Z;
  (** [SymbolInformation::operator<] *)
  lessThan : SymbolInformation -> SymbolInformation -> bool;
  (** [QString::number(int)], used by [QVariant(int).toString()] *)
  numberToString : Z -> string;
  (** [QVariant(QString).toInt(&ok)]: [None] when [ok] is false *)
  stringToInt : string -> option Z
}.

(** ** Items *)

(** A [QStandardItem] with one column: the object's address, its data by
    role and its child rows.  Every item has exactly one parent, so the tree
    owns its children and no store of shared objects is needed; the address
    tells an object that stays in the tree from a copy of it. *)
Inductive QStandardItem : Type :=
  mkItem (address : N) (values : gmap Z QVariant) (rows : list QStandardItem).

Definition address (item : QStandardItem) : N :=
  match item with mkItem a _ _ => a end.
Definition values (item : QStandardItem) : gmap Z QVariant :=
  match item with mkItem _ v _ => v end.
Definition rows (item : QStandardItem) : list QStandardItem :=
  match item with mkItem _ _ r => r end.

Definition rowCount (item : QStandardItem) : nat := length (rows item).

(** [QStandardItem::child(row)]: a null pointer outside the rows. *)
Definition child (item : QStandardItem) (row : nat) : option QStandardItem :=
  rows item !! row.

(** [QStandardItem] stores [Qt::EditRole] (2) under [Qt::DisplayRole] (0). *)
Definition storedRole (role : Z) : Z := if decide (role = 2) then 0 else role.

Definition data (item : QStandardItem) (role : Z) : QVariant :=
  default Invalid (values item !! storedRole role).

Definition setData (value : QVariant) (role : Z) (item : QStandardItem)
  : QStandardItem :=
  mkItem (address item) (<[ storedRole role := value ]> (values item)) (rows item).

(** [QStandardItem::clone()] copies the data and none of the children into
    a new object, which the allocator places at the next free address. *)
Definition clone (item : QStandardItem) (heap : N) : QStandardItem * N :=
  (mkItem heap (values item) [], N.succ heap).

(** [removeRow], [insertRow] and [appendRow] on the list of child rows.
    [insertRow] does nothing for a row beyond the end. *)
Definition removeRow (row : nat) (children : list QStandardItem)
  : list QStandardItem :=
  delete row children.

Definition insertRow (row : nat) (item : QStandardItem)
    (children : list QStandardItem) : list QStandardItem :=
  if decide (row ≤ length children)%nat
  then take row children ++ item :: drop row children
  else children.

Definition appendRow (item : QStandardItem) (children : list QStandardItem)
  : list QStandardItem :=
  children ++ [item].

(** The rows already settled by a loop, put in front of what is computed
    for the others. *)
Definition settled (done : list QStandardItem)
    (result : list QStandardItem * N) : list QStandardItem * N :=
  (done ++ result.1, result.2).

(** The symbol informations of a tree, node for node and level by level. *)
Inductive SymbolTree : Type :=
  SymbolNode (info : SymbolInformation) (children : list SymbolTree).

Section ClassViewUtils.
Context `{Declarations}.
Import CodeModelIcon.

(** *** Icon sort order *)

Definition IconSortOrder : list Z :=
  map iconValue
    [ Namespace; Enum; Class; FuncPublic; FuncProtected; FuncPrivate;
      FuncPublicStatic; FuncProtectedStatic; FuncPrivateStatic; Signal;
      SlotPublic; SlotProtected; SlotPrivate; VarPublic; VarProtected;
      VarPrivate; VarPublicStatic; VarProtectedStatic; VarPrivateStatic;
      Enumerator; Keyword; Macro; Unknown ].

(** The initialisation loop of [iconTypeSortOrder]:
    [sortOrder.insert(i, sortOrder.count())] for each entry. *)
Definition fillSortOrder (table : list Z) (sortOrder : gmap Z Z) : gmap Z Z :=
  foldl (fun m i => <[ i := Z.of_nat (size m) ]> m) sortOrder table.

(** [Utils::iconTypeSortOrder].  The function-local [static QHash] is
    threaded through: the function takes its current content and returns
    the content it leaves behind. *)
Definition iconTypeSortOrder (sortOrder : gmap Z Z) (icon : Z)
  : Z * gmap Z Z :=
  let sortOrder :=
    if decide (size sortOrder = 0%nat)
    then fillSortOrder IconSortOrder sortOrder
    else sortOrder in
  match sortOrder !! icon with
  | None => (icon, sortOrder)
  | Some order => (order, sortOrder)
  end.

(** The contents the static hash can have when the function is entered:
    empty before the first call, and what a call left behind afterwards. *)
Inductive sortOrderState : gmap Z Z -> Prop :=
  | sortOrder_fresh : sortOrderState ∅
  | sortOrder_called (st : gmap Z Z) (icon : Z) :
      sortOrderState st ->
      sortOrderState (iconTypeSortOrder st icon).2.

(** *** Symbol information of an item *)

(** [QVariant::toString()] *)
Definition toString (v : QVariant) : string :=
  match v with
  | VString s => s
  | VInt n => numberToString n
  | _ => EmptyString
  end.

(** [QVariant::toInt(&ok)]: [None] when [ok] is false *)
Definition toInt (v : QVariant) : option Z :=
  match v with
  | VInt n => Some n
  | VString s => stringToInt s
  | _ => None
  end.

(** [Utils::setSymbolInformationToItem] *)
Definition setSymbolInformationToItem (information : SymbolInformation)
    (item : QStandardItem) : QStandardItem :=
  let item := setData (VString (name information)) SymbolNameRole item in
  let item := setData (VString (type information)) SymbolTypeRole item in
  let item := setData (VInt (iconType information)) IconTypeRole item in
  item.

(** [Utils::symbolInformationFromItem], for an item that is not null. *)
Definition symbolInformationFromItem (item : QStandardItem)
  : SymbolInformation :=
  let name := toString (data item SymbolNameRole) in
  let type := toString (data item SymbolTypeRole) in
  let var := data item IconTypeRole in
  let ok_value := if isValid var then toInt var else None in
  let iconType := match ok_value with Some value => value | None => 0 end in
  mkSymbolInformation name type iconType.

Fixpoint symbolTree (item : QStandardItem) : SymbolTree :=
  match item with
  | mkItem _ _ children =>
      SymbolNode (symbolInformationFromItem item) (map symbolTree children)
  end.

(** The symbol informations below an item: one tree per child row. *)
Definition childTrees (item : QStandardItem) : list SymbolTree :=
  map symbolTree (rows item).

(** The symbol informations of the child rows themselves. *)
Definition childInfos (item : QStandardItem) : list SymbolInformation :=
  map symbolInformationFromItem (rows item).

(** *** Reconciling an item with a target *)

(** The loop commented [remove end of item] of [moveItemToTarget]. *)
Fixpoint moveRemove (fuel : nat) (children : list QStandardItem)
    (itemIndex itemRows : nat) (heap : N) {struct fuel}
    : option (list QStandardItem * N) :=
  match fuel with
  | O => None
  | S fuel =>
      if decide (itemIndex < itemRows)%nat then
        moveRemove fuel (removeRow itemIndex children) itemIndex (itemRows - 1) heap
      else
        Some (children, heap)
  end.

(** [Utils::moveItemToTarget].  The function recurses into the children
    and runs three loops; each call and each loop iteration takes one unit
    of [fuel], and [None] stands for a run that is cut off (or that would
    pass a null child to [symbolInformationFromItem]).  [children] is the
    current list of rows of [item], which the loops change in place;
    [itemRows] and [targetRows] are the two local row counters, [heap] the
    next free address.  A recursive call changes the child it is given in
    place, so its result is written back to the row it was read from.
    Both arguments are items: the guard [if (!item || !target) return] for
    null pointers has no counterpart here.

    The loop [while (itemIndex < itemRows && targetIndex < targetRows)]
    is [moveLoop], the loop commented [append] is [moveAppend]; the last
    loop is [moveRemove] above. *)
Fixpoint moveItemToTarget_run (fuel : nat) (item target : QStandardItem)
    (heap : N) {struct fuel} : option (QStandardItem * N) :=
  match fuel with
  | O => None
  | S fuel =>
      '(children, heap) ←
        moveLoop fuel (rows item) target 0 0 (rowCount item) (rowCount target) heap;
      Some (mkItem (address item) (values item) children, heap)
  end
with moveLoop (fuel : nat) (children : list QStandardItem)
    (target : QStandardItem) (itemIndex targetIndex itemRows targetRows : nat)
    (heap : N) {struct fuel} : option (list QStandardItem * N) :=
  match fuel with
  | O => None
  | S fuel =>
      if decide (itemIndex < itemRows ∧ targetIndex < targetRows)%nat then
        itemChild ← children !! itemIndex;
        targetChild ← child target targetIndex;
        let itemInf := symbolInformationFromItem itemChild in
        let targetInf := symbolInformationFromItem targetChild in
        if lessThan itemInf targetInf then
          moveLoop fuel (removeRow itemIndex children) target
                   itemIndex targetIndex (itemRows - 1) targetRows heap
        else if decide (itemInf = targetInf) then
          '(itemChild, heap) ←
            moveItemToTarget_run fuel itemChild targetChild heap;
          moveLoop fuel (<[ itemIndex := itemChild ]> children) target
                   (itemIndex + 1) (targetIndex + 1) itemRows targetRows heap
        else
          let '(copy, heap) := clone targetChild heap in
          let children := insertRow itemIndex copy children in
          inserted ← children !! itemIndex;
          '(inserted, heap) ←
            moveItemToTarget_run fuel inserted targetChild heap;
          moveLoop fuel (<[ itemIndex := inserted ]> children) target
                   (itemIndex + 1) (targetIndex + 1) (itemRows + 1) targetRows heap
      else
        moveAppend fuel children target itemIndex targetIndex itemRows targetRows heap
  end
with moveAppend (fuel : nat) (children : list QStandardItem)
    (target : QStandardItem) (itemIndex targetIndex itemRows targetRows : nat)
    (heap : N) {struct fuel} : option (list QStandardItem * N) :=
  match fuel with
  | O => None
  | S fuel =>
      if decide (targetIndex < targetRows)%nat then
        targetChild ← child target targetIndex;
        let '(copy, heap) := clone targetChild heap in
        let children := appendRow copy children in
        appended ← children !! itemIndex;
        '(appended, heap) ←
          moveItemToTarget_run fuel appended targetChild heap;
        moveAppend fuel (<[ itemIndex := appended ]> children) target
                   (itemIndex + 1) (targetIndex + 1) (itemRows + 1) targetRows heap
      else
        moveRemove fuel children itemIndex itemRows heap
  end.

(** The number of nodes of a tree. *)
Fixpoint itemSize (item : QStandardItem) : nat :=
  match item with
  | mkItem _ _ children => S (list_sum (map itemSize children))
  end.

(** Fuel that is enough for [moveItemToTarget_run] (see
    [moveItemToTarget_run_enough]). *)
Definition moveFuel (item target : QStandardItem) : nat :=
  3 * (itemSize item + itemSize target).

(** [Utils::moveItemToTarget] as a total function: the item and the next
    free address after the call.  The default is never taken. *)
Definition moveItemToTarget (item target : QStandardItem) (heap : N)
  : QStandardItem * N :=
  default (item, heap)
          (moveItemToTarget_run (moveFuel item target) item target heap).

(** The loop commented [append] of [fetchItemToTarget]. *)
Fixpoint fetchAppend (fuel : nat) (children : list QStandardItem)
    (target : QStandardItem) (targetIndex targetRows : nat) (heap : N)
    {struct fuel} : option (list QStandardItem * N) :=
  match fuel with
  | O => None
  | S fuel =>
      if decide (targetIndex < targetRows)%nat then
        targetChild ← child target targetIndex;
        let '(copy, heap) := clone targetChild heap in
        fetchAppend fuel (appendRow copy children) target
                    (targetIndex + 1) targetRows heap
      else
        Some (children, heap)
  end.

(** [Utils::fetchItemToTarget]: the first loop is [fetchLoop], followed by
    [fetchAppend]. *)
Fixpoint fetchLoop (fuel : nat) (children : list QStandardItem)
    (target : QStandardItem) (itemIndex targetIndex itemRows targetRows : nat)
    (heap : N) {struct fuel} : option (list QStandardItem * N) :=
  match fuel with
  | O => None
  | S fuel =>
      if decide (itemIndex < itemRows ∧ targetIndex < targetRows)%nat then
        itemChild ← children !! itemIndex;
        targetChild ← child target targetIndex;
        let itemInf := symbolInformationFromItem itemChild in
        let targetInf := symbolInformationFromItem targetChild in
        if lessThan itemInf targetInf then
          fetchLoop fuel children target
                    (itemIndex + 1) targetIndex itemRows targetRows heap
        else if decide (itemInf = targetInf) then
          fetchLoop fuel children target
                    (itemIndex + 1) (targetIndex + 1) itemRows targetRows heap
        else
          let '(copy, heap) := clone targetChild heap in
          fetchLoop fuel (insertRow itemIndex copy children) target
                    (itemIndex + 1) (targetIndex + 1) (itemRows + 1) targetRows heap
      else
        fetchAppend fuel children target targetIndex targetRows heap
  end.

Definition fetchItemToTarget_run (fuel : nat) (item target : QStandardItem)
    (heap : N) : option (QStandardItem * N) :=
  '(children, heap) ←
    fetchLoop fuel (rows item) target 0 0 (rowCount item) (rowCount target) heap;
  Some (mkItem (address item) (values item) children, heap).

(** Fuel that is enough for [fetchItemToTarget_run] (see
    [fetchItemToTarget_run_enough]). *)
Definition fetchFuel (item target : QStandardItem) : nat :=
  S (S (rowCount item + rowCount target)).

(** [Utils::fetchItemToTarget] as a total function. *)
Definition fetchItemToTarget (item target : QStandardItem) (heap : N)
  : QStandardItem * N :=
  default (item, heap)
          (fetchItemToTarget_run (fetchFuel item target) item target heap).

(** *** What the loops compute

    The loops walk two lists side by side.  The functions below say the
    same by recursion on the rows of the target, without indices; the
    theorems [moveItemToTarget_run_enough] and
    [fetchItemToTarget_run_enough] show that the loops compute them. *)

(** The rows [moveItemToTarget] leaves, from the target rows not yet
    visited and the item rows not yet visited; [recurse] is the call on a
    child. *)
Definition moveRows
    (recurse : QStandardItem -> QStandardItem -> N -> QStandardItem * N)
  : list QStandardItem -> list QStandardItem -> N ->
    list QStandardItem * N :=
  fix visit (targets : list QStandardItem) : list QStandardItem -> N ->
                                             list QStandardItem * N :=
    match targets with
    | [] => fun _ heap => ([], heap)
    | targetChild :: targets' =>
        fix scan (children : list QStandardItem) (heap : N)
          : list QStandardItem * N :=
          match children with
          | [] =>
              let '(copy, heap) := clone targetChild heap in
              let '(copy, heap) := recurse copy targetChild heap in
              let '(rest, heap) := visit targets' [] heap in
              (copy :: rest, heap)
          | itemChild :: children' =>
              let itemInf := symbolInformationFromItem itemChild in
              let targetInf := symbolInformationFromItem targetChild in
              if lessThan itemInf targetInf then
                scan children' heap
              else if decide (itemInf = targetInf) then
                let '(itemChild, heap) := recurse itemChild targetChild heap in
                let '(rest, heap) := visit targets' children' heap in
                (itemChild :: rest, heap)
              else
                let '(copy, heap) := clone targetChild heap in
                let '(copy, heap) := recurse copy targetChild heap in
                let '(rest, heap) := visit targets' children heap in
                (copy :: rest, heap)
          end
    end.

Fixpoint moveTree (target item : QStandardItem) (heap : N) {struct target}
  : QStandardItem * N :=
  match target with
  | mkItem _ _ targets =>
      let '(children, heap) :=
        moveRows (fun itemChild targetChild => moveTree targetChild itemChild)
                 targets (rows item) heap in
      (mkItem (address item) (values item) children, heap)
  end.

(** The rows [fetchItemToTarget] leaves. *)
Fixpoint fetchRows (targets : list QStandardItem)
  : list QStandardItem -> N -> list QStandardItem * N :=
  match targets with
  | [] => fun children heap => (children, heap)
  | targetChild :: targets' =>
      fix scan (children : list QStandardItem) (heap : N)
        : list QStandardItem * N :=
        match children with
        | [] =>
            let '(copy, heap) := clone targetChild heap in
            let '(rest, heap) := fetchRows targets' [] heap in
            (copy :: rest, heap)
        | itemChild :: children' =>
            let itemInf := symbolInformationFromItem itemChild in
            let targetInf := symbolInformationFromItem targetChild in
            if lessThan itemInf targetInf then
              let '(rest, heap) := scan children' heap in
              (itemChild :: rest, heap)
            else if decide (itemInf = targetInf) then
              let '(rest, heap) := fetchRows targets' children' heap in
              (itemChild :: rest, heap)
            else
              let '(copy, heap) := clone targetChild heap in
              let '(rest, heap) := fetchRows targets' children heap in
              (copy :: rest, heap)
        end
  end.

(** [moveTree] with the arguments in the order of the call
    [moveItemToTarget(itemChild, targetChild)]. *)
Definition moveChild (itemChild targetChild : QStandardItem) (heap : N)
  : QStandardItem * N :=
  moveTree targetChild itemChild heap.

(** The nodes of a list of rows. *)
Definition rowsSize (children : list QStandardItem) : nat :=
  list_sum (map itemSize children).

(** *** Sorted child lists *)

(** A list of symbol informations is strictly sorted: each element is
    less than the next. *)
Fixpoint sortedInfos (infos : list SymbolInformation) : bool :=
  match infos with
  | a :: (b :: _) as rest => lessThan a b && sortedInfos rest
  | _ => true
  end.

Definition rootInfo (tree : SymbolTree) : SymbolInformation :=
  match tree with SymbolNode info _ => info end.

(** The child lists at every node below the root of a symbol tree are
    strictly sorted. *)
Fixpoint sortedBelow (tree : SymbolTree) : bool :=
  match tree with
  | SymbolNode _ children =>
      sortedInfos (map rootInfo children) && forallb sortedBelow children
  end.

(** The child lists at every node of an item are strictly sorted. *)
Definition sortedTree (item : QStandardItem) : bool :=
  sortedBelow (symbolTree item).

(** *** The full rebuild

    The reconciliation is meant to give the tree a full rebuild gives:
    drop the children of the item and copy the target's children with
    everything below them. *)
Definition cloneRows (cloneTree : QStandardItem -> N -> QStandardItem * N)
  : list QStandardItem -> N -> list QStandardItem * N :=
  fix visit (targets : list QStandardItem) (heap : N) :=
    match targets with
    | [] => ([], heap)
    | targetChild :: targets' =>
        let '(copy, heap) := cloneTree targetChild heap in
        let '(rest, heap) := visit targets' heap in
        (copy :: rest, heap)
    end.

Fixpoint cloneTree (target : QStandardItem) (heap : N) {struct target}
  : QStandardItem * N :=
  match target with
  | mkItem _ values targets =>
      let '(children, heap') := cloneRows cloneTree targets (N.succ heap) in
      (mkItem heap values children, heap')
  end.

Definition rebuild (item target : QStandardItem) (heap : N)
  : QStandardItem * N :=
  let '(children, heap) := cloneRows cloneTree (rows target) heap in
  (mkItem (address item) (values item) children, heap).

(** *** Which rows stay *)

(** The row [moveItemToTarget] leaves for a row of the target: the row of
    the item with the same symbol information, reconciled, when there is
    one, and a reconciled copy of the target row at a new address
    otherwise. *)
Inductive rowFor (children : list QStandardItem)
    (targetChild : QStandardItem) (heap : N)
  : QStandardItem -> Prop :=
  | rowFor_kept itemChild heap' :
      itemChild ∈ children ->
      symbolInformationFromItem itemChild
      = symbolInformationFromItem targetChild ->
      (heap <= heap')%N ->
      rowFor children targetChild heap (moveChild itemChild targetChild heap').1
  | rowFor_copy heap' :
      (forall itemChild, itemChild ∈ children ->
          symbolInformationFromItem itemChild
          <> symbolInformationFromItem targetChild) ->
      (heap <= heap')%N ->
      rowFor children targetChild heap
             (moveChild (clone targetChild heap').1 targetChild
                        (clone targetChild heap').2).1.
End ClassViewUtils.

(** ** QNX environment discovery *)

Module Qnx.
Local Open Scope string_scope.

(** [Utils::EnvironmentItem(var, value)] *)
Record EnvironmentItem : Type := mkEnvironmentItem {
  itemName : string;
  itemValue : string
}.

Inductive ExitStatus : Type := NormalExit | CrashExit.

(** What [qnxEnvironmentFromEnvFile] observes of the [QProcess] it starts:
    the result of [waitForFinished(10000)], whether [state()] is
    [QProcess::NotRunning] after the wait, [exitStatus()], [exitCode()],
    and the lines [QTextStream::readLine] returns until [atEnd()]. *)
Record Process : Type := mkProcess {
  waitForFinished : bool;
  notRunning : bool;
  exitStatus : ExitStatus;
  exitCode : Z;
  output : list string
}.

(** The host the function runs on: the file system, the host system, and
    the process a program started with some arguments turns out to be when
    the wrapper script has the given content.  [openTemporaryFile] is
    [QTemporaryFile::open] on a name template: the name of the file
    created, or [None] when it fails. *)
Record Host : Type := mkHost {
  fileExists : string -> bool;
  isWindowsHost : bool;
  tempPath : string;
  openTemporaryFile : string -> option string;
  start : string -> list string -> string -> Process
}.

Definition EVAL_ENV_VARS : list string :=
  [ "QNX_TARGET"; "QNX_HOST"; "QNX_CONFIGURATION"; "MAKEFLAGS";
    "LD_LIBRARY_PATH"; "PATH"; "QDE"; "CPUVARDIR"; "PYTHONPATH" ].

(** [linePattern.arg(var)]: every [%1] of the pattern replaced. *)
Definition linePattern (isWindows : bool) (var : string) : string :=
  if isWindows
  then "echo " +:+ var +:+ "=%" +:+ var +:+ "%"
  else "echo " +:+ var +:+ "=$" +:+ var.

Definition newline : string := String (ascii_of_nat 10) EmptyString.

(** The content written to the wrapper script. *)
Definition wrapperScript (isWindows : bool) (fileName : string) : string :=
  let header :=
    if isWindows
    then "@echo off" +:+ newline +:+ "call " +:+ fileName +:+ newline
    else "#!/bin/bash" +:+ newline +:+ ". " +:+ fileName +:+ newline in
  foldl (fun fileContent var =>
           fileContent +:+ linePattern isWindows var +:+ newline)
        header EVAL_ENV_VARS.

(** [QString::indexOf(QChar)]: the first position of the character, from
    position [from] of the whole string on, or -1. *)
Fixpoint indexOfFrom (c : ascii) (s : string) (from : Z) : Z :=
  match s with
  | EmptyString => -1
  | String a s' =>
      if Ascii.eqb a c then from else indexOfFrom c s' (from + 1)
  end.

Definition indexOf (c : ascii) (s : string) : Z := indexOfFrom c s 0.

(** [QString::left(n)]: the whole string when [n] is negative or beyond
    the end. *)
Definition left (n : Z) (s : string) : string :=
  if decide (n < 0 ∨ Z.of_nat (String.length s) <= n) then s
  else substring 0 (Z.to_nat n) s.

(** [QString::mid(position)]: empty when [position] is beyond the end, from
    the start when it is negative. *)
Definition mid (position : Z) (s : string) : string :=
  if decide (Z.of_nat (String.length s) < position) then EmptyString
  else
    let position := Z.to_nat (Z.max 0 position) in
    substring position (String.length s - position) s.

(** The loop that parses the process output. *)
Fixpoint parseOutput (lines : list string) (items : list EnvironmentItem)
  : list EnvironmentItem :=
  match lines with
  | [] => items
  | line :: lines =>
      let equalIndex := indexOf "=" line in
      if decide (equalIndex < 0) then parseOutput lines items
      else
        let var := left equalIndex line in
        let value := mid (equalIndex + 1) line in
        parseOutput lines (items ++ [mkEnvironmentItem var value])
  end.

(** [QnxUtils::qnxEnvironmentFromEnvFile] *)
Definition qnxEnvironmentFromEnvFile (host : Host) (fileName : string)
  : list EnvironmentItem :=
  let items : list EnvironmentItem := [] in
  if negb (fileExists host fileName) then items
  else
    let isWindows := isWindowsHost host in
    match openTemporaryFile host
            (tempPath host +:+ "/" +:+ "bbndk-env-eval-XXXXXX"
               +:+ (if isWindows then ".bat" else ".sh")) with
    | None => items
    | Some tmpFile =>
        let fileContent := wrapperScript isWindows fileName in
        let process :=
          if isWindows
          then start host "cmd.exe" [ "/C"; tmpFile ] fileContent
          else start host "/bin/bash" [ tmpFile ] fileContent in
        let waitResult := waitForFinished process || notRunning process in
        if negb waitResult then items
        else
          match exitStatus process with
          | CrashExit => items
          | NormalExit =>
              if decide (exitCode process ≠ 0) then items
              else parseOutput (output process) items
          end
    end.

(** What the parsing loop is meant to find, by recursion on the characters
    of a line: a line containing ['='] gives the text before the first ['=']
    and the text after it; other lines give nothing. *)
Fixpoint splitAtEquals (line : string) : option (string * string) :=
  match line with
  | EmptyString => None
  | String a rest =>
      if Ascii.eqb a "=" then Some (EmptyString, rest)
      else
        match splitAtEquals rest with
        | Some (var, value) => Some (String a var, value)
        | None => None
        end
  end.

Definition itemOfLine (line : string) : option EnvironmentItem :=
  match splitAtEquals line with
  | Some (var, value) => Some (mkEnvironmentItem var value)
  | None => None
  end.

Fixpoint contains (c : ascii) (s : string) : bool :=
  match s with
  | EmptyString => false
  | String a rest => Ascii.eqb a c || contains c rest
  end.

(** The line the wrapper script echoes for a variable and its value. *)
Definition itemLine (item : EnvironmentItem) : string :=
  itemName item +:+ "=" +:+ itemValue item.

(** *** Paths of an SDK *)

(** [ConfigInstallInformation], as [installedConfigs] fills it from the
    XML files of the configuration directory. *)
Record ConfigInstallInformation : Type := mkConfigInstallInformation {
  path : string;
  name : string;
  host : string;
  target : string;
  version : string;
  installationXmlFilePath : string
}.

(** What the path functions read of the host, besides [Host]:
    [Utils::HostOsInfo::isAnyUnixHost()]; [QDir(dir).entryList] for one name
    filter; [QDir(dir).absoluteFilePath(name)]; the list
    [installedConfigs()] returns; [QString::compare] with the case
    sensitivity of file names on the host; and
    [Utils::HostOsInfo::withExecutableSuffix]. *)
Record Sdk : Type := mkSdk {
  files : Host;
  isAnyUnixHost : bool;
  entryList : string -> string -> list string;
  absoluteFilePath : string -> string -> string;
  installedConfigs : list ConfigInstallInformation;
  comparePaths : string -> string -> Z;
  withExecutableSuffix : string -> string
}.

Definition isEmpty (s : string) : bool :=
  match s with EmptyString => true | _ => false end.

(** [QString::replace(QChar before, QChar after)] *)
Fixpoint replace (before after : ascii) (s : string) : string :=
  match s with
  | EmptyString => EmptyString
  | String a rest =>
      String (if Ascii.eqb a before then after else a)
             (replace before after rest)
  end.

(** The loop of [QnxUtils::defaultTargetVersion] over the installed
    configurations. *)
Fixpoint versionOfPath (sdk : Sdk) (ndkPath : string)
    (configs : list ConfigInstallInformation) : string :=
  match configs with
  | [] => EmptyString
  | ndkInfo :: configs =>
      if decide (comparePaths sdk (path ndkInfo) ndkPath = 0)
      then version ndkInfo
      else versionOfPath sdk ndkPath configs
  end.

(** [QnxUtils::defaultTargetVersion] *)
Definition defaultTargetVersion (sdk : Sdk) (ndkPath : string) : string :=
  versionOfPath sdk ndkPath (installedConfigs sdk).

(** [QnxUtils::envFilePath] *)
Definition envFilePath (sdk : Sdk) (ndkPath targetVersion : string) : string :=
  let isWindows := isWindowsHost (files sdk) in
  let entries :=
    if isWindows
    then entryList sdk ndkPath "*-env.bat"
    else entryList sdk ndkPath "*-env.sh" in
  match entries with
  | first :: _ => absoluteFilePath sdk ndkPath first
  | [] =>
      let envFile :=
        if isWindows then ndkPath +:+ "/bbndk-env.bat"
        else if isAnyUnixHost sdk then ndkPath +:+ "/bbndk-env.sh"
        else EmptyString in
      if negb (fileExists (files sdk) envFile) then
        let version :=
          if isEmpty targetVersion
          then defaultTargetVersion sdk ndkPath
          else targetVersion in
        let version := replace "." "_" version in
        if isWindows
        then ndkPath +:+ "/bbndk-env_" +:+ version +:+ ".bat"
        else if isAnyUnixHost sdk
        then ndkPath +:+ "/bbndk-env_" +:+ version +:+ ".sh"
        else envFile
      else envFile
  end.

(** [QnxUtils::qnxEnvironment] *)
Definition qnxEnvironment (sdk : Sdk) (sdkPath : string)
  : list EnvironmentItem :=
  qnxEnvironmentFromEnvFile (files sdk) (envFilePath sdk sdkPath EmptyString).

(** [QnxUtils::sdkInstallerPath] *)
Definition sdkInstallerPath (sdk : Sdk) (ndkPath : string) : string :=
  let sdkinstallPath := withExecutableSuffix sdk (ndkPath +:+ "/qde") in
  if fileExists (files sdk) sdkinstallPath then sdkinstallPath
  else EmptyString.

(** [QnxUtils::qdeInstallProcess]; the pattern with its five places filled
    in by [QString::arg]. *)
Definition qdeInstallProcess (sdk : Sdk)
    (ndkPath target option version : string) : string :=
  let installerPath := sdkInstallerPath sdk ndkPath in
  if isEmpty installerPath then EmptyString
  else
    let installerPlugins :=
      entryList sdk (ndkPath +:+ "/plugins")
                "com.qnx.tools.ide.sdk.installer.app_*.jar" in
    let installerApplication :=
      if decide (1 <= length installerPlugins)%nat
      then "com.qnx.tools.ide.sdk.installer.app.SDKInstallerApplication"
      else "com.qnx.tools.ide.sdk.manager.core.SDKInstallerApplication" in
    installerPath +:+ " -nosplash -application " +:+ installerApplication
      +:+ " " +:+ target +:+ " " +:+ option +:+ " " +:+ version
      +:+ " -vmargs -Dosgi.console=:none".
End Qnx.

(** ** The qmldump tool lookup *)

Module QmlDump.
Local Open Scope string_scope.

(** A project is known by its address. *)
Definition Project : Type := N.

(** What [qmlDumpPath] reads of a [QtVersion]: [uniqueId()] and
    [versionInfo().value("QT_INSTALL_DATA")]. *)
Record QtVersion : Type := mkQtVersion {
  uniqueId : Z;
  qtInstallData : string
}.

(** [QmlDumpBuildTask]: [m_version], [m_failed], [m_projectsToUpdate] *)
Record QmlDumpBuildTask : Type := mkTask {
  m_version : QtVersion;
  m_failed : bool;
  m_projectsToUpdate : gset N
}.

(** What the function reads and does not change: the static function
    [qtVersionForProject] (a null pointer is [None]),
    [QmlDumpTool::toolByInstallData], and [QFileInfo::exists] and
    [QFileInfo::isFile] of a path. *)
Record Host : Type := mkHost {
  qtVersionForProject : Project -> option QtVersion;
  toolByInstallData : string -> string;
  fileExists : string -> bool;
  isFile : string -> bool
}.

(** What the function changes: the global [qmlDumpBuilds], which maps the
    id of a Qt version to its build task; the tasks handed to
    [QtConcurrent::run] and the progress manager, named by that id since
    they are the objects in [qmlDumpBuilds]; the warnings printed. *)
Record State : Type := mkState {
  qmlDumpBuilds : gmap Z QmlDumpBuildTask;
  started : list Z;
  warnings : list string
}.

(** [QmlDumpTool::toolForProject] *)
Definition toolForProject (host : Host) (project : Project) : string :=
  match qtVersionForProject host project with
  | Some version =>
      let qtInstallData := qtInstallData version in
      let toolPath := toolByInstallData host qtInstallData in
      toolPath
  | None => EmptyString
  end.

Definition isEmpty (s : string) : bool :=
  match s with EmptyString => true | _ => false end.

(** [QmlDumpBuildTask::updateProjectWhenDone] *)
Definition updateProjectWhenDone (project : Project) (task : QmlDumpBuildTask)
  : QmlDumpBuildTask :=
  mkTask (m_version task) (m_failed task) ({[ project ]} ∪ m_projectsToUpdate task).

Definition warn (message : string) (st : State) : State :=
  mkState (qmlDumpBuilds st) (started st) (warnings st ++ [message]).

(** [QmlDumpTool::qmlDumpPath]: the path returned and the state left. *)
Definition qmlDumpPath (host : Host) (project : Project) (st : State)
  : string * State :=
  let path := toolForProject host project in
  match qtVersionForProject host project, isEmpty path with
  | Some version, true =>
      match qmlDumpBuilds st !! uniqueId version with
      | Some qmlDumpBuildTask =>
          if negb (m_failed qmlDumpBuildTask) then
            (path,
             mkState (<[ uniqueId version :=
                           updateProjectWhenDone project qmlDumpBuildTask ]>
                        (qmlDumpBuilds st))
                     (started st) (warnings st))
          else (path, st)
      | None =>
          (* the constructor registers the task in [qmlDumpBuilds] *)
          let buildTask := mkTask version false ∅ in
          let buildTask := updateProjectWhenDone project buildTask in
          (path,
           mkState (<[ uniqueId version := buildTask ]> (qmlDumpBuilds st))
                   (started st ++ [uniqueId version]) (warnings st))
      end
  | _, _ =>
      if negb (isEmpty path) then
        if negb (fileExists host path) then
          (EmptyString,
           warn ("QmlDumpTool::qmlDumpPath: qmldump executable does not exist at "
                   +:+ path) st)
        else if negb (isFile host path) then
          (EmptyString,
           warn ("QmlDumpTool::qmlDumpPath: " +:+ path +:+ " is not a file") st)
        else (path, st)
      else (path, st)
  end.

(** *** The build task when it is done *)

(** [QmlJS::ModelManagerInterface], as far as [finish] uses it: the
    [qmlDumpPath] of the [ProjectInfo] of each project, empty for a project
    the manager has no path for; [updateProjectInfo] stores the changed
    info. *)
Definition projectInfo (infos : gmap N string) (project : Project) : string :=
  default EmptyString (infos !! project).

Definition updateProjectInfo (project : Project) (qmlDumpPath : string)
    (infos : gmap N string) : gmap N string :=
  <[ project := qmlDumpPath ]> infos.

(** The slot [QmlDumpBuildTask::finish] of a task: what it leaves of
    [qmlDumpBuilds] and of the model manager, which is [None] when
    [ModelManagerInterface::instance()] is null.  The projects of the task
    are visited in the order [projects]. *)
Definition finishIn (projects : list Project) (task : QmlDumpBuildTask)
    (qmldumpPath : string)
    (builds : gmap Z QmlDumpBuildTask) (modelManager : option (gmap N string))
  : gmap Z QmlDumpBuildTask * option (gmap N string) :=
  let builds := delete (uniqueId (m_version task)) builds in
  match modelManager with
  | None => (builds, None)
  | Some infos =>
      (builds,
       Some (foldl (fun infos project =>
                      if isEmpty (projectInfo infos project)
                      then updateProjectInfo project qmldumpPath infos
                      else infos)
                   infos projects))
  end.

Definition finish (task : QmlDumpBuildTask) (qmldumpPath : string)
    (builds : gmap Z QmlDumpBuildTask) (modelManager : option (gmap N string))
  : gmap Z QmlDumpBuildTask * option (gmap N string) :=
  finishIn (elements (m_projectsToUpdate task)) task qmldumpPath
           builds modelManager.

(** *** Finding the Qt version of a project *)

Module Lookup.
(** What [qtVersionForProject] and [canBuild] read of a [QtVersion]. *)
Record Version : Type := mkVersion {
  qtVersion : QtVersion;
  isValid : bool;
  supportsDesktop : bool;
  qtInstallHeaders : string
}.

(** What [qtVersionForProject] reads of a project that is not null: for a
    Qt4 project the Qt version of the active build configuration of the
    active target, when both exist; for a QML project whether the active
    target has an active run configuration, and its property [qtVersionId]
    when that is a valid variant convertible to [int]. *)
Inductive ProjectKind : Type :=
  | Qt4Project (activeQtVersion : option Version)
  | QmlProject (hasRunConfiguration : bool) (qtVersionId : option Z)
  | OtherProject.

(** [QtVersionManager]: [validVersions()] and [version(id)];
    [QmlDumpTool::toolByInstallData]; [QFile::exists]. *)
Record Versions : Type := mkVersions {
  validVersions : list Version;
  versionOfId : Z -> option Version;
  toolOf : string -> string;
  headerExists : string -> bool
}.

(** [QmlDumpTool::canBuild] *)
Definition canBuild (versions : Versions) (version : Version) : bool :=
  let installHeaders := qtInstallHeaders version in
  let header :=
    installHeaders +:+ "/QtDeclarative/private/qdeclarativemetatype_p.h" in
  supportsDesktop version && headerExists versions header.

(** The loop at the end of [qtVersionForProject]; [desktopQt] is its local
    variable. *)
Fixpoint anyDesktopVersion (versions : Versions) (candidates : list Version)
    (desktopQt : option Version) : option Version :=
  match candidates with
  | [] => desktopQt
  | version :: candidates =>
      if supportsDesktop version then
        let path := toolOf versions (qtInstallData (qtVersion version)) in
        if negb (isEmpty path) then Some version
        else
          let desktopQt :=
            match desktopQt with
            | None => if canBuild versions version then Some version else None
            | Some _ => desktopQt
            end in
          anyDesktopVersion versions candidates desktopQt
      else anyDesktopVersion versions candidates desktopQt
  end.

(** The static function [qtVersionForProject]; a null project is [None]. *)
Definition qtVersionForProject (versions : Versions)
    (project : option ProjectKind) : option Version :=
  match project with
  | Some (Qt4Project activeQtVersion) =>
      match activeQtVersion with
      | Some version => if isValid version then Some version else None
      | None => None
      end
  | Some (QmlProject hasRunConfiguration qtVersionId) =>
      if negb hasRunConfiguration then None
      else
        match qtVersionId with
        | None => None
        | Some id =>
            match versionOfId versions id with
            | Some version => if isValid version then Some version else None
            | None => None
            end
        end
  | _ => anyDesktopVersion versions (validVersions versions) None
  end.
End Lookup.

(** *** Installing the sources of the tool *)

(** What [installDirectories] and [copy] use of Qt and of the helper
    library: [qHash(QString)], [QString::number(uint)], [QDir::cleanPath],
    [QCoreApplication::applicationDirPath()],
    [QDesktopServices::storageLocation(DataLocation)]; and [copyFiles] for
    the files of qmldump, which gets the error message so far and returns
    whether it succeeded and the error message it leaves. *)
Record Install : Type := mkInstall {
  qHash : string -> N;
  number : N -> string;
  cleanPath : string -> string;
  applicationDirPath : string;
  dataLocation : string;
  copyFiles : string -> string -> bool * string
}.

(** [QmlDumpTool::installDirectories] *)
Definition installDirectories (install : Install) (qtInstallData : string)
  : list string :=
  let slash := "/" in
  let hash := qHash install qtInstallData in
  [ qtInstallData +:+ "/qtc-qmldump/";
    cleanPath install
      (applicationDirPath install +:+ "/../qtc-qmldump/" +:+ number install hash)
      +:+ slash;
    (dataLocation install +:+ "/qtc-qmldump/" +:+ number install hash)
      +:+ slash ].

(** The loop of [QmlDumpTool::copy] that looks for a writable directory:
    the directory found, if any, and the error message left. *)
Fixpoint firstWritable (install : Install) (directories : list string)
    (errorMessage : string) : option string * string :=
  match directories with
  | [] => (None, errorMessage)
  | directory :: directories =>
      let '(copied, errorMessage) := copyFiles install directory errorMessage in
      if copied then (Some directory, errorMessage)
      else firstWritable install directories errorMessage
  end.

(** [QmlDumpTool::copy]: the directory returned and the error message. *)
Definition copy (install : Install) (qtInstallData errorMessage : string)
  : string * string :=
  let directories := installDirectories install qtInstallData in
  match firstWritable install directories errorMessage with
  | (Some directory, errorMessage) => (directory, errorMessage)
  | (None, errorMessage) =>
      let newline := String (ascii_of_nat 10) EmptyString in
      (EmptyString,
       "qmldump could not be built in any of the directories:" +:+ newline
         +:+ "- " +:+ String.concat (newline +:+ "- ") directories
         +:+ newline +:+ newline +:+ "Reason: " +:+ errorMessage)
  end.
End QmlDump.

(** ** Sample declarations

    One choice of the declarations the sources lack, to run the functions
    on concrete inputs: the roles as [Qt::UserRole + 2 .. + 4], a numbering
    of the icon enumeration, decimal numerals for the conversions, and for
    [operator<] the order of the class view, which compares the sort keys
    [iconTypeSortOrder] gives the icon types, then the names, then the
    types. *)

Module Sample.
Import CodeModelIcon.
Local Open Scope string_scope.

Definition iconNumber (icon : CodeModelIcon.Type_) : Z :=
  match icon with
  | Class => 0
  | Enum => 2
  | Enumerator => 3
  | FuncPublic => 4
  | FuncProtected => 5
  | FuncPrivate => 6
  | FuncPublicStatic => 7
  | FuncProtectedStatic => 8
  | FuncPrivateStatic => 9
  | Namespace => 10
  | VarPublic => 11
  | VarProtected => 12
  | VarPrivate => 13
  | VarPublicStatic => 14
  | VarProtectedStatic => 15
  | VarPrivateStatic => 16
  | Signal => 17
  | SlotPublic => 18
  | SlotProtected => 19
  | SlotPrivate => 20
  | Keyword => 21
  | Macro => 22
  | Unknown => 24
  end.

Definition decimal (n : Z) : string :=
  DecimalString.NilZero.string_of_int (Z.to_int n).

Definition parseDecimal (s : string) : option Z :=
  option_map Z.of_int (DecimalString.NilZero.int_of_string s).

(** The declarations before the order is there: [iconTypeSortOrder], which
    the order calls, reads of them only the numbering of the icon kinds. *)
Definition numbering : Declarations := {|
  SymbolNameRole := 259;
  SymbolTypeRole := 260;
  IconTypeRole := 258;
  iconValue := iconNumber;
  lessThan := fun _ _ => false;
  numberToString := decimal;
  stringToInt := parseDecimal
|}.

(** The sort key of an icon type; by [iconTypeSortOrder_history] it is the
    same whatever calls came before. *)
Definition sortKey (icon : Z) : Z :=
  (iconTypeSortOrder (H := numbering) ∅ icon).1.

(** The order that compares the sort keys of the icon types, then the
    names, then the types.  Two symbols whose icon types differ and have the
    same sort key are not ordered by it when their names and types agree. *)
Definition keyLess (a b : SymbolInformation) : bool :=
  match (sortKey (iconType a) ?= sortKey (iconType b))%Z with
  | Lt => true
  | Gt => false
  | Eq =>
      match String_as_OT.compare (name a) (name b) with
      | Lt => true
      | Gt => false
      | Eq =>
          match String_as_OT.compare (type a) (type b) with
          | Lt => true
          | _ => false
          end
      end
  end.

#[export] Instance declarations : Declarations := {|
  SymbolNameRole := 259;
  SymbolTypeRole := 260;
  IconTypeRole := 258;
  iconValue := iconNumber;
  lessThan := keyLess;
  numberToString := decimal;
  stringToInt := parseDecimal
|}.

(** An item made for a symbol, as the class view makes them. *)
Definition item (address : N) (name type : string) (iconType : Z)
    (children : list QStandardItem) : QStandardItem :=
  setSymbolInformationToItem (mkSymbolInformation name type iconType)
    (mkItem address ∅ children).

(** A live tree and a target tree with sorted child lists. *)
Definition liveTree : QStandardItem :=
  mkItem 0 ∅
    [ item 1 "a" "" 0 [];
      item 2 "b" "" 0 [ item 5 "x" "" 0 [] ];
      item 3 "c" "" 0 [] ].

Definition targetTree : QStandardItem :=
  mkItem 10 ∅
    [ item 12 "b" "" 0 [ item 15 "y" "" 0 [] ];
      item 13 "d" "" 0 [ item 16 "z" "" 0 [] ] ].

End Sample.

(** * Properties *)

(** ** Location sets *)

Lemma locationsToRole_from (l : list SymbolLocation) (acc : list QVariant) :
  foldl (fun locationsVar loc => locationsVar ++ [VLocation loc]) acc l
  = acc ++ (VLocation <$> l).
Proof.
  revert acc. induction l as [|loc l IH]; intros acc; simpl.
  - by rewrite app_nil_r.
  - rewrite IH. by rewrite <- app_assoc.
Qed.

Lemma locationsToRole_fmap (locations : gset SymbolLocation) :
  locationsToRole locations = VLocation <$> elements locations.
Proof. unfold locationsToRole. by rewrite locationsToRole_from. Qed.

Lemma roleToLocations_from (locationsVar : list QVariant)
    (locations : gset SymbolLocation) :
  foldl (fun locations loc =>
           if canConvertLocation loc
           then {[ valueLocation loc ]} ∪ locations
           else locations)
        locations locationsVar
  = roleToLocations locationsVar ∪ locations.
Proof.
  unfold roleToLocations.
  revert locations.
  induction locationsVar as [|v l IH] using rev_ind; intros locations.
  - simpl. set_solver.
  - rewrite !foldl_app. simpl. rewrite IH.
    destruct (canConvertLocation v); set_solver.
Qed.

Lemma roleToLocations_locations (l : list SymbolLocation) :
  roleToLocations (VLocation <$> l) = list_to_set l.
Proof.
  induction l as [|loc l IH].
  - reflexivity.
  - unfold roleToLocations. rewrite fmap_cons. simpl.
    rewrite roleToLocations_from, IH. set_solver.
Qed.

(** C9: converting a set of locations to its role encoding and back gives
    the set again: every location survives and none is added. *)
Theorem roleToLocations_locationsToRole (locations : gset SymbolLocation) :
  roleToLocations (locationsToRole locations) = locations.
Proof.
  rewrite locationsToRole_fmap, roleToLocations_locations.
  apply list_to_set_elements_L.
Qed.

(** The same holds in whatever order the set is traversed. *)
Lemma roleToLocations_any_order (locations : gset SymbolLocation)
    (order : list SymbolLocation) :
  order ≡ₚ elements locations ->
  roleToLocations (VLocation <$> order) = locations.
Proof.
  intros Hperm. rewrite roleToLocations_locations.
  apply set_eq. intros loc.
  rewrite elem_of_list_to_set, Hperm. apply elem_of_elements.
Qed.

(** A variant that is no location is dropped on the way back. *)
Lemma roleToLocations_skips (v : QVariant) (locationsVar : list QVariant) :
  canConvertLocation v = false ->
  roleToLocations (v :: locationsVar) = roleToLocations locationsVar.
Proof.
  intros Hv. unfold roleToLocations at 1. simpl. rewrite Hv. reflexivity.
Qed.

(** ** Icon sort order *)

Section IconSortOrderFacts.
Context `{Declarations}.

(** Distinct enumerators stand for distinct integers. *)
Hypothesis iconValue_inj : forall a b, iconValue a = iconValue b -> a = b.

Lemma IconSortOrder_NoDup : NoDup IconSortOrder.
Proof using iconValue_inj.
  unfold IconSortOrder.
  apply (NoDup_fmap_2_strong iconValue).
  - intros a b _ _. apply iconValue_inj.
  - repeat (apply NoDup_cons; split; [set_solver|]). apply NoDup_nil_2.
Qed.

Lemma fillSortOrder_spec (table : list Z) (m : gmap Z Z) :
  NoDup table ->
  (forall k, k ∈ table -> m !! k = None) ->
  size (fillSortOrder table m) = (size m + length table)%nat
  /\ (forall i k, table !! i = Some k ->
        fillSortOrder table m !! k = Some (Z.of_nat (size m + i)))
  /\ (forall k, k ∉ table -> fillSortOrder table m !! k = m !! k).
Proof.
  revert m. induction table as [|x table IH]; intros m Hnd Hfresh.
  - simpl. split; [lia|]. split; [intros i k Hi; by destruct i | done].
  - apply NoDup_cons in Hnd as [Hx Hnd].
    assert (Hmx : m !! x = None) by (apply Hfresh; set_solver).
    assert (Hsize : size (<[x:=Z.of_nat (size m)]> m) = S (size m))
      by (by apply map_size_insert_None).
    destruct (IH (<[x:=Z.of_nat (size m)]> m) Hnd) as (IH1 & IH2 & IH3).
    { intros k Hk. rewrite lookup_insert_ne; [apply Hfresh; set_solver|].
      intros ->. contradiction. }
    unfold fillSortOrder in *. simpl. split; [|split].
    + rewrite IH1, Hsize. simpl. lia.
    + intros [|i] k Hi; simpl in Hi.
      * injection Hi as ->. rewrite IH3 by done.
        rewrite lookup_insert_eq. do 2 f_equal. lia.
      * rewrite (IH2 i k Hi), Hsize. do 2 f_equal. lia.
    + intros k Hk. rewrite IH3 by set_solver.
      apply lookup_insert_ne. set_solver.
Qed.

Lemma sortOrderState_cases (st : gmap Z Z) :
  sortOrderState st -> st = ∅ \/ st = fillSortOrder IconSortOrder ∅.
Proof using iconValue_inj.
  assert (Hfilled : size (fillSortOrder IconSortOrder ∅) <> 0%nat).
  { destruct (fillSortOrder_spec IconSortOrder ∅ IconSortOrder_NoDup)
      as (Hsize & _); [done|].
    rewrite Hsize. unfold IconSortOrder. simpl. lia. }
  induction 1 as [|st icon _ [-> | ->]]; [by left | right ..].
  - unfold iconTypeSortOrder.
    rewrite decide_True by apply map_size_empty.
    by destruct (_ !! icon).
  - unfold iconTypeSortOrder.
    rewrite decide_False by done.
    by destruct (_ !! icon).
Qed.

Lemma iconTypeSortOrder_lookup (st : gmap Z Z) (icon : Z) :
  sortOrderState st ->
  (iconTypeSortOrder st icon).1
  = default icon (fillSortOrder IconSortOrder ∅ !! icon).
Proof using iconValue_inj.
  assert (Hfilled : size (fillSortOrder IconSortOrder ∅) <> 0%nat).
  { destruct (fillSortOrder_spec IconSortOrder ∅ IconSortOrder_NoDup)
      as (Hsize & _); [done|].
    rewrite Hsize. unfold IconSortOrder. simpl. lia. }
  intros [-> | ->]%sortOrderState_cases; unfold iconTypeSortOrder.
  - rewrite decide_True by apply map_size_empty. by destruct (_ !! icon).
  - rewrite decide_False by done. by destruct (_ !! icon).
Qed.

(** C10: whatever calls came before, [iconTypeSortOrder] returns the
    zero-based position of an icon kind listed in [IconSortOrder], and
    returns an integer the table does not list unchanged. *)
Theorem iconTypeSortOrder_position (st : gmap Z Z) (icon : Z) :
  sortOrderState st ->
  (forall i : nat, IconSortOrder !! i = Some icon ->
     (iconTypeSortOrder st icon).1 = Z.of_nat i)
  /\ (icon ∉ IconSortOrder -> (iconTypeSortOrder st icon).1 = icon).
Proof using iconValue_inj.
  intros Hst. rewrite (iconTypeSortOrder_lookup st icon Hst).
  destruct (fillSortOrder_spec IconSortOrder ∅ IconSortOrder_NoDup)
    as (_ & Hin & Hout); [done|].
  split.
  - intros i Hi. rewrite (Hin i icon Hi). simpl. f_equal.
  - intros Hnot. rewrite (Hout icon Hnot). reflexivity.
Qed.

(** The sort key of an unlisted integer that is smaller than the length of
    the table is also the key of the listed kind at that position. *)
Lemma iconTypeSortOrder_collision (st : gmap Z Z) (unlisted : Z) (i : nat)
    (listed : Z) :
  sortOrderState st ->
  unlisted ∉ IconSortOrder ->
  IconSortOrder !! i = Some listed ->
  unlisted = Z.of_nat i ->
  (iconTypeSortOrder st unlisted).1 = (iconTypeSortOrder st listed).1.
Proof using iconValue_inj.
  intros Hst Hnot Hi ->.
  destruct (iconTypeSortOrder_position st (Z.of_nat i) Hst) as [_ ->]; [|done].
  destruct (iconTypeSortOrder_position st listed Hst) as [Hlisted _].
  by rewrite (Hlisted i Hi).
Qed.
End IconSortOrderFacts.

(** ** Items and symbol information *)

Section ItemData.
Context `{Declarations}.

(** The three roles are stored under different keys. *)
Hypothesis name_type_roles :
  storedRole SymbolNameRole <> storedRole SymbolTypeRole.
Hypothesis name_icon_roles :
  storedRole SymbolNameRole <> storedRole IconTypeRole.
Hypothesis type_icon_roles :
  storedRole SymbolTypeRole <> storedRole IconTypeRole.

Lemma data_setData_eq (value : QVariant) (role : Z) (item : QStandardItem) :
  data (setData value role item) role = value.
Proof. unfold data, setData. simpl. by rewrite lookup_insert_eq. Qed.

Lemma data_setData_ne (value : QVariant) (role role' : Z)
    (item : QStandardItem) :
  storedRole role <> storedRole role' ->
  data (setData value role item) role' = data item role'.
Proof. intros Hne. unfold data, setData. simpl. by rewrite lookup_insert_ne. Qed.

(** C8: the symbol information read from an item is the one that was set
    on it: name, type and icon type come back unchanged. *)
Theorem symbolInformation_roundtrip (information : SymbolInformation)
    (item : QStandardItem) :
  symbolInformationFromItem (setSymbolInformationToItem information item)
  = information.
Proof using name_type_roles name_icon_roles type_icon_roles.
  destruct information as [n t i].
  unfold symbolInformationFromItem, setSymbolInformationToItem. simpl.
  rewrite data_setData_eq.
  rewrite (data_setData_ne _ IconTypeRole SymbolTypeRole) by congruence.
  rewrite data_setData_eq.
  rewrite (data_setData_ne _ IconTypeRole SymbolNameRole) by congruence.
  rewrite (data_setData_ne _ SymbolTypeRole SymbolNameRole) by congruence.
  rewrite data_setData_eq.
  reflexivity.
Qed.

(** Setting the symbol information changes neither the address nor the
    rows of the item. *)
Lemma setSymbolInformationToItem_rows (information : SymbolInformation)
    (item : QStandardItem) :
  rows (setSymbolInformationToItem information item) = rows item
  /\ address (setSymbolInformationToItem information item) = address item.
Proof. done. Qed.
End ItemData.

(** If two of the roles were the same, the later [setData] would overwrite
    the earlier one. *)
Lemma setData_same_role_overwrites :
  let declarations :=
    {| SymbolNameRole := 259; SymbolTypeRole := 259; IconTypeRole := 258;
       iconValue := Sample.iconNumber; lessThan := Sample.keyLess;
       numberToString := Sample.decimal; stringToInt := Sample.parseDecimal |} in
  symbolInformationFromItem
    (setSymbolInformationToItem
       (mkSymbolInformation "n" "t" 0) (mkItem 0%N ∅ []))
  = mkSymbolInformation "t" "t" 0.
Proof. reflexivity. Qed.

(** ** QNX environment *)

Module QnxFacts.
Import Qnx.
Local Open Scope string_scope.

Lemma indexOfFrom_shift (c : ascii) (s : string) (from : Z) :
  indexOfFrom c s from
  = if decide (indexOfFrom c s 0 < 0) then -1 else from + indexOfFrom c s 0.
Proof.
  revert from. induction s as [|a s IH]; intros from; simpl.
  - reflexivity.
  - destruct (Ascii.eqb a c).
    + rewrite decide_False by lia. lia.
    + rewrite (IH (from + 1)), (IH (0 + 1)).
      destruct (decide (indexOfFrom c s 0 < 0)).
      * rewrite decide_True by lia. reflexivity.
      * assert (0 <= indexOfFrom c s 0) by lia.
        rewrite decide_False by lia. lia.
Qed.

Lemma indexOf_cons (c a : ascii) (s : string) :
  indexOf c (String a s)
  = if Ascii.eqb a c then 0
    else if decide (indexOf c s < 0) then -1 else 1 + indexOf c s.
Proof.
  unfold indexOf. simpl. destruct (Ascii.eqb a c); [reflexivity|].
  apply indexOfFrom_shift.
Qed.

Lemma indexOf_range (c : ascii) (s : string) :
  indexOf c s = -1
  \/ (0 <= indexOf c s < Z.of_nat (String.length s)).
Proof.
  induction s as [|a s IH].
  - by left.
  - rewrite indexOf_cons. simpl String.length.
    destruct (Ascii.eqb a c); [right; lia|].
    destruct (decide (indexOf c s < 0)); [by left | right; lia].
Qed.

Lemma substring_all (s : string) : substring 0 (String.length s) s = s.
Proof. induction s as [|a s IH]; simpl; [done | by rewrite IH]. Qed.

(** The index arithmetic of the parsing loop finds the text before the
    first ['='] and the text after it. *)
Lemma parse_line (line : string) :
  let equalIndex := indexOf "=" line in
  match splitAtEquals line with
  | None => equalIndex < 0
  | Some (var, value) =>
      0 <= equalIndex
      /\ left equalIndex line = var
      /\ mid (equalIndex + 1) line = value
  end.
Proof.
  induction line as [|a line IH]; simpl.
  - unfold indexOf. simpl. lia.
  - rewrite indexOf_cons.
    destruct (Ascii.eqb a "=") eqn:Ha.
    + split; [lia|]. split.
      * unfold left. simpl String.length. rewrite decide_False by lia.
        reflexivity.
      * unfold mid. simpl String.length. rewrite decide_False by lia.
        change (Z.to_nat (Z.max 0 (0 + 1))) with 1%nat. simpl.
        rewrite Nat.sub_0_r. apply substring_all.
    + simpl in IH.
      destruct (indexOf_range "=" line) as [Hnone | Hsome].
      * destruct (splitAtEquals line) as [[var value]|].
        { lia. }
        { rewrite decide_True by lia. lia. }
      * destruct (splitAtEquals line) as [[var value]|]; [|lia].
        destruct IH as (Hpos & Hleft & Hmid).
        rewrite decide_False by lia.
        split; [lia|]. split.
        -- unfold left in *. simpl String.length.
           rewrite decide_False in Hleft by lia.
           rewrite decide_False by lia.
           replace (Z.to_nat (1 + indexOf "=" line))
             with (S (Z.to_nat (indexOf "=" line))) by lia.
           simpl. by rewrite Hleft.
        -- unfold mid in *. simpl String.length.
           rewrite decide_False in Hmid by lia.
           rewrite decide_False by lia.
           replace (Z.to_nat (Z.max 0 (1 + indexOf "=" line + 1)))
             with (S (Z.to_nat (Z.max 0 (indexOf "=" line + 1)))) by lia.
           simpl. exact Hmid.
Qed.

Lemma parseOutput_omap (lines : list string) (items : list EnvironmentItem) :
  parseOutput lines items = (items ++ omap itemOfLine lines)%list.
Proof.
  revert items. induction lines as [|line lines IH]; intros items; simpl.
  - by rewrite app_nil_r.
  - pose proof (parse_line line) as Hline. simpl in Hline.
    unfold itemOfLine.
    destruct (splitAtEquals line) as [[var value]|].
    + destruct Hline as (Hpos & -> & ->).
      rewrite decide_False by lia. rewrite IH. by rewrite <- app_assoc.
    + rewrite decide_True by lia. apply IH.
Qed.

(** What [splitAtEquals] returns: the line is the name, an ['='] and the
    value, and the name has no ['=']; nothing exactly for the lines without
    ['=']. *)
Lemma splitAtEquals_Some (line var value : string) :
  splitAtEquals line = Some (var, value) <->
  line = var +:+ "=" +:+ value /\ contains "=" var = false.
Proof.
  revert var value. induction line as [|a line IH]; intros var value; simpl.
  - split; [done|]. intros [Hline _]. by destruct var.
  - destruct (Ascii.eqb a "=") eqn:Ha.
    + apply Ascii.eqb_eq in Ha as ->. split.
      * intros [= <- <-]. done.
      * intros [Hline Hvar]. destruct var as [|b var]; simpl in *.
        { by injection Hline as ->. }
        { injection Hline as <- _. simpl in Hvar. done. }
    + destruct (splitAtEquals line) as [[var' value']|] eqn:Hs.
      * split.
        -- intros [= <- <-].
           destruct (proj1 (IH var' value') eq_refl) as [-> Hvar].
           simpl. by rewrite Ha.
        -- intros [Hline Hvar]. destruct var as [|b var]; simpl in *.
           { injection Hline as -> _. by rewrite Ascii.eqb_refl in Ha. }
           { injection Hline as <- Hline.
             apply orb_false_iff in Hvar as [_ Hvar].
             pose proof (proj2 (IH var value) (conj Hline Hvar)) as Heq.
             by injection Heq as -> ->. }
      * split; [done|].
        intros [Hline Hvar]. destruct var as [|b var]; simpl in *.
        { injection Hline as -> _. by rewrite Ascii.eqb_refl in Ha. }
        { injection Hline as <- Hline.
          apply orb_false_iff in Hvar as [_ Hvar].
          by pose proof (proj2 (IH var value) (conj Hline Hvar)). }
Qed.

Lemma splitAtEquals_None (line : string) :
  splitAtEquals line = None <-> contains "=" line = false.
Proof.
  induction line as [|a line IH]; simpl; [done|].
  destruct (Ascii.eqb a "="); simpl; [done|].
  destruct (splitAtEquals line) as [[var value]|]; simpl.
  - split; [done|]. intros Hc. by apply IH in Hc.
  - split; [|done]. intros _. by apply IH.
Qed.

(** C6: [qnxEnvironmentFromEnvFile] returns the empty list when the env
    file does not exist, when the wrapper script cannot be created, when
    the process has not finished within the timeout, and when it exits
    abnormally or with a nonzero exit code.  Otherwise it returns one item
    per output line that contains ['='], in the order of the lines, made of
    the text before the first ['='] and the text after it; the lines
    without ['='] are skipped. *)
Theorem qnxEnvironmentFromEnvFile_result (host : Host) (fileName : string) :
  let template :=
    tempPath host +:+ "/" +:+ "bbndk-env-eval-XXXXXX"
      +:+ (if isWindowsHost host then ".bat" else ".sh") in
  let processOf tmpFile :=
    if isWindowsHost host
    then start host "cmd.exe" [ "/C"; tmpFile ]
               (wrapperScript true fileName)
    else start host "/bin/bash" [ tmpFile ] (wrapperScript false fileName) in
  (fileExists host fileName = false ->
     qnxEnvironmentFromEnvFile host fileName = [])
  /\ (openTemporaryFile host template = None ->
        qnxEnvironmentFromEnvFile host fileName = [])
  /\ (forall tmpFile,
        openTemporaryFile host template = Some tmpFile ->
        let process := processOf tmpFile in
        ((waitForFinished process = false /\ notRunning process = false)
         \/ exitStatus process = CrashExit
         \/ exitCode process <> 0) ->
        qnxEnvironmentFromEnvFile host fileName = [])
  /\ (forall tmpFile,
        fileExists host fileName = true ->
        openTemporaryFile host template = Some tmpFile ->
        let process := processOf tmpFile in
        (waitForFinished process = true \/ notRunning process = true) ->
        exitStatus process = NormalExit ->
        exitCode process = 0 ->
        qnxEnvironmentFromEnvFile host fileName
        = omap itemOfLine (output process))
  /\ (forall line,
        match itemOfLine line with
        | Some item =>
            line = itemName item +:+ "=" +:+ itemValue item
            /\ contains "=" (itemName item) = false
        | None => contains "=" line = false
        end).
Proof.
  assert (Hitem : forall line,
        match itemOfLine line with
        | Some item =>
            line = itemName item +:+ "=" +:+ itemValue item
            /\ contains "=" (itemName item) = false
        | None => contains "=" line = false
        end).
  { intros line. unfold itemOfLine.
    destruct (splitAtEquals line) as [[var value]|] eqn:Hs; simpl.
    - by apply splitAtEquals_Some.
    - by apply splitAtEquals_None. }
  cut (forall A B C D E : Prop, E -> A /\ B /\ C /\ D -> A /\ B /\ C /\ D /\ E);
    [intros Hcut; apply Hcut; [exact Hitem|] | tauto].
  clear Hitem.
  unfold qnxEnvironmentFromEnvFile. simpl.
  destruct (isWindowsHost host) eqn:Hwin; simpl.
  all: split; [intros ->; reflexivity|].
  all: split; [intros ->; by destruct (fileExists host fileName)|].
  all: split.
  all: try (intros tmpFile -> Hfail;
            destruct (fileExists host fileName); simpl; [|done];
            destruct Hfail as [[-> ->] | [-> | Hcode]]; simpl; [done| |];
            [ by destruct (_ || _) |
              destruct (_ || _); simpl; [|done];
              destruct (exitStatus _); [|done];
              by rewrite decide_True by done ]).
  all: intros tmpFile -> -> Hwait -> Hcode; simpl;
       rewrite Hcode; simpl;
       assert (Hw : (waitForFinished (start host _ _ _)
                     || notRunning (start host _ _ _)) = true)
         by (apply orb_true_iff; exact Hwait);
       rewrite Hw; simpl;
       apply (parseOutput_omap _ []).
Qed.
End QnxFacts.

(** ** The qmldump tool *)

Module QmlDumpFacts.
Import QmlDump.
Local Open Scope string_scope.

Lemma isEmpty_true (s : string) : isEmpty s = true <-> s = "".
Proof. by destruct s. Qed.

(** C7: a path [qmlDumpPath] returns is empty or names an existing file
    that is a regular file.  A tool path that does not exist or is not a
    file is cleared, and when no tool is found the function returns the
    empty path after starting at most one build task. *)
Theorem qmlDumpPath_is_file (host : Host) (project : Project) (st : State) :
  let tool := toolForProject host project in
  let path := (qmlDumpPath host project st).1 in
  let st' := (qmlDumpPath host project st).2 in
  (path <> "" ->
     path = tool /\ fileExists host path = true /\ isFile host path = true)
  /\ (fileExists host tool = false \/ isFile host tool = false -> path = "")
  /\ (tool = "" ->
        path = ""
        /\ (started st' = started st
            \/ exists task, started st' = (started st ++ [task])%list)).
Proof.
  simpl. unfold qmlDumpPath.
  destruct (qtVersionForProject host project) as [version|] eqn:Hversion;
    destruct (isEmpty (toolForProject host project)) eqn:Hempty;
    try (apply isEmpty_true in Hempty as Htool; rewrite Htool in *); simpl.
  - destruct (qmlDumpBuilds st !! uniqueId version) as [task|]; simpl.
    + destruct (m_failed task); simpl; repeat split; eauto; done.
    + repeat split; eauto; done.
  - assert (Hne : toolForProject host project <> "").
    { intros Htool. apply isEmpty_true in Htool. congruence. }
    destruct (fileExists host (toolForProject host project)) eqn:Hexists;
      simpl; [|repeat split; eauto; done].
    destruct (isFile host (toolForProject host project)) eqn:Hfile;
      simpl; [|repeat split; eauto; done].
    repeat split; eauto; try done.
    intros [? | ?]; congruence.
  - repeat split; eauto; done.
  - assert (Hne : toolForProject host project <> "").
    { intros Htool. apply isEmpty_true in Htool. congruence. }
    destruct (fileExists host (toolForProject host project)) eqn:Hexists;
      simpl; [|repeat split; eauto; done].
    destruct (isFile host (toolForProject host project)) eqn:Hfile;
      simpl; [|repeat split; eauto; done].
    repeat split; eauto; try done.
    intros [? | ?]; congruence.
Qed.
End QmlDumpFacts.

(** ** Reconciling trees *)

(** Induction on an item with the property available for all its rows. *)
Lemma QStandardItem_rows_ind (P : QStandardItem -> Prop) :
  (forall address values children,
     Forall P children -> P (mkItem address values children)) ->
  forall item, P item.
Proof.
  intros Hnode. fix IH 1. intros [a v children]. apply Hnode.
  induction children as [|c children IHchildren]; constructor.
  - apply IH.
  - exact IHchildren.
Qed.

(** Side conditions on the lists and counters of a loop. *)
Ltac list_side :=
  first [ done
        | by rewrite <- app_assoc
        | by rewrite app_nil_r
        | rewrite ?length_app; simpl in *; lia ].

Section Reconcile.
Context `{Declarations}.

Implicit Types (item target : QStandardItem) (heap : N).
Implicit Types (children done rest targets : list QStandardItem).

#[local] Arguments moveItemToTarget_run : simpl never.
#[local] Arguments moveLoop : simpl never.
#[local] Arguments moveAppend : simpl never.
#[local] Arguments moveRows : simpl never.
#[local] Arguments moveTree : simpl never.
#[local] Arguments fetchLoop : simpl never.
#[local] Arguments fetchRows : simpl never.

(** *** The equations of the loops *)

Lemma moveItemToTarget_run_S fuel item target heap :
  moveItemToTarget_run (S fuel) item target heap
  = '(children, heap) ←
      moveLoop fuel (rows item) target 0 0 (rowCount item) (rowCount target) heap;
    Some (mkItem (address item) (values item) children, heap).
Proof. reflexivity. Qed.

Lemma moveLoop_S fuel children target itemIndex targetIndex itemRows
    targetRows heap :
  moveLoop (S fuel) children target itemIndex targetIndex itemRows targetRows heap
  = if decide (itemIndex < itemRows ∧ targetIndex < targetRows)%nat then
      itemChild ← children !! itemIndex;
      targetChild ← child target targetIndex;
      let itemInf := symbolInformationFromItem itemChild in
      let targetInf := symbolInformationFromItem targetChild in
      if lessThan itemInf targetInf then
        moveLoop fuel (removeRow itemIndex children) target
                 itemIndex targetIndex (itemRows - 1) targetRows heap
      else if decide (itemInf = targetInf) then
        '(itemChild, heap) ←
          moveItemToTarget_run fuel itemChild targetChild heap;
        moveLoop fuel (<[ itemIndex := itemChild ]> children) target
                 (itemIndex + 1) (targetIndex + 1) itemRows targetRows heap
      else
        let '(copy, heap) := clone targetChild heap in
        let children := insertRow itemIndex copy children in
        inserted ← children !! itemIndex;
        '(inserted, heap) ←
          moveItemToTarget_run fuel inserted targetChild heap;
        moveLoop fuel (<[ itemIndex := inserted ]> children) target
                 (itemIndex + 1) (targetIndex + 1) (itemRows + 1) targetRows heap
    else
      moveAppend fuel children target itemIndex targetIndex itemRows targetRows heap.
Proof. reflexivity. Qed.

Lemma moveAppend_S fuel children target itemIndex targetIndex itemRows
    targetRows heap :
  moveAppend (S fuel) children target itemIndex targetIndex itemRows targetRows heap
  = if decide (targetIndex < targetRows)%nat then
      targetChild ← child target targetIndex;
      let '(copy, heap) := clone targetChild heap in
      let children := appendRow copy children in
      appended ← children !! itemIndex;
      '(appended, heap) ←
        moveItemToTarget_run fuel appended targetChild heap;
      moveAppend fuel (<[ itemIndex := appended ]> children) target
                 (itemIndex + 1) (targetIndex + 1) (itemRows + 1) targetRows heap
    else
      moveRemove fuel children itemIndex itemRows heap.
Proof. reflexivity. Qed.

(** *** The equations of the index-free functions *)

Lemma moveRows_nil recurse children heap :
  moveRows recurse [] children heap = ([], heap).
Proof. reflexivity. Qed.

Lemma moveRows_cons_nil recurse targetChild targets heap :
  moveRows recurse (targetChild :: targets) [] heap
  = let '(copy, heap) := clone targetChild heap in
    let '(copy, heap) := recurse copy targetChild heap in
    let '(rest, heap) := moveRows recurse targets [] heap in
    (copy :: rest, heap).
Proof. reflexivity. Qed.

Lemma moveRows_cons_cons recurse targetChild targets itemChild children heap :
  moveRows recurse (targetChild :: targets) (itemChild :: children) heap
  = let itemInf := symbolInformationFromItem itemChild in
    let targetInf := symbolInformationFromItem targetChild in
    if lessThan itemInf targetInf then
      moveRows recurse (targetChild :: targets) children heap
    else if decide (itemInf = targetInf) then
      let '(itemChild, heap) := recurse itemChild targetChild heap in
      let '(rest, heap) := moveRows recurse targets children heap in
      (itemChild :: rest, heap)
    else
      let '(copy, heap) := clone targetChild heap in
      let '(copy, heap) := recurse copy targetChild heap in
      let '(rest, heap) :=
        moveRows recurse targets (itemChild :: children) heap in
      (copy :: rest, heap).
Proof. reflexivity. Qed.

Lemma moveTree_unfold target item heap :
  moveTree target item heap
  = let '(children, heap) :=
      moveRows moveChild (rows target) (rows item) heap in
    (mkItem (address item) (values item) children, heap).
Proof. destruct target. reflexivity. Qed.

Lemma fetchRows_nil children heap :
  fetchRows [] children heap = (children, heap).
Proof. reflexivity. Qed.

Lemma fetchRows_cons_nil targetChild targets heap :
  fetchRows (targetChild :: targets) [] heap
  = let '(copy, heap) := clone targetChild heap in
    let '(rest, heap) := fetchRows targets [] heap in
    (copy :: rest, heap).
Proof. reflexivity. Qed.

Lemma fetchRows_cons_cons targetChild targets itemChild children heap :
  fetchRows (targetChild :: targets) (itemChild :: children) heap
  = let itemInf := symbolInformationFromItem itemChild in
    let targetInf := symbolInformationFromItem targetChild in
    if lessThan itemInf targetInf then
      let '(rest, heap) :=
        fetchRows (targetChild :: targets) children heap in
      (itemChild :: rest, heap)
    else if decide (itemInf = targetInf) then
      let '(rest, heap) := fetchRows targets children heap in
      (itemChild :: rest, heap)
    else
      let '(copy, heap) := clone targetChild heap in
      let '(rest, heap) :=
        fetchRows targets (itemChild :: children) heap in
      (copy :: rest, heap).
Proof. reflexivity. Qed.

(** *** Sizes *)

Lemma itemSize_unfold item : itemSize item = S (rowsSize (rows item)).
Proof. by destruct item. Qed.

Lemma rowsSize_cons item children :
  rowsSize (item :: children) = (itemSize item + rowsSize children)%nat.
Proof. reflexivity. Qed.

Lemma rowsSize_length children : (length children <= rowsSize children)%nat.
Proof.
  induction children as [|c children IH]; [done|].
  rewrite rowsSize_cons, (itemSize_unfold c). simpl. lia.
Qed.

(** *** The loops compute the index-free functions *)

Lemma moveRemove_enough fuel done rest children itemIndex itemRows heap :
  children = done ++ rest ->
  itemIndex = length done ->
  itemRows = length children ->
  (length rest < fuel)%nat ->
  moveRemove fuel children itemIndex itemRows heap = Some (done, heap).
Proof.
  revert rest children itemRows.
  induction fuel as [|fuel IH]; intros rest children itemRows -> -> -> Hfuel;
    [lia|].
  simpl. destruct rest as [|c rest].
  - rewrite app_nil_r. by rewrite decide_False by lia.
  - rewrite decide_True by (rewrite length_app; simpl; lia).
    unfold removeRow. rewrite delete_middle.
    apply (IH rest); try done.
    + rewrite !length_app. simpl. lia.
    + simpl in Hfuel. lia.
Qed.

Lemma move_loops_enough fuel :
  (forall item target heap,
      (moveFuel item target <= fuel)%nat ->
      moveItemToTarget_run fuel item target heap
      = Some (moveTree target item heap))
  /\ (forall target done rest tdone targets heap children
             itemIndex targetIndex itemRows targetRows,
        rows target = tdone ++ targets ->
        children = done ++ rest ->
        itemIndex = length done ->
        targetIndex = length tdone ->
        itemRows = length children ->
        targetRows = rowCount target ->
        (3 * (rowsSize rest + rowsSize targets) + 5 <= fuel)%nat ->
        moveLoop fuel children target itemIndex targetIndex itemRows targetRows heap
        = Some (settled done (moveRows moveChild targets rest heap)))
  /\ (forall target done rest tdone targets heap children
             itemIndex targetIndex itemRows targetRows,
        rows target = tdone ++ targets ->
        children = done ++ rest ->
        itemIndex = length done ->
        targetIndex = length tdone ->
        itemRows = length children ->
        targetRows = rowCount target ->
        targets = [] \/ rest = [] ->
        (3 * (rowsSize rest + rowsSize targets) + 4 <= fuel)%nat ->
        moveAppend fuel children target itemIndex targetIndex itemRows targetRows heap
        = Some (settled done (moveRows moveChild targets rest heap))).
Proof.
  induction fuel as [|fuel (IHrun & IHloop & IHappend)].
  { split; [|split]; intros; try lia.
    unfold moveFuel in *. rewrite (itemSize_unfold item) in *. lia. }
  split; [|split].
  - (* the call *)
    intros item target heap Hfuel.
    unfold moveFuel in Hfuel.
    rewrite (itemSize_unfold item), (itemSize_unfold target) in Hfuel.
    rewrite moveItemToTarget_run_S.
    rewrite (IHloop target [] (rows item) [] (rows target) heap); try done;
      [|lia].
    rewrite moveTree_unfold. unfold settled. simpl.
    by destruct (moveRows moveChild (rows target) (rows item) heap).
  - (* the main loop *)
    intros target done rest tdone targets heap children itemIndex targetIndex
           itemRows targetRows Htarget -> -> -> -> -> Hfuel.
    rewrite moveLoop_S. unfold rowCount. rewrite Htarget.
    destruct targets as [|targetChild targets].
    { rewrite decide_False by (rewrite !length_app; simpl; lia).
      apply (IHappend target done rest tdone []); try done.
      - unfold rowCount. by rewrite Htarget.
      - by left.
      - lia. }
    destruct rest as [|itemChild rest].
    { rewrite decide_False by (rewrite !length_app; simpl; lia).
      apply (IHappend target done [] tdone (targetChild :: targets)); try done.
      - unfold rowCount. by rewrite Htarget.
      - by right.
      - lia. }
    rewrite decide_True by (rewrite !length_app; simpl; lia).
    rewrite list_lookup_middle by done.
    unfold child. rewrite Htarget, list_lookup_middle by done. simpl.
    rewrite moveRows_cons_cons. simpl.
    rewrite !rowsSize_cons in Hfuel.
    pose proof (itemSize_unfold itemChild) as HsizeI.
    pose proof (itemSize_unfold targetChild) as HsizeT.
    destruct (lessThan _ _).
    + (* the row of the item is removed *)
      unfold removeRow. rewrite delete_middle.
      apply (IHloop target done rest tdone (targetChild :: targets)); try done.
      * rewrite !length_app. simpl. lia.
      * unfold rowCount. by rewrite Htarget.
      * rewrite rowsSize_cons. lia.
    + destruct (decide _) as [Heq|Hne].
      * (* the same symbol: recurse into the row *)
        rewrite IHrun by (unfold moveFuel; lia). simpl.
        fold (moveChild itemChild targetChild heap).
        destruct (moveChild itemChild targetChild heap) as [itemChild' heap'].
        rewrite (insert_app_r_alt done) by lia.
        rewrite Nat.sub_diag. simpl.
        rewrite (IHloop target (done ++ [itemChild']) rest
                        (tdone ++ [targetChild]) targets heap').
        -- unfold settled.
           destruct (moveRows moveChild targets rest heap'). simpl.
           by rewrite <- app_assoc.
        -- by rewrite <- app_assoc.
        -- by rewrite <- app_assoc.
        -- rewrite length_app. simpl. lia.
        -- rewrite length_app. simpl. lia.
        -- rewrite !length_app. simpl. lia.
        -- unfold rowCount. by rewrite Htarget.
        -- lia.
      * (* a copy of the target row is inserted *)
        unfold clone, insertRow.
        rewrite decide_True by (rewrite length_app; lia).
        rewrite take_app_length, drop_app_length.
        rewrite list_lookup_middle by done. simpl.
        rewrite IHrun by (unfold moveFuel; simpl; lia). simpl.
        fold (moveChild (mkItem heap (values targetChild) []) targetChild
                        (N.succ heap)).
        destruct (moveChild _ targetChild (N.succ heap)) as [copy heap'].
        rewrite (insert_app_r_alt done) by lia.
        rewrite Nat.sub_diag. simpl.
        rewrite (IHloop target (done ++ [copy]) (itemChild :: rest)
                        (tdone ++ [targetChild]) targets heap').
        -- unfold settled.
           destruct (moveRows moveChild targets (itemChild :: rest) heap').
           simpl. by rewrite <- app_assoc.
        -- by rewrite <- app_assoc.
        -- by rewrite <- app_assoc.
        -- rewrite length_app. simpl. lia.
        -- rewrite length_app. simpl. lia.
        -- rewrite !length_app. simpl. lia.
        -- unfold rowCount. by rewrite Htarget.
        -- rewrite rowsSize_cons. lia.
  - (* the append loop *)
    intros target done rest tdone targets heap children itemIndex targetIndex
           itemRows targetRows Htarget -> -> -> -> -> Hcases Hfuel.
    rewrite moveAppend_S. unfold rowCount. rewrite Htarget.
    destruct targets as [|targetChild targets].
    { rewrite decide_False by (rewrite !length_app; simpl; lia).
      rewrite moveRows_nil. unfold settled. simpl. rewrite app_nil_r.
      apply (moveRemove_enough fuel done rest); try done.
      pose proof (rowsSize_length rest). lia. }
    destruct Hcases as [?| ->]; [done|].
    rewrite decide_True by (rewrite !length_app; simpl; lia).
    unfold child. rewrite Htarget, list_lookup_middle by done. simpl.
    rewrite moveRows_cons_nil.
    rewrite !rowsSize_cons in Hfuel.
    pose proof (itemSize_unfold targetChild) as HsizeT.
    unfold clone, appendRow. rewrite app_nil_r.
    rewrite list_lookup_middle by done. simpl.
    rewrite IHrun by (unfold moveFuel; simpl; lia). simpl.
    fold (moveChild (mkItem heap (values targetChild) []) targetChild
                    (N.succ heap)).
    destruct (moveChild _ targetChild (N.succ heap)) as [copy heap'].
    rewrite (insert_app_r_alt done) by lia.
    rewrite Nat.sub_diag. simpl.
    rewrite (IHappend target (done ++ [copy]) [] (tdone ++ [targetChild])
                      targets heap').
    + unfold settled. destruct (moveRows moveChild targets [] heap').
      simpl. by rewrite <- app_assoc.
    + by rewrite <- app_assoc.
    + by rewrite app_nil_r.
    + rewrite length_app. simpl. lia.
    + rewrite length_app. simpl. lia.
    + rewrite !length_app. simpl. lia.
    + unfold rowCount. by rewrite Htarget.
    + by right.
    + lia.
Qed.

Lemma moveItemToTarget_run_enough fuel item target heap :
  (moveFuel item target <= fuel)%nat ->
  moveItemToTarget_run fuel item target heap = Some (moveTree target item heap).
Proof. apply move_loops_enough. Qed.

Lemma moveItemToTarget_moveTree item target heap :
  moveItemToTarget item target heap = moveTree target item heap.
Proof.
  unfold moveItemToTarget. by rewrite moveItemToTarget_run_enough.
Qed.

(** C5: [moveItemToTarget] terminates on every pair of trees, sorted or
    not: a run with [moveFuel item target] units of fuel, or more, is not
    cut off and returns, and what it returns is [moveTree], a function
    defined by recursion on the target tree. *)
Theorem moveItemToTarget_terminates item target heap :
  (forall fuel, (moveFuel item target <= fuel)%nat ->
     moveItemToTarget_run fuel item target heap
     = Some (moveTree target item heap))
  /\ moveItemToTarget_run (moveFuel item target) item target heap
     = Some (moveItemToTarget item target heap).
Proof.
  split.
  - intros fuel Hfuel. by apply moveItemToTarget_run_enough.
  - rewrite moveItemToTarget_moveTree. by apply moveItemToTarget_run_enough.
Qed.

Lemma fetchLoop_S fuel children target itemIndex targetIndex itemRows
    targetRows heap :
  fetchLoop (S fuel) children target itemIndex targetIndex itemRows targetRows heap
  = if decide (itemIndex < itemRows ∧ targetIndex < targetRows)%nat then
      itemChild ← children !! itemIndex;
      targetChild ← child target targetIndex;
      let itemInf := symbolInformationFromItem itemChild in
      let targetInf := symbolInformationFromItem targetChild in
      if lessThan itemInf targetInf then
        fetchLoop fuel children target
                  (itemIndex + 1) targetIndex itemRows targetRows heap
      else if decide (itemInf = targetInf) then
        fetchLoop fuel children target
                  (itemIndex + 1) (targetIndex + 1) itemRows targetRows heap
      else
        let '(copy, heap) := clone targetChild heap in
        fetchLoop fuel (insertRow itemIndex copy children) target
                  (itemIndex + 1) (targetIndex + 1) (itemRows + 1) targetRows heap
    else
      fetchAppend fuel children target targetIndex targetRows heap.
Proof. reflexivity. Qed.

Lemma fetchAppend_enough fuel target tdone targets children targetIndex
    targetRows heap :
  rows target = tdone ++ targets ->
  targetIndex = length tdone ->
  targetRows = rowCount target ->
  (length targets < fuel)%nat ->
  fetchAppend fuel children target targetIndex targetRows heap
  = Some (settled children (fetchRows targets [] heap)).
Proof.
  revert tdone targets children targetIndex heap.
  induction fuel as [|fuel IH];
    intros tdone targets children targetIndex heap Htarget -> -> Hfuel; [lia|].
  simpl.
  destruct targets as [|targetChild targets].
  - rewrite decide_False
      by (unfold rowCount; rewrite Htarget, !length_app; simpl; lia).
    rewrite fetchRows_nil. unfold settled. simpl. by rewrite app_nil_r.
  - rewrite decide_True
      by (unfold rowCount; rewrite Htarget, !length_app; simpl; lia).
    unfold child. rewrite Htarget, list_lookup_middle by done. simpl.
    rewrite fetchRows_cons_nil. unfold clone, appendRow.
    rewrite (IH (tdone ++ [targetChild]) targets).
    + unfold settled. destruct (fetchRows targets [] (N.succ heap)).
      simpl. by rewrite <- app_assoc.
    + by rewrite <- app_assoc.
    + rewrite length_app. simpl. lia.
    + done.
    + simpl in Hfuel. lia.
Qed.

Lemma fetchLoop_enough fuel target done rest tdone targets heap children
    itemIndex targetIndex itemRows targetRows :
  rows target = tdone ++ targets ->
  children = done ++ rest ->
  itemIndex = length done ->
  targetIndex = length tdone ->
  itemRows = length children ->
  targetRows = rowCount target ->
  (length rest + length targets + 2 <= fuel)%nat ->
  fetchLoop fuel children target itemIndex targetIndex itemRows targetRows heap
  = Some (settled done (fetchRows targets rest heap)).
Proof.
  revert done rest tdone targets heap children itemIndex targetIndex itemRows.
  induction fuel as [|fuel IH];
    intros done rest tdone targets heap children itemIndex targetIndex
           itemRows Htarget -> -> -> -> -> Hfuel; [lia|].
  rewrite fetchLoop_S.
  destruct targets as [|targetChild targets].
  { rewrite decide_False
      by (unfold rowCount; rewrite Htarget, !length_app; simpl; lia).
    rewrite (fetchAppend_enough fuel target tdone []); try done.
    - rewrite !fetchRows_nil. unfold settled. simpl. by rewrite app_nil_r.
    - simpl. lia. }
  destruct rest as [|itemChild rest].
  { rewrite decide_False
      by (unfold rowCount; rewrite Htarget, !length_app; simpl; lia).
    rewrite (fetchAppend_enough fuel target tdone (targetChild :: targets));
      try done.
    - by rewrite app_nil_r.
    - simpl in *. lia. }
  rewrite decide_True
    by (unfold rowCount; rewrite Htarget, !length_app; simpl; lia).
  rewrite list_lookup_middle by done.
  unfold child. rewrite Htarget, list_lookup_middle by done. simpl.
  rewrite fetchRows_cons_cons. simpl. simpl in Hfuel.
  destruct (lessThan _ _).
  - rewrite (IH (done ++ [itemChild]) rest tdone (targetChild :: targets))
      by list_side.
    unfold settled.
    destruct (fetchRows (targetChild :: targets) rest heap). simpl.
    by rewrite <- app_assoc.
  - destruct (decide _) as [Heq|Hne].
    + rewrite (IH (done ++ [itemChild]) rest (tdone ++ [targetChild]) targets)
        by list_side.
      unfold settled. destruct (fetchRows targets rest heap). simpl.
      by rewrite <- app_assoc.
    + unfold clone, insertRow.
      rewrite decide_True by (rewrite length_app; lia).
      rewrite take_app_length, drop_app_length.
      rewrite (IH (done ++ [mkItem heap (values targetChild) []])
                  (itemChild :: rest) (tdone ++ [targetChild]) targets)
        by list_side.
      unfold settled.
      destruct (fetchRows targets (itemChild :: rest) (N.succ heap)).
      simpl. by rewrite <- app_assoc.
Qed.

Lemma fetchItemToTarget_run_enough fuel item target heap :
  (fetchFuel item target <= fuel)%nat ->
  fetchItemToTarget_run fuel item target heap
  = Some (let '(children, heap) := fetchRows (rows target) (rows item) heap in
          (mkItem (address item) (values item) children, heap)).
Proof.
  intros Hfuel. unfold fetchItemToTarget_run, fetchFuel, rowCount in *.
  rewrite (fetchLoop_enough fuel target [] (rows item) [] (rows target));
    try done; [|lia].
  unfold settled. simpl.
  by destruct (fetchRows (rows target) (rows item) heap).
Qed.

Lemma fetchItemToTarget_fetchRows item target heap :
  fetchItemToTarget item target heap
  = let '(children, heap) := fetchRows (rows target) (rows item) heap in
    (mkItem (address item) (values item) children, heap).
Proof.
  unfold fetchItemToTarget. by rewrite fetchItemToTarget_run_enough.
Qed.

(** *** Induction along the comparisons of the two loops *)

Lemma reconcile_ind (P : list QStandardItem -> list QStandardItem -> Prop) :
  (forall children, P [] children) ->
  (forall targetChild targets,
      P targets [] -> P (targetChild :: targets) []) ->
  (forall targetChild targets itemChild children,
      lessThan (symbolInformationFromItem itemChild)
               (symbolInformationFromItem targetChild) = true ->
      P (targetChild :: targets) children ->
      P (targetChild :: targets) (itemChild :: children)) ->
  (forall targetChild targets itemChild children,
      lessThan (symbolInformationFromItem itemChild)
               (symbolInformationFromItem targetChild) = false ->
      symbolInformationFromItem itemChild
      = symbolInformationFromItem targetChild ->
      P targets children ->
      P (targetChild :: targets) (itemChild :: children)) ->
  (forall targetChild targets itemChild children,
      lessThan (symbolInformationFromItem itemChild)
               (symbolInformationFromItem targetChild) = false ->
      symbolInformationFromItem itemChild
      <> symbolInformationFromItem targetChild ->
      P targets (itemChild :: children) ->
      P (targetChild :: targets) (itemChild :: children)) ->
  forall targets children, P targets children.
Proof.
  intros Hnil Hend Hless Hsame Hother.
  induction targets as [|targetChild targets IHtargets]; [exact Hnil|].
  induction children as [|itemChild children IHchildren].
  - apply Hend, IHtargets.
  - destruct (lessThan (symbolInformationFromItem itemChild)
                       (symbolInformationFromItem targetChild)) eqn:Hlt.
    + by apply Hless.
    + destruct (decide (symbolInformationFromItem itemChild
                        = symbolInformationFromItem targetChild)).
      * by apply Hsame.
      * by apply Hother.
Qed.

(** *** Symbol information and data *)

Lemma symbolInformationFromItem_values item item' :
  values item = values item' ->
  symbolInformationFromItem item = symbolInformationFromItem item'.
Proof.
  intros Hvalues. unfold symbolInformationFromItem, data.
  by rewrite Hvalues.
Qed.

Lemma symbolTree_unfold item :
  symbolTree item
  = SymbolNode (symbolInformationFromItem item) (childTrees item).
Proof. by destruct item. Qed.

Lemma symbolTree_eq item item' :
  values item = values item' ->
  childTrees item = childTrees item' ->
  symbolTree item = symbolTree item'.
Proof.
  intros Hvalues Htrees. rewrite !symbolTree_unfold, Htrees.
  by rewrite (symbolInformationFromItem_values item item').
Qed.

Lemma childInfos_childTrees item :
  childInfos item = map rootInfo (childTrees item).
Proof.
  unfold childInfos, childTrees. rewrite map_map.
  apply map_ext. intros c. by rewrite symbolTree_unfold.
Qed.

(** The call changes the rows of the item it is given and leaves its
    address and its data alone. *)
Lemma moveTree_address_values target item heap :
  address (moveTree target item heap).1 = address item
  /\ values (moveTree target item heap).1 = values item.
Proof.
  rewrite moveTree_unfold.
  by destruct (moveRows moveChild (rows target) (rows item) heap).
Qed.

Lemma moveTree_rows target item heap :
  rows (moveTree target item heap).1
  = (moveRows moveChild (rows target) (rows item) heap).1.
Proof.
  rewrite moveTree_unfold.
  by destruct (moveRows moveChild (rows target) (rows item) heap).
Qed.

(** *** The item converges to the target *)

Lemma moveRows_trees recurse targets :
  Forall (fun targetChild => forall itemChild heap,
            values (recurse itemChild targetChild heap).1 = values itemChild
            /\ childTrees (recurse itemChild targetChild heap).1
               = childTrees targetChild) targets ->
  forall children heap,
    map symbolTree (moveRows recurse targets children heap).1
    = map symbolTree targets.
Proof.
  intros Hrec children. revert Hrec.
  apply (reconcile_ind (fun targets children =>
    Forall _ targets -> forall heap,
      map symbolTree (moveRows recurse targets children heap).1
      = map symbolTree targets)); clear targets children.
  - intros children _ heap. by rewrite moveRows_nil.
  - intros targetChild targets IH [Hchild Hrec]%Forall_cons heap.
    rewrite moveRows_cons_nil. unfold clone.
    destruct (Hchild (mkItem heap (values targetChild) []) (N.succ heap))
      as [Hvalues Htrees].
    destruct (recurse _ targetChild (N.succ heap)) as [copy heap1].
    specialize (IH Hrec heap1).
    destruct (moveRows recurse targets [] heap1) as [rest heap2].
    simpl in *. rewrite IH. f_equal.
    by apply symbolTree_eq.
  - intros targetChild targets itemChild children Hlt IH Hrec heap.
    rewrite moveRows_cons_cons. simpl. rewrite Hlt. by apply IH.
  - intros targetChild targets itemChild children Hlt Hsame IH
           [Hchild Hrec]%Forall_cons heap.
    rewrite moveRows_cons_cons. simpl. rewrite Hlt.
    rewrite decide_True by done.
    destruct (Hchild itemChild heap) as [Hvalues Htrees].
    destruct (recurse itemChild targetChild heap) as [itemChild' heap1].
    specialize (IH Hrec heap1).
    destruct (moveRows recurse targets children heap1) as [rest heap2].
    simpl in *. rewrite IH. f_equal.
    rewrite !symbolTree_unfold, Htrees. f_equal.
    rewrite <- Hsame. by apply symbolInformationFromItem_values.
  - intros targetChild targets itemChild children Hlt Hother IH
           [Hchild Hrec]%Forall_cons heap.
    rewrite moveRows_cons_cons. simpl. rewrite Hlt.
    rewrite decide_False by done. unfold clone.
    destruct (Hchild (mkItem heap (values targetChild) []) (N.succ heap))
      as [Hvalues Htrees].
    destruct (recurse _ targetChild (N.succ heap)) as [copy heap1].
    specialize (IH Hrec heap1).
    destruct (moveRows recurse targets (itemChild :: children) heap1)
      as [rest heap2].
    simpl in *. rewrite IH. f_equal.
    by apply symbolTree_eq.
Qed.

(** After the call the symbol informations below the item are those
    below the target, whatever the two trees were. *)
Lemma moveTree_childTrees target :
  forall item heap,
    childTrees (moveTree target item heap).1 = childTrees target.
Proof.
  induction target as [a v targets IH] using QStandardItem_rows_ind.
  intros item heap. unfold childTrees at 1.
  rewrite moveTree_rows. simpl.
  apply moveRows_trees.
  eapply Forall_impl; [exact IH|].
  intros targetChild Hchild itemChild heap'. unfold moveChild. split.
  - apply moveTree_address_values.
  - apply Hchild.
Qed.

Lemma cloneTree_symbolTree target :
  forall heap, symbolTree (cloneTree target heap).1 = symbolTree target.
Proof.
  induction target as [a v targets IH] using QStandardItem_rows_ind.
  intros heap. simpl.
  generalize (N.succ heap) as heap1.
  assert (Hrows : forall heap1,
             map symbolTree (cloneRows cloneTree targets heap1).1
             = map symbolTree targets).
  { induction IH as [|targetChild targets Hchild _ IHrows]; intros heap1;
      [done|].
    simpl. specialize (Hchild heap1).
    destruct (cloneTree targetChild heap1) as [copy heap2].
    specialize (IHrows heap2).
    destruct (cloneRows cloneTree targets heap2) as [rest heap3].
    simpl in *. by rewrite Hchild, IHrows. }
  intros heap1. specialize (Hrows heap1).
  destruct (cloneRows cloneTree targets heap1) as [children heap2].
  simpl in *. by rewrite Hrows.
Qed.

Lemma rebuild_childTrees item target heap :
  childTrees (rebuild item target heap).1 = childTrees target
  /\ values (rebuild item target heap).1 = values item.
Proof.
  unfold rebuild.
  assert (Hrows : forall targets heap1,
             map symbolTree (cloneRows cloneTree targets heap1).1
             = map symbolTree targets).
  { induction targets as [|targetChild targets IHrows]; intros heap1; [done|].
    simpl. pose proof (cloneTree_symbolTree targetChild heap1) as Hchild.
    destruct (cloneTree targetChild heap1) as [copy heap2].
    specialize (IHrows heap2).
    destruct (cloneRows cloneTree targets heap2) as [rest heap3].
    simpl in *. by rewrite Hchild, IHrows. }
  specialize (Hrows (rows target) heap).
  by destruct (cloneRows cloneTree (rows target) heap).
Qed.

(** C1: for trees whose child lists are strictly sorted at every node,
    after [moveItemToTarget] the item carries, below its root, the symbol
    informations of the target, node for node and level by level; the whole
    tree is the one a full rebuild gives, which drops the children of the
    item and copies the target's. *)
Theorem moveItemToTarget_converges item target heap :
  sortedTree item = true ->
  sortedTree target = true ->
  childTrees (moveItemToTarget item target heap).1 = childTrees target
  /\ symbolTree (moveItemToTarget item target heap).1
     = symbolTree (rebuild item target heap).1.
Proof.
  intros _ _. rewrite moveItemToTarget_moveTree.
  pose proof (moveTree_childTrees target item heap) as Htrees.
  destruct (rebuild_childTrees item target heap) as [Hrebuilt Hvalues].
  split; [exact Htrees|].
  apply symbolTree_eq.
  - rewrite Hvalues. apply moveTree_address_values.
  - by rewrite Htrees, Hrebuilt.
Qed.
End Reconcile.

(** ** Sorted child lists *)

Section Sorted.
Context `{Declarations}.

Implicit Types (item target : QStandardItem) (heap : N).
Implicit Types (children targets : list QStandardItem).
Implicit Types (infos : list SymbolInformation).

#[local] Arguments moveRows : simpl never.
#[local] Arguments moveTree : simpl never.
#[local] Arguments fetchRows : simpl never.

(** [operator<] is a strict order on symbol informations.  It need not
    order every two of them: [ordered infos infos'] says that it orders each
    symbol information of the one list against each of the other that it
    does not equal. *)
Hypothesis lessThan_irrefl : forall a, lessThan a a = false.
Hypothesis lessThan_trans :
  forall a b c, lessThan a b = true -> lessThan b c = true -> lessThan a c = true.

Local Abbreviation infosOf := (map symbolInformationFromItem).

Local Abbreviation ordered infos infos' :=
  (forall a b, a ∈ infos -> b ∈ infos' ->
               lessThan a b = false -> lessThan b a = false -> a = b).

Lemma lessThan_ne a b : lessThan a b = true -> a <> b.
Proof using lessThan_irrefl.
  intros Hlt ->. rewrite lessThan_irrefl in Hlt. done.
Qed.

Lemma sortedInfos_tail a infos :
  sortedInfos (a :: infos) = true -> sortedInfos infos = true.
Proof.
  destruct infos as [|b infos]; [done|]. simpl.
  by intros [_ ?]%andb_true_iff.
Qed.

(** In a sorted list every element is less than all the later ones. *)
Lemma sortedInfos_cons a infos :
  sortedInfos (a :: infos) = true <->
  Forall (fun b => lessThan a b = true) infos /\ sortedInfos infos = true.
Proof using lessThan_trans.
  revert a. induction infos as [|b infos IH]; intros a.
  - simpl. split; [by split | done].
  - change (sortedInfos (a :: b :: infos))
      with (lessThan a b && sortedInfos (b :: infos)).
    rewrite andb_true_iff. split.
    + intros [Hab Hsorted]. split; [|done].
      constructor; [done|].
      apply IH in Hsorted as [Hb _].
      eapply Forall_impl; [exact Hb|]. intros c Hbc. by eapply lessThan_trans.
    + intros [[Hab _]%Forall_cons Hsorted]. done.
Qed.

Lemma sortedTree_childInfos item :
  sortedTree item = true -> sortedInfos (childInfos item) = true.
Proof.
  unfold sortedTree. rewrite symbolTree_unfold. simpl.
  rewrite <- childInfos_childTrees. by intros [? _]%andb_true_iff.
Qed.

Lemma sortedTree_unfold item :
  sortedTree item
  = sortedInfos (childInfos item) && forallb sortedTree (rows item).
Proof.
  unfold sortedTree at 1. rewrite symbolTree_unfold. simpl.
  rewrite <- childInfos_childTrees. f_equal.
  unfold childTrees. generalize (rows item) as children.
  induction children as [|c children IH]; [done|]. simpl. by rewrite IH.
Qed.

Lemma sortedTree_childTrees item item' :
  childTrees item = childTrees item' -> sortedTree item = sortedTree item'.
Proof.
  intros Htrees. unfold sortedTree. rewrite !symbolTree_unfold. simpl.
  by rewrite Htrees.
Qed.

(** Two rows of a sorted child list with the same symbol information are
    the same row. *)
Lemma sorted_same_info children a b :
  sortedInfos (infosOf children) = true ->
  a ∈ children -> b ∈ children ->
  symbolInformationFromItem a = symbolInformationFromItem b ->
  a = b.
Proof using lessThan_irrefl lessThan_trans.
  induction children as [|c children IH]; intros Hsorted Ha Hb Hinfo.
  - by apply not_elem_of_nil in Ha.
  - simpl in Hsorted. apply sortedInfos_cons in Hsorted as [Hc Hsorted].
    rewrite Forall_forall in Hc.
    assert (Hlater : forall x, x ∈ children ->
               symbolInformationFromItem c <> symbolInformationFromItem x).
    { intros x Hx. apply lessThan_ne, Hc.
      by apply list_elem_of_In, in_map, list_elem_of_In. }
    apply elem_of_cons in Ha as [-> | Ha]; apply elem_of_cons in Hb as [-> | Hb].
    + done.
    + by apply Hlater in Hb.
    + symmetry in Hinfo. by apply Hlater in Ha.
    + by apply IH.
Qed.

(** *** Addresses *)

(** The allocator only moves forward. *)
Lemma moveRows_heap recurse targets children :
  (forall itemChild targetChild heap,
      (heap <= (recurse itemChild targetChild heap).2)%N) ->
  forall heap, (heap <= (moveRows recurse targets children heap).2)%N.
Proof.
  intros Hrec.
  apply (reconcile_ind (fun targets children =>
    forall heap, (heap <= (moveRows recurse targets children heap).2)%N));
    clear targets children.
  - intros children heap. rewrite moveRows_nil. simpl. lia.
  - intros targetChild targets IH heap.
    rewrite moveRows_cons_nil. unfold clone.
    pose proof (Hrec (mkItem heap (values targetChild) []) targetChild
                     (N.succ heap)) as Hcopy.
    destruct (recurse _ targetChild (N.succ heap)) as [copy heap1].
    specialize (IH heap1).
    destruct (moveRows recurse targets [] heap1) as [rest heap2].
    simpl in *. lia.
  - intros targetChild targets itemChild children Hlt IH heap.
    rewrite moveRows_cons_cons. simpl. rewrite Hlt. apply IH.
  - intros targetChild targets itemChild children Hlt Hsame IH heap.
    rewrite moveRows_cons_cons. simpl. rewrite Hlt.
    rewrite decide_True by done.
    pose proof (Hrec itemChild targetChild heap) as Hchild.
    destruct (recurse itemChild targetChild heap) as [itemChild' heap1].
    specialize (IH heap1).
    destruct (moveRows recurse targets children heap1) as [rest heap2].
    simpl in *. lia.
  - intros targetChild targets itemChild children Hlt Hother IH heap.
    rewrite moveRows_cons_cons. simpl. rewrite Hlt.
    rewrite decide_False by done. unfold clone.
    pose proof (Hrec (mkItem heap (values targetChild) []) targetChild
                     (N.succ heap)) as Hcopy.
    destruct (recurse _ targetChild (N.succ heap)) as [copy heap1].
    specialize (IH heap1).
    destruct (moveRows recurse targets (itemChild :: children) heap1)
      as [rest heap2].
    simpl in *. lia.
Qed.

Lemma moveTree_heap target :
  forall item heap, (heap <= (moveTree target item heap).2)%N.
Proof.
  induction target as [a v targets IH] using QStandardItem_rows_ind.
  intros item heap. rewrite moveTree_unfold. simpl.
  assert (Hrows : forall children heap,
             (heap <= (moveRows moveChild targets children heap).2)%N).
  { intros children. revert IH.
    apply (reconcile_ind (fun targets children =>
      Forall _ targets ->
      forall heap, (heap <= (moveRows moveChild targets children heap).2)%N));
      clear targets children.
    - intros children _ heap'. rewrite moveRows_nil. simpl. lia.
    - intros targetChild targets IH [Hchild Hrec]%Forall_cons heap'.
      rewrite moveRows_cons_nil. unfold clone, moveChild at 1.
      specialize (Hchild (mkItem heap' (values targetChild) []) (N.succ heap')).
      destruct (moveTree targetChild _ (N.succ heap')) as [copy heap1].
      specialize (IH Hrec heap1).
      destruct (moveRows moveChild targets [] heap1) as [rest heap2].
      simpl in *. lia.
    - intros targetChild targets itemChild children Hlt IH Hrec heap'.
      rewrite moveRows_cons_cons. simpl. rewrite Hlt. by apply IH.
    - intros targetChild targets itemChild children Hlt Hsame IH
             [Hchild Hrec]%Forall_cons heap'.
      rewrite moveRows_cons_cons. simpl. rewrite Hlt.
      rewrite decide_True by done. unfold moveChild at 1.
      specialize (Hchild itemChild heap').
      destruct (moveTree targetChild itemChild heap') as [itemChild' heap1].
      specialize (IH Hrec heap1).
      destruct (moveRows moveChild targets children heap1) as [rest heap2].
      simpl in *. lia.
    - intros targetChild targets itemChild children Hlt Hother IH
             [Hchild Hrec]%Forall_cons heap'.
      rewrite moveRows_cons_cons. simpl. rewrite Hlt.
      rewrite decide_False by done. unfold clone, moveChild at 1.
      specialize (Hchild (mkItem heap' (values targetChild) []) (N.succ heap')).
      destruct (moveTree targetChild _ (N.succ heap')) as [copy heap1].
      specialize (IH Hrec heap1).
      destruct (moveRows moveChild targets (itemChild :: children) heap1)
        as [rest heap2].
      simpl in *. lia. }
  specialize (Hrows (rows item) heap).
  by destruct (moveRows moveChild targets (rows item) heap).
Qed.

Lemma rowFor_weaken children children' targetChild heap heap' row :
  (forall itemChild, itemChild ∈ children -> itemChild ∈ children') ->
  (forall itemChild, itemChild ∈ children' ->
      itemChild ∈ children
      \/ symbolInformationFromItem itemChild
         <> symbolInformationFromItem targetChild) ->
  (heap' <= heap)%N ->
  rowFor children targetChild heap row ->
  rowFor children' targetChild heap' row.
Proof.
  intros Hsub Hnew Hheap [itemChild heap1 Hin Hinfo Hle | heap1 Hnone Hle].
  - apply rowFor_kept; [by apply Hsub | done | lia].
  - apply rowFor_copy; [|lia].
    intros itemChild Hin.
    destruct (Hnew itemChild Hin) as [Hold | Hne]; [by apply Hnone | done].
Qed.

Lemma moveRows_rowFor targets children :
  sortedInfos (infosOf targets) = true ->
  sortedInfos (infosOf children) = true ->
  forall heap k targetChild,
    targets !! k = Some targetChild ->
    exists row,
      (moveRows moveChild targets children heap).1 !! k = Some row
      /\ rowFor children targetChild heap row.
Proof using lessThan_irrefl lessThan_trans.
  apply (reconcile_ind (fun targets children =>
    sortedInfos (infosOf targets) = true ->
    sortedInfos (infosOf children) = true ->
    forall heap k targetChild,
      targets !! k = Some targetChild ->
      exists row,
        (moveRows moveChild targets children heap).1 !! k = Some row
        /\ rowFor children targetChild heap row));
    clear targets children.
  - intros children _ _ heap k targetChild Hk. by rewrite lookup_nil in Hk.
  - (* no rows of the item are left *)
    intros targetChild targets IH Htargets _ heap k target_k Hk.
    rewrite moveRows_cons_nil.
    pose proof (rowFor_copy [] targetChild heap heap) as Hcopy.
    pose proof (moveTree_heap targetChild (clone targetChild heap).1
                              (clone targetChild heap).2) as Hheap.
    fold (moveChild (clone targetChild heap).1 targetChild
                    (clone targetChild heap).2) in Hheap.
    unfold clone in *. simpl in *.
    destruct (moveChild _ targetChild (N.succ heap)) as [copy heap1].
    apply sortedInfos_tail in Htargets.
    specialize (IH Htargets eq_refl heap1).
    destruct (moveRows moveChild targets [] heap1) as [rest heap2].
    destruct k as [|k]; simpl in *.
    + injection Hk as <-. exists copy. split; [done|].
      apply Hcopy; [|lia]. intros itemChild Hin. by apply not_elem_of_nil in Hin.
    + destruct (IH k target_k Hk) as (row & Hrow & Hfor).
      exists row. split; [done|].
      eapply rowFor_weaken; [| | |exact Hfor]; [done | by left | lia].
  - (* the row of the item is less: it goes *)
    intros targetChild targets itemChild children Hlt IH Htargets Hchildren
           heap k target_k Hk.
    rewrite moveRows_cons_cons. simpl. rewrite Hlt.
    simpl in Hchildren. apply sortedInfos_tail in Hchildren as Htail.
    destruct (IH Htargets Htail heap k target_k Hk) as (row & Hrow & Hfor).
    exists row. split; [done|].
    eapply rowFor_weaken; [| | |exact Hfor]; [| |lia].
    + intros c Hc. by apply elem_of_cons; right.
    + intros c [-> | Hc]%elem_of_cons; [right | by left].
      apply lessThan_ne.
      simpl in Htargets. apply sortedInfos_cons in Htargets as [Hall _].
      rewrite Forall_forall in Hall.
      destruct k as [|k]; simpl in Hk.
      * by injection Hk as <-.
      * eapply lessThan_trans; [exact Hlt|]. apply Hall.
        apply list_elem_of_In, in_map, list_elem_of_In.
        by eapply list_elem_of_lookup_2.
  - (* the same symbol: the row of the item stays *)
    intros targetChild targets itemChild children Hlt Hsame IH Htargets
           Hchildren heap k target_k Hk.
    rewrite moveRows_cons_cons. simpl. rewrite Hlt.
    rewrite decide_True by done.
    pose proof (rowFor_kept (itemChild :: children) targetChild heap itemChild
                            heap) as Hkept.
    pose proof (moveTree_heap targetChild itemChild heap) as Hheap.
    fold (moveChild itemChild targetChild heap) in Hheap.
    destruct (moveChild itemChild targetChild heap) as [itemChild' heap1].
    simpl in Hchildren, Htargets.
    apply sortedInfos_tail in Hchildren as Htail.
    apply sortedInfos_tail in Htargets as Htargets'.
    specialize (IH Htargets' Htail heap1).
    destruct (moveRows moveChild targets children heap1) as [rest heap2].
    destruct k as [|k]; simpl in *.
    + injection Hk as <-. exists itemChild'. split; [done|].
      apply Hkept; [by apply elem_of_cons; left | done | lia].
    + destruct (IH k target_k Hk) as (row & Hrow & Hfor).
      exists row. split; [done|].
      eapply rowFor_weaken; [| | |exact Hfor]; [| |lia].
      * intros c Hc. by apply elem_of_cons; right.
      * intros c [-> | Hc]%elem_of_cons; [right | by left].
        rewrite Hsame. apply lessThan_ne.
        apply sortedInfos_cons in Htargets as [Hall _].
        rewrite Forall_forall in Hall. apply Hall.
        apply list_elem_of_In, in_map, list_elem_of_In.
        by eapply list_elem_of_lookup_2.
  - (* neither: a copy of the target row goes in front *)
    intros targetChild targets itemChild children Hlt Hother IH Htargets
           Hchildren heap k target_k Hk.
    rewrite moveRows_cons_cons. simpl. rewrite Hlt.
    rewrite decide_False by done.
    pose proof (rowFor_copy (itemChild :: children) targetChild heap heap)
      as Hcopy.
    pose proof (moveTree_heap targetChild (clone targetChild heap).1
                              (clone targetChild heap).2) as Hheap.
    fold (moveChild (clone targetChild heap).1 targetChild
                    (clone targetChild heap).2) in Hheap.
    unfold clone in *. simpl in Hcopy, Hheap. simpl.
    destruct (moveChild _ targetChild (N.succ heap)) as [copy heap1].
    simpl in Htargets.
    apply sortedInfos_tail in Htargets as Htargets'.
    specialize (IH Htargets' Hchildren heap1).
    destruct (moveRows moveChild targets (itemChild :: children) heap1)
      as [rest heap2].
    destruct k as [|k]; simpl in *.
    + injection Hk as <-. exists copy. split; [done|].
      apply Hcopy; [|lia].
      intros c [-> | Hc]%elem_of_cons; [done|].
      intros Hinfo.
      apply sortedInfos_cons in Hchildren as [Hall _].
      rewrite Forall_forall in Hall.
      assert (Hcontra : lessThan (symbolInformationFromItem itemChild)
                                 (symbolInformationFromItem c) = true).
      { apply Hall. by apply list_elem_of_In, in_map, list_elem_of_In. }
      rewrite Hinfo in Hcontra. congruence.
    + destruct (IH k target_k Hk) as (row & Hrow & Hfor).
      exists row. split; [done|].
      eapply rowFor_weaken; [| | |exact Hfor]; [done | by left | lia].
Qed.

Lemma moveItemToTarget_address_values item target heap :
  address (moveItemToTarget item target heap).1 = address item
  /\ values (moveItemToTarget item target heap).1 = values item.
Proof. rewrite moveItemToTarget_moveTree. apply moveTree_address_values. Qed.

Lemma moveItemToTarget_rowCount item target heap :
  rowCount (moveItemToTarget item target heap).1 = rowCount target.
Proof.
  rewrite moveItemToTarget_moveTree.
  pose proof (moveTree_childTrees target item heap) as Htrees.
  apply (f_equal length) in Htrees. unfold childTrees in Htrees.
  by rewrite !length_map in Htrees.
Qed.

Lemma address_inj children a b :
  NoDup (map address children) ->
  a ∈ children -> b ∈ children -> address a = address b -> a = b.
Proof.
  induction children as [|c children IH]; intros Hnodup Ha Hb Haddress.
  - by apply not_elem_of_nil in Ha.
  - simpl in Hnodup. apply NoDup_cons in Hnodup as [Hc Hnodup].
    assert (Hlater : forall x, x ∈ children -> address c <> address x).
    { intros x Hx Heq. apply Hc. rewrite Heq.
      by apply list_elem_of_In, in_map, list_elem_of_In. }
    apply elem_of_cons in Ha as [-> | Ha]; apply elem_of_cons in Hb as [-> | Hb].
    + done.
    + by apply Hlater in Hb.
    + symmetry in Haddress. by apply Hlater in Ha.
    + by apply IH.
Qed.

Lemma rowFor_address children targetChild heap row :
  rowFor children targetChild heap row ->
  (exists itemChild, itemChild ∈ children
      /\ symbolInformationFromItem itemChild
         = symbolInformationFromItem targetChild
      /\ address row = address itemChild /\ values row = values itemChild)
  \/ ((forall itemChild, itemChild ∈ children ->
          symbolInformationFromItem itemChild
          <> symbolInformationFromItem targetChild)
      /\ (heap <= address row)%N).
Proof.
  intros [itemChild heap' Hin Hinfo Hle | heap' Hnone Hle].
  - left. exists itemChild. repeat split; try done.
    all: apply moveTree_address_values.
  - right. split; [done|].
    unfold moveChild.
    destruct (moveTree_address_values targetChild (clone targetChild heap').1
                (clone targetChild heap').2) as [-> _].
    simpl. lia.
Qed.

(** C4: the tree is not rebuilt.  For sorted trees, a child of the item
    with the symbol information of a child of the target stays in the tree
    as the object it was, at the row of that target child, with its data
    untouched and its own rows reconciled by the recursive call; a child of
    the item is gone afterwards exactly when no child of the target has its
    symbol information; and the row of a target child holds a new object
    exactly when no child of the item has its symbol information.  Objects
    are told apart by address: the children of the item have different
    addresses, all below the next free address [heap]. *)
Theorem moveItemToTarget_keeps_matching item target heap :
  sortedTree item = true ->
  sortedTree target = true ->
  NoDup (map address (rows item)) ->
  Forall (fun itemChild => (address itemChild < heap)%N) (rows item) ->
  let result := (moveItemToTarget item target heap).1 in
  (forall k targetChild itemChild,
      rows target !! k = Some targetChild ->
      itemChild ∈ rows item ->
      symbolInformationFromItem itemChild
      = symbolInformationFromItem targetChild ->
      exists row heap',
        rows result !! k = Some row
        /\ row = (moveItemToTarget itemChild targetChild heap').1
        /\ address row = address itemChild
        /\ values row = values itemChild)
  /\ (forall itemChild,
        itemChild ∈ rows item ->
        address itemChild ∈ map address (rows result) <->
        exists targetChild,
          targetChild ∈ rows target
          /\ symbolInformationFromItem itemChild
             = symbolInformationFromItem targetChild)
  /\ (forall k targetChild,
        rows target !! k = Some targetChild ->
        (exists row, rows result !! k = Some row /\ (heap <= address row)%N) <->
        (forall itemChild, itemChild ∈ rows item ->
            symbolInformationFromItem itemChild
            <> symbolInformationFromItem targetChild)).
Proof using lessThan_irrefl lessThan_trans.
  intros Hitem%sortedTree_childInfos Htarget%sortedTree_childInfos
         Hnodup Hbelow result.
  rewrite Forall_forall in Hbelow.
  assert (Hrows : forall k targetChild,
             rows target !! k = Some targetChild ->
             exists row, rows result !! k = Some row
                         /\ rowFor (rows item) targetChild heap row).
  { intros k targetChild Hk. unfold result.
    rewrite moveItemToTarget_moveTree, moveTree_rows.
    by apply moveRows_rowFor. }
  assert (Hkept : forall k targetChild itemChild,
      rows target !! k = Some targetChild ->
      itemChild ∈ rows item ->
      symbolInformationFromItem itemChild
      = symbolInformationFromItem targetChild ->
      exists row heap',
        rows result !! k = Some row
        /\ row = (moveItemToTarget itemChild targetChild heap').1
        /\ address row = address itemChild
        /\ values row = values itemChild).
  { intros k targetChild itemChild Hk Hin Hinfo.
    destruct (Hrows k targetChild Hk) as (row & Hrow & Hfor).
    destruct Hfor as [itemChild' heap' Hin' Hinfo' Hle | heap' Hnone Hle].
    - assert (itemChild' = itemChild) as ->.
      { apply (sorted_same_info (rows item)); try done. congruence. }
      exists (moveChild itemChild targetChild heap').1, heap'.
      split; [done|]. split.
      + by rewrite moveItemToTarget_moveTree.
      + apply moveTree_address_values.
    - by apply Hnone in Hin. }
  split; [exact Hkept|]. split.
  - intros itemChild Hin. split.
    + intros Haddress.
      apply list_elem_of_In, in_map_iff in Haddress
        as (row & Haddress & Hrow%list_elem_of_In).
      apply list_elem_of_lookup in Hrow as [k Hrow].
      assert (Hk : (k < length (rows target))%nat).
      { apply lookup_lt_Some in Hrow. unfold result in Hrow.
        pose proof (moveItemToTarget_rowCount item target heap) as Hcount.
        unfold rowCount in Hcount. lia. }
      apply lookup_lt_is_Some in Hk as [targetChild Hk].
      exists targetChild. split; [by eapply list_elem_of_lookup_2|].
      destruct (Hrows k targetChild Hk) as (row' & Hrow' & Hfor).
      assert (row' = row) as -> by congruence.
      apply rowFor_address in Hfor
        as [(itemChild' & Hin' & Hinfo' & Haddress' & _) | [_ Hnew]].
      * assert (itemChild' = itemChild) as ->; [|done].
        apply (address_inj (rows item)); try done. congruence.
      * specialize (Hbelow itemChild Hin). simpl in Hbelow. lia.
    + intros (targetChild & [k Hk]%list_elem_of_lookup & Hinfo).
      destruct (Hkept k targetChild itemChild Hk Hin Hinfo)
        as (row & heap' & Hrow & _ & <- & _).
      apply list_elem_of_In, in_map, list_elem_of_In.
      by eapply list_elem_of_lookup_2.
  - intros k targetChild Hk.
    destruct (Hrows k targetChild Hk) as (row & Hrow & Hfor).
    apply rowFor_address in Hfor
      as [(itemChild' & Hin' & Hinfo' & Haddress' & _) | [Hnone Hnew]].
    + split.
      * intros (row' & Hrow' & Hfresh).
        assert (row' = row) as -> by congruence.
        specialize (Hbelow itemChild' Hin'). simpl in Hbelow. lia.
      * intros Hnone. by apply Hnone in Hin'.
    + split; [done|]. intros _. by exists row.
Qed.

(** *** Fetching *)

Lemma fetchRows_rows targets children :
  forall heap,
    sublist children (fetchRows targets children heap).1
    /\ Forall (fun row =>
                 row ∈ children
                 \/ (exists targetChild,
                        targetChild ∈ targets
                        /\ values row = values targetChild
                        /\ rows row = [] /\ (heap <= address row)%N))
              (fetchRows targets children heap).1
    /\ (heap <= (fetchRows targets children heap).2)%N.
Proof.
  apply (reconcile_ind (fun targets children =>
    forall heap,
      sublist children (fetchRows targets children heap).1
      /\ Forall (fun row =>
                   row ∈ children
                   \/ (exists targetChild,
                          targetChild ∈ targets
                          /\ values row = values targetChild
                          /\ rows row = [] /\ (heap <= address row)%N))
                (fetchRows targets children heap).1
      /\ (heap <= (fetchRows targets children heap).2)%N));
    clear targets children.
  - intros children heap. rewrite fetchRows_nil. simpl.
    split; [done|]. split; [|lia].
    apply Forall_forall. intros row Hrow. by left.
  - intros targetChild targets IH heap.
    rewrite fetchRows_cons_nil. unfold clone.
    destruct (IH (N.succ heap)) as (Hsub & Hall & Hheap).
    destruct (fetchRows targets [] (N.succ heap)) as [rest heap1].
    simpl in *. split; [apply sublist_nil_l|]. split; [|lia].
    constructor.
    + right. exists targetChild. simpl. repeat split; try done; try lia.
      by apply elem_of_cons; left.
    + eapply Forall_impl; [exact Hall|]. simpl.
      intros row [Hrow | (t & Ht & Hv & Hr & Ha)]; [by left | right].
      exists t. repeat split; try done; try lia.
      by apply elem_of_cons; right.
  - intros targetChild targets itemChild children Hlt IH heap.
    rewrite fetchRows_cons_cons. simpl. rewrite Hlt.
    destruct (IH heap) as (Hsub & Hall & Hheap).
    destruct (fetchRows (targetChild :: targets) children heap)
      as [rest heap1].
    simpl in *. split; [by apply sublist_skip|]. split; [|done].
    constructor; [left; by apply elem_of_cons; left|].
    eapply Forall_impl; [exact Hall|]. simpl.
    intros row [Hrow | Hcopy]; [left; by apply elem_of_cons; right | by right].
  - intros targetChild targets itemChild children Hlt Hsame IH heap.
    rewrite fetchRows_cons_cons. simpl. rewrite Hlt.
    rewrite decide_True by done.
    destruct (IH heap) as (Hsub & Hall & Hheap).
    destruct (fetchRows targets children heap) as [rest heap1].
    simpl in *. split; [by apply sublist_skip|]. split; [|done].
    constructor; [left; by apply elem_of_cons; left|].
    eapply Forall_impl; [exact Hall|]. simpl.
    intros row [Hrow | (t & Ht & Hcopy)];
      [left; by apply elem_of_cons; right | right].
    exists t. split; [by apply elem_of_cons; right | done].
  - intros targetChild targets itemChild children Hlt Hother IH heap.
    rewrite fetchRows_cons_cons. simpl. rewrite Hlt.
    rewrite decide_False by done. unfold clone.
    destruct (IH (N.succ heap)) as (Hsub & Hall & Hheap).
    destruct (fetchRows targets (itemChild :: children) (N.succ heap))
      as [rest heap1].
    simpl in *. split; [by apply sublist_cons|]. split; [|lia].
    constructor.
    + right. exists targetChild. simpl. repeat split; try done; try lia.
      by apply elem_of_cons; left.
    + eapply Forall_impl; [exact Hall|]. simpl.
      intros row [Hrow | (t & Ht & Hv & Hr & Ha)]; [by left | right].
      exists t. repeat split; try done; try lia.
      by apply elem_of_cons; right.
Qed.

(** The symbol informations after fetching are those of the item and
    those of the target. *)
Lemma fetchRows_infos targets children :
  forall heap x,
    x ∈ infosOf (fetchRows targets children heap).1 <->
    x ∈ infosOf children \/ x ∈ infosOf targets.
Proof.
  apply (reconcile_ind (fun targets children =>
    forall heap x,
      x ∈ infosOf (fetchRows targets children heap).1 <->
      x ∈ infosOf children \/ x ∈ infosOf targets));
    clear targets children.
  - intros children heap x. rewrite fetchRows_nil. simpl.
    split; [by left|]. intros [? | Hx]; [done|].
    by apply not_elem_of_nil in Hx.
  - intros targetChild targets IH heap x.
    rewrite fetchRows_cons_nil. unfold clone.
    specialize (IH (N.succ heap) x).
    destruct (fetchRows targets [] (N.succ heap)) as [rest heap1].
    simpl in *.
    rewrite (symbolInformationFromItem_values
               (mkItem heap (values targetChild) []) targetChild) by done.
    rewrite !elem_of_cons, IH. simpl. tauto.
  - intros targetChild targets itemChild children Hlt IH heap x.
    rewrite fetchRows_cons_cons. simpl. rewrite Hlt.
    specialize (IH heap x).
    destruct (fetchRows (targetChild :: targets) children heap)
      as [rest heap1].
    simpl in *. rewrite !elem_of_cons, IH, !elem_of_cons. tauto.
  - intros targetChild targets itemChild children Hlt Hsame IH heap x.
    rewrite fetchRows_cons_cons. simpl. rewrite Hlt.
    rewrite decide_True by done.
    specialize (IH heap x).
    destruct (fetchRows targets children heap) as [rest heap1].
    simpl in *. rewrite !elem_of_cons, IH, Hsame. tauto.
  - intros targetChild targets itemChild children Hlt Hother IH heap x.
    rewrite fetchRows_cons_cons. simpl. rewrite Hlt.
    rewrite decide_False by done. unfold clone.
    specialize (IH (N.succ heap) x).
    destruct (fetchRows targets (itemChild :: children) (N.succ heap))
      as [rest heap1].
    simpl in *.
    rewrite (symbolInformationFromItem_values
               (mkItem heap (values targetChild) []) targetChild) by done.
    rewrite !elem_of_cons, IH, !elem_of_cons. tauto.
Qed.

(** Merging two sorted child lists gives a sorted child list, when the
    order tells the children of the one from those of the other. *)
Lemma fetchRows_sorted targets children :
  sortedInfos (infosOf targets) = true ->
  sortedInfos (infosOf children) = true ->
  ordered (infosOf children) (infosOf targets) ->
  forall heap,
    sortedInfos (infosOf (fetchRows targets children heap).1) = true.
Proof using lessThan_trans.
  apply (reconcile_ind (fun targets children =>
    sortedInfos (infosOf targets) = true ->
    sortedInfos (infosOf children) = true ->
    ordered (infosOf children) (infosOf targets) ->
    forall heap,
      sortedInfos (infosOf (fetchRows targets children heap).1) = true));
    clear targets children.
  - intros children _ Hchildren _ heap. by rewrite fetchRows_nil.
  - intros targetChild targets IH Htargets _ _ heap.
    rewrite fetchRows_cons_nil. unfold clone.
    simpl in Htargets. apply sortedInfos_cons in Htargets as [Hall Htargets].
    assert (Hnone : ordered (infosOf []) (infosOf targets)).
    { intros a b Ha. by apply not_elem_of_nil in Ha. }
    specialize (IH Htargets eq_refl Hnone (N.succ heap)).
    pose proof (fetchRows_infos targets [] (N.succ heap)) as Hinfos.
    destruct (fetchRows targets [] (N.succ heap)) as [rest heap1].
    simpl in *.
    rewrite (symbolInformationFromItem_values
               (mkItem heap (values targetChild) []) targetChild) by done.
    apply sortedInfos_cons. split; [|done].
    rewrite Forall_forall in *. intros x Hx.
    apply Hinfos in Hx as [Hx | Hx]; [by apply not_elem_of_nil in Hx|].
    by apply Hall.
  - intros targetChild targets itemChild children Hlt IH Htargets Hchildren
           Hordered heap.
    rewrite fetchRows_cons_cons. simpl. rewrite Hlt.
    simpl in Hchildren.
    apply sortedInfos_cons in Hchildren as [Hall Hchildren].
    assert (Hrest : ordered (infosOf children)
                            (infosOf (targetChild :: targets))).
    { intros a b Ha Hb. apply Hordered; [|done]. simpl.
      by apply elem_of_cons; right. }
    specialize (IH Htargets Hchildren Hrest heap).
    pose proof (fetchRows_infos (targetChild :: targets) children heap)
      as Hinfos.
    destruct (fetchRows (targetChild :: targets) children heap)
      as [rest heap1].
    simpl in *. apply sortedInfos_cons. split; [|done].
    apply sortedInfos_cons in Htargets as [Hlater _].
    rewrite Forall_forall in *. intros x Hx.
    apply Hinfos in Hx as [Hx | [-> | Hx]%elem_of_cons].
    + by apply Hall.
    + done.
    + eapply lessThan_trans; [exact Hlt|]. by apply Hlater.
  - intros targetChild targets itemChild children Hlt Hsame IH Htargets
           Hchildren Hordered heap.
    rewrite fetchRows_cons_cons. simpl. rewrite Hlt.
    rewrite decide_True by done.
    simpl in Hchildren, Htargets.
    apply sortedInfos_cons in Hchildren as [Hall Hchildren].
    apply sortedInfos_cons in Htargets as [Hlater Htargets].
    assert (Hrest : ordered (infosOf children) (infosOf targets)).
    { intros a b Ha Hb. apply Hordered; simpl; by apply elem_of_cons; right. }
    specialize (IH Htargets Hchildren Hrest heap).
    pose proof (fetchRows_infos targets children heap) as Hinfos.
    destruct (fetchRows targets children heap) as [rest heap1].
    simpl in *. apply sortedInfos_cons. split; [|done].
    rewrite Forall_forall in *. intros x Hx.
    apply Hinfos in Hx as [Hx | Hx].
    + by apply Hall.
    + rewrite Hsame. by apply Hlater.
  - intros targetChild targets itemChild children Hlt Hother IH Htargets
           Hchildren Hordered heap.
    rewrite fetchRows_cons_cons. simpl. rewrite Hlt.
    rewrite decide_False by done. unfold clone.
    assert (Hgt : lessThan (symbolInformationFromItem targetChild)
                           (symbolInformationFromItem itemChild) = true).
    { destruct (lessThan (symbolInformationFromItem targetChild)
                         (symbolInformationFromItem itemChild)) eqn:Hgt;
        [done|].
      destruct Hother. apply Hordered; try done; simpl; by apply elem_of_cons; left. }
    simpl in Htargets.
    apply sortedInfos_cons in Htargets as [Hlater Htargets].
    assert (Hrest : ordered (infosOf (itemChild :: children))
                            (infosOf targets)).
    { intros a b Ha Hb. apply Hordered; [done|]. simpl.
      by apply elem_of_cons; right. }
    specialize (IH Htargets Hchildren Hrest (N.succ heap)).
    pose proof (fetchRows_infos targets (itemChild :: children) (N.succ heap))
      as Hinfos.
    destruct (fetchRows targets (itemChild :: children) (N.succ heap))
      as [rest heap1].
    simpl in *.
    rewrite (symbolInformationFromItem_values
               (mkItem heap (values targetChild) []) targetChild) by done.
    apply sortedInfos_cons. split; [|done].
    apply sortedInfos_cons in Hchildren as [Hall _].
    rewrite Forall_forall in *. intros x Hx.
    apply Hinfos in Hx as [[-> | Hx]%elem_of_cons | Hx].
    + done.
    + eapply lessThan_trans; [exact Hgt|]. by apply Hall.
    + by apply Hlater.
Qed.

(** The order tells the elements of a sorted list from one another. *)
Lemma sortedInfos_ordered infos :
  sortedInfos infos = true -> ordered infos infos.
Proof using lessThan_trans.
  induction infos as [|x infos IH]; intros Hsorted a b Ha Hb Hab Hba.
  - by apply not_elem_of_nil in Ha.
  - apply sortedInfos_cons in Hsorted as [Hall Hsorted].
    rewrite Forall_forall in Hall.
    apply elem_of_cons in Ha as [-> | Ha]; apply elem_of_cons in Hb as [-> | Hb].
    + done.
    + rewrite (Hall b Hb) in Hab. done.
    + rewrite (Hall a Ha) in Hba. done.
    + by apply IH.
Qed.

(** Each target row that has no counterpart among the children gets a copy
    without children, at a new address. *)
Lemma fetchRows_copies targets children :
  forall heap targetChild,
    targetChild ∈ targets ->
    symbolInformationFromItem targetChild ∉ infosOf children ->
    exists row,
      row ∈ (fetchRows targets children heap).1
      /\ values row = values targetChild
      /\ rows row = []
      /\ (heap <= address row)%N.
Proof.
  apply (reconcile_ind (fun targets children =>
    forall heap targetChild,
      targetChild ∈ targets ->
      symbolInformationFromItem targetChild ∉ infosOf children ->
      exists row,
        row ∈ (fetchRows targets children heap).1
        /\ values row = values targetChild
        /\ rows row = []
        /\ (heap <= address row)%N));
    clear targets children.
  - intros children heap t Ht. by apply not_elem_of_nil in Ht.
  - intros targetChild targets IH heap t Ht Hnew.
    rewrite fetchRows_cons_nil. unfold clone.
    specialize (IH (N.succ heap) t).
    destruct (fetchRows targets [] (N.succ heap)) as [rest heap1].
    simpl in *. apply elem_of_cons in Ht as [-> | Ht].
    + eexists. split; [by apply elem_of_cons; left|]. simpl.
      repeat split; try done; lia.
    + destruct (IH Ht Hnew) as (row & Hrow & Hvalues & Hrows & Haddress).
      exists row. split; [by apply elem_of_cons; right|].
      repeat split; try done; lia.
  - intros targetChild targets itemChild children Hlt IH heap t Ht Hnew.
    rewrite fetchRows_cons_cons. simpl. rewrite Hlt.
    specialize (IH heap t Ht).
    destruct (fetchRows (targetChild :: targets) children heap)
      as [rest heap1].
    simpl in *.
    destruct IH as (row & Hrow & Hcopy).
    { intros Hin. apply Hnew. by apply elem_of_cons; right. }
    exists row. split; [by apply elem_of_cons; right | done].
  - intros targetChild targets itemChild children Hlt Hsame IH heap t Ht Hnew.
    rewrite fetchRows_cons_cons. simpl. rewrite Hlt.
    rewrite decide_True by done.
    specialize (IH heap t).
    destruct (fetchRows targets children heap) as [rest heap1].
    simpl in *. apply elem_of_cons in Ht as [-> | Ht].
    + destruct Hnew. rewrite Hsame. by apply elem_of_cons; left.
    + destruct (IH Ht) as (row & Hrow & Hcopy).
      { intros Hin. apply Hnew. by apply elem_of_cons; right. }
      exists row. split; [by apply elem_of_cons; right | done].
  - intros targetChild targets itemChild children Hlt Hother IH heap t Ht Hnew.
    rewrite fetchRows_cons_cons. simpl. rewrite Hlt.
    rewrite decide_False by done. unfold clone.
    specialize (IH (N.succ heap) t).
    destruct (fetchRows targets (itemChild :: children) (N.succ heap))
      as [rest heap1].
    simpl in *. apply elem_of_cons in Ht as [-> | Ht].
    + eexists. split; [by apply elem_of_cons; left|]. simpl.
      repeat split; try done; lia.
    + destruct (IH Ht Hnew) as (row & Hrow & Hvalues & Hrows & Haddress).
      exists row. split; [by apply elem_of_cons; right|].
      repeat split; try done; lia.
Qed.

(** A sorted list is determined by its elements. *)
Lemma sortedInfos_unique infos infos' :
  sortedInfos infos = true ->
  sortedInfos infos' = true ->
  (forall x, x ∈ infos <-> x ∈ infos') ->
  infos = infos'.
Proof using lessThan_irrefl lessThan_trans.
  revert infos'. induction infos as [|a infos IH]; intros [|b infos'] Hs Hs' Hiff.
  - done.
  - exfalso. eapply not_elem_of_nil, Hiff. by left.
  - exfalso. eapply not_elem_of_nil, Hiff. by left.
  - apply sortedInfos_cons in Hs as [Hall Hs].
    apply sortedInfos_cons in Hs' as [Hall' Hs'].
    rewrite Forall_forall in Hall, Hall'.
    assert (a = b) as ->.
    { assert (Ha : a ∈ b :: infos') by (apply Hiff; by left).
      apply elem_of_cons in Ha as [-> | Ha]; [done|].
      assert (Hb : b ∈ a :: infos) by (apply Hiff; by left).
      apply elem_of_cons in Hb as [-> | Hb]; [done|].
      pose proof (lessThan_trans _ _ _ (Hall b Hb) (Hall' a Ha)) as Hcontra.
      by rewrite lessThan_irrefl in Hcontra. }
    f_equal. apply IH; try done.
    intros x. split; intros Hx.
    + assert (Hx' : x ∈ b :: infos') by (apply Hiff; by right).
      apply elem_of_cons in Hx' as [-> | Hx']; [|done].
      apply Hall, lessThan_ne in Hx. done.
    + assert (Hx' : x ∈ b :: infos) by (apply Hiff; by right).
      apply elem_of_cons in Hx' as [-> | Hx']; [|done].
      apply Hall', lessThan_ne in Hx. done.
Qed.

Lemma sortedTree_rows item :
  sortedTree item = true ->
  Forall (fun itemChild => sortedTree itemChild = true) (rows item).
Proof.
  rewrite sortedTree_unfold. intros [_ Hrows]%andb_true_iff.
  apply Forall_forall. intros c Hc.
  rewrite forallb_forall in Hrows. by apply Hrows, list_elem_of_In.
Qed.

(** C3, as the code has it: [moveItemToTarget] preserves the sort order.
    When the child lists at every node of the item and of the target are
    strictly sorted, so are the child lists at every node of the item after
    [moveItemToTarget]; and likewise after [fetchItemToTarget] when
    [operator<] orders every child of the item against every child of the
    target that it does not equal. *)
Theorem reconciliation_keeps_sorted item target heap :
  sortedTree item = true ->
  sortedTree target = true ->
  sortedTree (moveItemToTarget item target heap).1 = true
  /\ (ordered (childInfos item) (childInfos target) ->
      sortedTree (fetchItemToTarget item target heap).1 = true).
Proof using lessThan_trans.
  intros Hitem Htarget. split.
  - rewrite moveItemToTarget_moveTree.
    rewrite (sortedTree_childTrees _ target); [done|].
    apply moveTree_childTrees.
  - intros Hordered. rewrite fetchItemToTarget_fetchRows.
    pose proof (fetchRows_sorted (rows target) (rows item)
                  (sortedTree_childInfos _ Htarget)
                  (sortedTree_childInfos _ Hitem) Hordered heap) as Hsorted.
    destruct (fetchRows_rows (rows target) (rows item) heap) as (_ & Hall & _).
    destruct (fetchRows (rows target) (rows item) heap) as [children heap1].
    rewrite sortedTree_unfold. simpl in *.
    apply andb_true_iff. split; [exact Hsorted|].
    apply forallb_forall. intros row Hrow%list_elem_of_In.
    rewrite Forall_forall in Hall.
    destruct (Hall row Hrow) as [Hold | (t & _ & _ & Hempty & _)].
    + apply sortedTree_rows in Hitem. rewrite Forall_forall in Hitem.
      by apply Hitem.
    + rewrite sortedTree_unfold. unfold childInfos. by rewrite Hempty.
Qed.

(** C2, as the code has it: [fetchItemToTarget] only inserts.  Every child
    the item had is still there, in the same order; every other row is a
    copy without children of a target child, at a new address, and there is
    such a copy for each target child that no child of the item equals; the
    symbol informations of the children are afterwards those of the item's
    and the target's children together.  For sorted child lists the result
    is the target's sequence exactly when every child of the item has the
    symbol information of some child of the target; and it is sorted when
    [operator<] orders every child of the item against every child of the
    target that it does not equal. *)
Theorem fetchItemToTarget_merges item target heap :
  let result := (fetchItemToTarget item target heap).1 in
  sublist (rows item) (rows result)
  /\ Forall (fun row =>
               row ∈ rows item
               \/ (exists targetChild,
                      targetChild ∈ rows target
                      /\ values row = values targetChild
                      /\ rows row = [] /\ (heap <= address row)%N))
            (rows result)
  /\ (forall targetChild,
        targetChild ∈ rows target ->
        symbolInformationFromItem targetChild ∉ childInfos item ->
        exists row,
          row ∈ rows result
          /\ values row = values targetChild
          /\ rows row = [] /\ (heap <= address row)%N)
  /\ (forall x, x ∈ childInfos result <->
                x ∈ childInfos item \/ x ∈ childInfos target)
  /\ (sortedInfos (childInfos item) = true ->
      sortedInfos (childInfos target) = true ->
      (childInfos result = childInfos target <->
       forall x, x ∈ childInfos item -> x ∈ childInfos target)
      /\ (ordered (childInfos item) (childInfos target) ->
          sortedInfos (childInfos result) = true)).
Proof using lessThan_irrefl lessThan_trans.
  intros result. unfold result, childInfos.
  rewrite fetchItemToTarget_fetchRows.
  pose proof (fetchRows_sorted (rows target) (rows item)) as Hsorted.
  pose proof (fetchRows_infos (rows target) (rows item) heap) as Hinfos.
  pose proof (fetchRows_copies (rows target) (rows item) heap) as Hcopies.
  destruct (fetchRows_rows (rows target) (rows item) heap) as (Hsub & Hall & _).
  destruct (fetchRows (rows target) (rows item) heap) as [children heap1]
    eqn:Hfetch.
  simpl in *.
  split; [done|]. split; [done|]. split; [done|]. split; [done|].
  intros Hitem Htarget. split; [split|].
  - intros Heq x Hx. rewrite <- Heq. apply Hinfos. by left.
  - intros Hsubset. apply sortedInfos_unique; try done.
    + assert (Hordered : ordered (infosOf (rows item)) (infosOf (rows target))).
      { intros a b Ha Hb. apply (sortedInfos_ordered _ Htarget); [|done].
        by apply Hsubset. }
      specialize (Hsorted Htarget Hitem Hordered heap).
      by rewrite Hfetch in Hsorted.
    + intros x. rewrite Hinfos. split; [|by right].
      intros [Hx | Hx]; [by apply Hsubset | done].
  - intros Hordered. specialize (Hsorted Htarget Hitem Hordered heap).
    by rewrite Hfetch in Hsorted.
Qed.
End Sorted.

(** ** The sample order *)

Module SampleFacts.
Import Sample.

Lemma string_compare_eq (x y : string) :
  String_as_OT.compare x y = Eq <-> x = y.
Proof.
  destruct (String_as_OT.compare_spec x y) as [Heq | Hlt | Hgt].
  - done.
  - split; [done|]. intros ->.
    by apply (StrictOrder_Irreflexive (R := String_as_OT.lt)) in Hlt.
  - split; [done|]. intros ->.
    by apply (StrictOrder_Irreflexive (R := String_as_OT.lt)) in Hgt.
Qed.

Lemma string_compare_trans (x y z : string) :
  String_as_OT.compare x y = Lt -> String_as_OT.compare y z = Lt ->
  String_as_OT.compare x z = Lt.
Proof. apply (StrictOrder_Transitive (R := String_as_OT.lt)). Qed.

Lemma keyLess_irrefl (a : SymbolInformation) : keyLess a a = false.
Proof.
  unfold keyLess. rewrite Z.compare_refl.
  by rewrite !(proj2 (string_compare_eq _ _) eq_refl).
Qed.

Lemma keyLess_trans (a b c : SymbolInformation) :
  keyLess a b = true -> keyLess b c = true -> keyLess a c = true.
Proof.
  destruct a as [n t i], b as [n' t' i'], c as [n'' t'' i''].
  unfold keyLess. cbn [name type iconType].
  generalize (sortKey i) (sortKey i') (sortKey i''). intros k k' k''.
  destruct (Z.compare_spec k k') as [-> | Hk | Hk]; [| |done].
  - destruct (Z.compare_spec k' k'') as [-> | Hk' | Hk']; [|done..].
    destruct (String_as_OT.compare n n') eqn:Hn; [| |done].
    + apply string_compare_eq in Hn as ->.
      destruct (String_as_OT.compare n' n'') eqn:Hn'; [|done..].
      apply string_compare_eq in Hn' as ->.
      destruct (String_as_OT.compare t t') eqn:Ht; [done| |done].
      destruct (String_as_OT.compare t' t'') eqn:Ht'; [done| |done].
      by rewrite (string_compare_trans _ _ _ Ht Ht').
    + destruct (String_as_OT.compare n' n'') eqn:Hn'; [| |done].
      * apply string_compare_eq in Hn' as ->. by rewrite Hn.
      * by rewrite (string_compare_trans _ _ _ Hn Hn').
  - destruct (Z.compare_spec k' k'') as [-> | Hk' | Hk']; [| |done].
    + intros _ _. by apply Z.compare_lt_iff in Hk as ->.
    + intros _ _. assert (Hlt : k < k'') by lia.
      by apply Z.compare_lt_iff in Hlt as ->.
Qed.

(** The order does not tell the icon type 1, which the table does not list,
    from [Enum], which has the sort key 1. *)
Lemma keyLess_not_total :
  keyLess (mkSymbolInformation "a" "" 1) (mkSymbolInformation "a" "" 2) = false
  /\ keyLess (mkSymbolInformation "a" "" 2) (mkSymbolInformation "a" "" 1)
     = false.
Proof. by vm_compute. Qed.

Lemma iconNumber_inj (a b : CodeModelIcon.Type_) :
  iconNumber a = iconNumber b -> a = b.
Proof. destruct a, b; simpl; intros Heq; try reflexivity; discriminate Heq. Qed.
End SampleFacts.

(** ** The functions on the sample trees *)

Module Examples.
Import Sample SampleFacts.
Local Open Scope string_scope.

Lemma sample_roles :
  storedRole SymbolNameRole <> storedRole SymbolTypeRole
  /\ storedRole SymbolNameRole <> storedRole IconTypeRole
  /\ storedRole SymbolTypeRole <> storedRole IconTypeRole.
Proof. repeat split; discriminate. Qed.

(** C8 on a sample symbol. *)
Lemma symbolInformation_roundtrip_witness :
  symbolInformationFromItem
    (setSymbolInformationToItem
       (mkSymbolInformation "QObject" "class" 0) (mkItem 7 ∅ []))
  = mkSymbolInformation "QObject" "class" 0.
Proof.
  apply (symbolInformation_roundtrip (H := declarations)
           (proj1 sample_roles) (proj1 (proj2 sample_roles))
           (proj2 (proj2 sample_roles))).
Defined.

(** C10 on the first call, for the icon kind [Namespace] (10 in the sample
    numbering, first in the table) and for 1, which the table does not
    list. *)
Lemma iconTypeSortOrder_position_witness :
  sortOrderState ∅
  /\ ((forall i : nat, IconSortOrder !! i = Some 10 ->
         (iconTypeSortOrder ∅ 10).1 = Z.of_nat i)
      /\ (10 ∉ IconSortOrder -> (iconTypeSortOrder ∅ 10).1 = 10)).
Proof.
  split; [constructor|].
  apply (iconTypeSortOrder_position (H := declarations) iconNumber_inj ∅ 10).
  constructor.
Defined.

Example iconTypeSortOrder_listed :
  (iconTypeSortOrder ∅ 10).1 = 0 /\ (iconTypeSortOrder ∅ 2).1 = 1
  /\ (iconTypeSortOrder ∅ 24).1 = 22.
Proof. by vm_compute. Qed.

(** The unlisted icon type 1 gets the key 1, which is also the key of
    [Enum], second in the table. *)
Example iconTypeSortOrder_unlisted :
  (1 ∉ IconSortOrder)
  /\ (iconTypeSortOrder ∅ 1).1 = 1
  /\ (iconTypeSortOrder ∅ (iconValue CodeModelIcon.Enum)).1 = 1.
Proof.
  split; [|by vm_compute].
  unfold IconSortOrder. simpl. set_solver.
Qed.

Lemma sample_sorted :
  sortedTree liveTree = true /\ sortedTree targetTree = true.
Proof. by vm_compute. Qed.

(** C1 on the sample trees. *)
Lemma moveItemToTarget_converges_witness :
  sortedTree liveTree = true
  /\ sortedTree targetTree = true
  /\ childTrees (moveItemToTarget liveTree targetTree 100).1
     = childTrees targetTree
  /\ symbolTree (moveItemToTarget liveTree targetTree 100).1
     = symbolTree (rebuild liveTree targetTree 100).1.
Proof.
  split; [exact (proj1 sample_sorted)|].
  split; [exact (proj2 sample_sorted)|].
  exact (moveItemToTarget_converges (H := declarations)
           liveTree targetTree 100
           (proj1 sample_sorted) (proj2 sample_sorted)).
Defined.

Example moveItemToTarget_sample :
  childInfos (moveItemToTarget liveTree targetTree 100).1
  = [ mkSymbolInformation "b" "" 0; mkSymbolInformation "d" "" 0 ]
  /\ map address (rows (moveItemToTarget liveTree targetTree 100).1)
     = [ 2%N; 101%N ]
  /\ (moveItemToTarget liveTree targetTree 100).2 = 103%N.
Proof. by vm_compute. Qed.

(** A run that is given too little fuel is cut off. *)
Example moveItemToTarget_run_cut_off :
  moveItemToTarget_run 5 liveTree targetTree 100 = None
  /\ moveFuel liveTree targetTree = 30%nat.
Proof. by vm_compute. Qed.

(** The order tells the children of the live tree from those of the
    target. *)
Lemma sample_ordered (a b : SymbolInformation) :
  a ∈ childInfos liveTree -> b ∈ childInfos targetTree ->
  lessThan a b = false -> lessThan b a = false -> a = b.
Proof.
  assert (Hlive : childInfos liveTree
                  = [ mkSymbolInformation "a" "" 0;
                      mkSymbolInformation "b" "" 0;
                      mkSymbolInformation "c" "" 0 ]) by (by vm_compute).
  assert (Htarget : childInfos targetTree
                    = [ mkSymbolInformation "b" "" 0;
                        mkSymbolInformation "d" "" 0 ]) by (by vm_compute).
  rewrite Hlive, Htarget, !elem_of_cons, !elem_of_nil.
  intros [-> | [-> | [-> | []]]] [-> | [-> | []]]; by vm_compute.
Qed.

(** C3 as the code has it, on the sample trees. *)
Lemma reconciliation_keeps_sorted_witness :
  sortedTree liveTree = true
  /\ sortedTree targetTree = true
  /\ sortedTree (moveItemToTarget liveTree targetTree 100).1 = true
  /\ sortedTree (fetchItemToTarget liveTree targetTree 100).1 = true.
Proof.
  split; [exact (proj1 sample_sorted)|].
  split; [exact (proj2 sample_sorted)|].
  split.
  - exact (proj1 (reconciliation_keeps_sorted (H := declarations)
                    keyLess_trans liveTree targetTree 100
                    (proj1 sample_sorted) (proj2 sample_sorted))).
  - exact (proj2 (reconciliation_keeps_sorted (H := declarations)
                    keyLess_trans liveTree targetTree 100
                    (proj1 sample_sorted) (proj2 sample_sorted))
                 sample_ordered).
Defined.

Lemma sample_addresses :
  NoDup (map address (rows liveTree))
  /\ Forall (fun itemChild => (address itemChild < 100)%N) (rows liveTree).
Proof.
  split.
  - simpl. repeat (apply NoDup_cons; split; [set_solver|]). apply NoDup_nil_2.
  - simpl. repeat (constructor; [reflexivity|]). constructor.
Qed.

(** C4 on the sample trees: the child [b] of the live tree, at address 2,
    stays as the first row; [a] and [c] go; the row for [d] is new. *)
Lemma moveItemToTarget_keeps_matching_witness :
  sortedTree liveTree = true
  /\ sortedTree targetTree = true
  /\ NoDup (map address (rows liveTree))
  /\ Forall (fun itemChild => (address itemChild < 100)%N) (rows liveTree)
  /\ (exists row heap',
         rows (moveItemToTarget liveTree targetTree 100).1 !! 0%nat = Some row
         /\ row = (moveItemToTarget
                     (item 2 "b" "" 0 [ item 5 "x" "" 0 [] ])
                     (item 12 "b" "" 0 [ item 15 "y" "" 0 [] ]) heap').1
         /\ address row = 2%N
         /\ values row = values (item 2 "b" "" 0 [])).
Proof.
  split; [exact (proj1 sample_sorted)|].
  split; [exact (proj2 sample_sorted)|].
  split; [exact (proj1 sample_addresses)|].
  split; [exact (proj2 sample_addresses)|].
  destruct (moveItemToTarget_keeps_matching (H := declarations)
              keyLess_irrefl keyLess_trans
              liveTree targetTree 100
              (proj1 sample_sorted) (proj2 sample_sorted)
              (proj1 sample_addresses) (proj2 sample_addresses))
    as [Hkept _].
  apply (Hkept 0%nat (item 12 "b" "" 0 [ item 15 "y" "" 0 [] ])
               (item 2 "b" "" 0 [ item 5 "x" "" 0 [] ])).
  - reflexivity.
  - simpl. apply elem_of_cons. right. apply elem_of_cons. by left.
  - reflexivity.
Defined.

Example moveItemToTarget_sample_rows :
  map address (rows liveTree) = [ 1%N; 2%N; 3%N ]
  /\ map address (rows (moveItemToTarget liveTree targetTree 100).1)
     = [ 2%N; 101%N ].
Proof. by vm_compute. Qed.

Lemma sample_child_lists :
  sortedInfos (childInfos liveTree) = true
  /\ sortedInfos (childInfos targetTree) = true.
Proof. by vm_compute. Qed.

Lemma sample_new_child :
  symbolInformationFromItem (item 13 "d" "" 0 [ item 16 "z" "" 0 [] ])
  ∉ childInfos liveTree.
Proof.
  assert (Hlive : childInfos liveTree
                  = [ mkSymbolInformation "a" "" 0;
                      mkSymbolInformation "b" "" 0;
                      mkSymbolInformation "c" "" 0 ]) by (by vm_compute).
  assert (Hd : symbolInformationFromItem
                 (item 13 "d" "" 0 [ item 16 "z" "" 0 [] ])
               = mkSymbolInformation "d" "" 0) by (by vm_compute).
  rewrite Hlive, Hd, !elem_of_cons, elem_of_nil.
  intros [Heq | [Heq | [Heq | []]]]; discriminate Heq.
Qed.

(** C2 as the code has it, on the sample trees: the three rows of the
    live tree stay, the target child [d] gets a copy, and the result is
    sorted and is not the target's sequence. *)
Lemma fetchItemToTarget_merges_witness :
  sublist (rows liveTree) (rows (fetchItemToTarget liveTree targetTree 100).1)
  /\ (exists row,
         row ∈ rows (fetchItemToTarget liveTree targetTree 100).1
         /\ values row = values (item 13 "d" "" 0 [ item 16 "z" "" 0 [] ])
         /\ rows row = [] /\ (100 <= address row)%N)
  /\ sortedInfos (childInfos (fetchItemToTarget liveTree targetTree 100).1)
     = true
  /\ (childInfos (fetchItemToTarget liveTree targetTree 100).1
      = childInfos targetTree <->
      forall x, x ∈ childInfos liveTree -> x ∈ childInfos targetTree).
Proof.
  destruct (fetchItemToTarget_merges (H := declarations)
              keyLess_irrefl keyLess_trans liveTree targetTree 100)
    as (Hsub & _ & Hcopies & _ & Hsorted).
  destruct (Hsorted (proj1 sample_child_lists) (proj2 sample_child_lists))
    as [Hsame Hordered].
  split; [exact Hsub|]. split.
  - apply (Hcopies (item 13 "d" "" 0 [ item 16 "z" "" 0 [] ])).
    + simpl. apply elem_of_cons. right. apply elem_of_cons. by left.
    + exact sample_new_child.
  - split; [exact (Hordered sample_ordered) | exact Hsame].
Defined.

(** C2 as stated fails: the children [a] and [c] of the live tree have no
    counterpart in the target and are still there after
    [fetchItemToTarget]. *)
Lemma fetchItemToTarget_keeps_unmatched :
  sortedTree liveTree = true
  /\ sortedTree targetTree = true
  /\ childInfos (fetchItemToTarget liveTree targetTree 100).1
     = [ mkSymbolInformation "a" "" 0; mkSymbolInformation "b" "" 0;
         mkSymbolInformation "c" "" 0; mkSymbolInformation "d" "" 0 ]
  /\ childInfos targetTree
     = [ mkSymbolInformation "b" "" 0; mkSymbolInformation "d" "" 0 ]
  /\ childInfos (fetchItemToTarget liveTree targetTree 100).1
     <> childInfos targetTree.
Proof.
  split; [exact (proj1 sample_sorted)|].
  split; [exact (proj2 sample_sorted)|].
  split; [by vm_compute|]. split; [by vm_compute|].
  by vm_compute.
Qed.

(** C3 as stated fails for [fetchItemToTarget]: the order compares icon
    types by their sort keys, and the icon types 1 (not in the table, key 1)
    and 2 ([Enum], key 1) give two symbols named [a] that are different and
    not ordered.  Both one-element child lists are sorted; fetching one into
    the other puts the two side by side, which is not sorted.
    [moveItemToTarget] is not affected. *)
Lemma fetchItemToTarget_needs_total_order :
  let live := mkItem 0 ∅ [ item 1 "a" "" 1 [] ] in
  let target := mkItem 10 ∅ [ item 11 "a" "" 2 [] ] in
  sortedTree live = true
  /\ sortedTree target = true
  /\ childInfos (fetchItemToTarget live target 100).1
     = [ mkSymbolInformation "a" "" 2; mkSymbolInformation "a" "" 1 ]
  /\ sortedTree (fetchItemToTarget live target 100).1 = false
  /\ sortedTree (moveItemToTarget live target 100).1 = true.
Proof. by vm_compute. Qed.

(** A row that stays keeps all its data, also the roles that are no part of
    the symbol information, where a full rebuild has the data of the target
    row: here the role 257 of the row [b]. *)
Example moveItemToTarget_keeps_other_roles :
  let live :=
    mkItem 0 ∅ [ setData (VList [VLocation (mkSymbolLocation "old.h" 1 1)])
                         257 (item 2 "b" "" 0 []) ] in
  let target :=
    mkItem 10 ∅ [ setData (VList [VLocation (mkSymbolLocation "new.h" 7 1)])
                          257 (item 12 "b" "" 0 []) ] in
  map (fun row => data row 257) (rows (moveItemToTarget live target 100).1)
  = [ VList [VLocation (mkSymbolLocation "old.h" 1 1)] ]
  /\ map (fun row => data row 257) (rows (rebuild live target 100).1)
     = [ VList [VLocation (mkSymbolLocation "new.h" 7 1)] ]
  /\ symbolTree (moveItemToTarget live target 100).1
     = symbolTree (rebuild live target 100).1.
Proof. by vm_compute. Qed.

(** The copies [fetchItemToTarget] inserts have no children, so below the
    first level the item does not follow the target either. *)
Example fetchItemToTarget_copies_are_childless :
  map rowCount (rows (fetchItemToTarget liveTree targetTree 100).1)
  = [ 0; 1; 0; 0 ]%nat
  /\ map rowCount (rows targetTree) = [ 1; 1 ]%nat.
Proof. by vm_compute. Qed.
End Examples.

(** * Further properties *)

(** ** Reconciling: trees in step, empty trees, addresses *)

Section ReconcileMore.
Context `{Declarations}.

Implicit Types (item target : QStandardItem) (heap : N).
Implicit Types (children targets : list QStandardItem).

#[local] Arguments moveRows : simpl never.
#[local] Arguments moveTree : simpl never.
#[local] Arguments fetchRows : simpl never.

Hypothesis lessThan_irrefl : forall a, lessThan a a = false.

Lemma symbolTree_inv item item' :
  symbolTree item = symbolTree item' ->
  symbolInformationFromItem item = symbolInformationFromItem item'
  /\ childTrees item = childTrees item'.
Proof.
  rewrite !symbolTree_unfold. intros Heq. split.
  - exact (f_equal rootInfo Heq).
  - exact (f_equal (fun tree => match tree with SymbolNode _ c => c end) Heq).
Qed.

(** Rows that already carry the symbol trees of the target rows are left
    as they are, and nothing is allocated. *)
Lemma moveRows_in_step targets :
  Forall (fun targetChild => forall itemChild heap,
            childTrees itemChild = childTrees targetChild ->
            moveChild itemChild targetChild heap = (itemChild, heap)) targets ->
  forall children heap,
    map symbolTree children = map symbolTree targets ->
    moveRows moveChild targets children heap = (children, heap).
Proof using lessThan_irrefl.
  induction 1 as [|targetChild targets Hchild _ IH]; intros children heap Htrees.
  - destruct children; [|done]. by rewrite moveRows_nil.
  - destruct children as [|itemChild children]; [done|].
    simpl in Htrees. injection Htrees as Hhead Htail.
    apply symbolTree_inv in Hhead as [Hinfo Hbelow].
    rewrite moveRows_cons_cons. simpl.
    rewrite Hinfo, lessThan_irrefl, decide_True by done.
    rewrite (Hchild itemChild heap Hbelow).
    by rewrite (IH children heap Htail).
Qed.

Lemma moveTree_in_step target :
  forall item heap,
    childTrees item = childTrees target ->
    moveTree target item heap = (item, heap).
Proof using lessThan_irrefl.
  induction target as [a v targets IH] using QStandardItem_rows_ind.
  intros item heap Htrees. rewrite moveTree_unfold. simpl.
  rewrite moveRows_in_step; [by destruct item | | exact Htrees].
  eapply Forall_impl; [exact IH|].
  intros targetChild Hchild itemChild heap'. apply Hchild.
Qed.

(** X1: an item that already carries, below its root, the symbol
    informations of the target is left exactly as it is by
    [moveItemToTarget]: no row is removed, inserted or copied and no object
    is allocated. *)
Theorem moveItemToTarget_in_step item target heap :
  childTrees item = childTrees target ->
  moveItemToTarget item target heap = (item, heap).
Proof using lessThan_irrefl.
  intros Htrees. rewrite moveItemToTarget_moveTree. by apply moveTree_in_step.
Qed.

(** X2: [moveItemToTarget] is idempotent: a second call with the same
    target, whatever the two trees were, changes nothing any more. *)
Theorem moveItemToTarget_idempotent item target heap :
  let first := moveItemToTarget item target heap in
  moveItemToTarget first.1 target first.2 = first.
Proof using lessThan_irrefl.
  simpl. rewrite !moveItemToTarget_moveTree.
  rewrite (moveTree_in_step target (moveTree target item heap).1).
  - by destruct (moveTree target item heap).
  - apply moveTree_childTrees.
Qed.
End ReconcileMore.

Section ReconcileEdges.
Context `{Declarations}.

Implicit Types (item target : QStandardItem) (heap : N).
Implicit Types (children targets : list QStandardItem).

#[local] Arguments moveRows : simpl never.
#[local] Arguments moveTree : simpl never.
#[local] Arguments fetchRows : simpl never.

Lemma moveRows_from_nothing targets :
  Forall (fun targetChild => forall heap,
            moveChild (clone targetChild heap).1 targetChild
                      (clone targetChild heap).2
            = cloneTree targetChild heap) targets ->
  forall heap,
    moveRows moveChild targets [] heap = cloneRows cloneTree targets heap.
Proof.
  induction 1 as [|targetChild targets Hchild _ IH]; intros heap.
  - by rewrite moveRows_nil.
  - rewrite moveRows_cons_nil. simpl.
    specialize (Hchild heap). unfold clone in *. simpl in Hchild.
    rewrite Hchild.
    destruct (cloneTree targetChild heap) as [copy heap1].
    by rewrite IH.
Qed.

Lemma moveTree_of_clone target :
  forall heap,
    moveChild (clone target heap).1 target (clone target heap).2
    = cloneTree target heap.
Proof.
  induction target as [a v targets IH] using QStandardItem_rows_ind.
  intros heap. unfold moveChild, clone. rewrite moveTree_unfold. simpl.
  by rewrite (moveRows_from_nothing targets IH).
Qed.

(** X3: the two empty cases.  On an item without rows [moveItemToTarget]
    is the full rebuild, object for object: it copies the target's rows with
    everything below them, to the same addresses.  With a target without
    rows it removes all rows of the item and allocates nothing. *)
Theorem moveItemToTarget_empty item target heap :
  (rows item = [] ->
     moveItemToTarget item target heap = rebuild item target heap)
  /\ (rows target = [] ->
        moveItemToTarget item target heap
        = (mkItem (address item) (values item) [], heap)).
Proof.
  rewrite moveItemToTarget_moveTree, moveTree_unfold. split.
  - intros ->. unfold rebuild.
    rewrite moveRows_from_nothing; [done|].
    apply Forall_forall. intros targetChild _. apply moveTree_of_clone.
  - intros ->. by rewrite moveRows_nil.
Qed.

(** The allocations of a call: at most one for each node of the target
    below its root. *)
Lemma moveRows_allocations targets children :
  Forall (fun targetChild => forall itemChild heap,
            ((moveChild itemChild targetChild heap).2
             <= heap + N.of_nat (itemSize targetChild - 1))%N) targets ->
  forall heap,
    ((moveRows moveChild targets children heap).2
     <= heap + N.of_nat (rowsSize targets))%N.
Proof.
  apply (reconcile_ind (fun targets children =>
    Forall _ targets ->
    forall heap,
      ((moveRows moveChild targets children heap).2
       <= heap + N.of_nat (rowsSize targets))%N));
    clear targets children.
  - intros children _ heap. rewrite moveRows_nil. simpl. lia.
  - intros targetChild targets IH [Hchild Hrec]%Forall_cons heap.
    rewrite moveRows_cons_nil. unfold clone.
    specialize (Hchild (mkItem heap (values targetChild) []) (N.succ heap)).
    destruct (moveChild _ targetChild (N.succ heap)) as [copy heap1].
    specialize (IH Hrec heap1).
    destruct (moveRows moveChild targets [] heap1) as [rest heap2].
    rewrite rowsSize_cons, (itemSize_unfold targetChild) in *.
    simpl in *. lia.
  - intros targetChild targets itemChild children Hlt IH Hrec heap.
    rewrite moveRows_cons_cons. simpl. rewrite Hlt. by apply IH.
  - intros targetChild targets itemChild children Hlt Hsame IH
           [Hchild Hrec]%Forall_cons heap.
    rewrite moveRows_cons_cons. simpl. rewrite Hlt.
    rewrite decide_True by done.
    specialize (Hchild itemChild heap).
    destruct (moveChild itemChild targetChild heap) as [itemChild' heap1].
    specialize (IH Hrec heap1).
    destruct (moveRows moveChild targets children heap1) as [rest heap2].
    rewrite rowsSize_cons, (itemSize_unfold targetChild) in *.
    simpl in *. lia.
  - intros targetChild targets itemChild children Hlt Hother IH
           [Hchild Hrec]%Forall_cons heap.
    rewrite moveRows_cons_cons. simpl. rewrite Hlt.
    rewrite decide_False by done. unfold clone.
    specialize (Hchild (mkItem heap (values targetChild) []) (N.succ heap)).
    destruct (moveChild _ targetChild (N.succ heap)) as [copy heap1].
    specialize (IH Hrec heap1).
    destruct (moveRows moveChild targets (itemChild :: children) heap1)
      as [rest heap2].
    rewrite rowsSize_cons, (itemSize_unfold targetChild) in *.
    simpl in *. lia.
Qed.

Lemma moveTree_allocations target :
  forall item heap,
    ((moveTree target item heap).2
     <= heap + N.of_nat (itemSize target - 1))%N.
Proof.
  induction target as [a v targets IH] using QStandardItem_rows_ind.
  intros item heap. rewrite moveTree_unfold.
  pose proof (moveRows_allocations targets (rows item)) as Hrows.
  simpl rows.
  destruct (moveRows moveChild targets (rows item) heap) as [children heap1]
    eqn:Hmove.
  specialize (Hrows IH heap). rewrite Hmove in Hrows.
  change (itemSize (mkItem a v targets)) with (S (rowsSize targets)).
  simpl in *. lia.
Qed.

(** X4: [moveItemToTarget] allocates at most one object for each node of
    the target below its root, however large the item is; the next free
    address never moves backwards. *)
Theorem moveItemToTarget_allocations item target heap :
  (heap <= (moveItemToTarget item target heap).2)%N
  /\ ((moveItemToTarget item target heap).2
      <= heap + N.of_nat (itemSize target - 1))%N.
Proof.
  rewrite moveItemToTarget_moveTree. split.
  - apply moveTree_heap.
  - apply moveTree_allocations.
Qed.
End ReconcileEdges.

Section ReconcileOrder.
Context `{Declarations}.

Implicit Types (item target : QStandardItem) (heap : N).
Implicit Types (children targets : list QStandardItem).

#[local] Arguments moveRows : simpl never.
#[local] Arguments moveTree : simpl never.
#[local] Arguments fetchRows : simpl never.

Lemma moveRows_old_rows (heap0 : N) targets children :
  forall heap,
    (heap0 <= heap)%N ->
    sublist (filter (fun a => (a < heap0)%N)
                    (map address (moveRows moveChild targets children heap).1))
            (map address children).
Proof.
  apply (reconcile_ind (fun targets children =>
    forall heap,
      (heap0 <= heap)%N ->
      sublist (filter (fun a => (a < heap0)%N)
                      (map address (moveRows moveChild targets children heap).1))
              (map address children)));
    clear targets children.
  - intros children heap _. rewrite moveRows_nil. simpl. apply sublist_nil_l.
  - intros targetChild targets IH heap Hheap.
    rewrite moveRows_cons_nil. unfold clone.
    pose proof (moveTree_heap targetChild (mkItem heap (values targetChild) [])
                  (N.succ heap)) as Hmono.
    destruct (moveTree_address_values targetChild
                (mkItem heap (values targetChild) []) (N.succ heap))
      as [Haddress _].
    fold (moveChild (mkItem heap (values targetChild) []) targetChild
                    (N.succ heap)) in Hmono, Haddress.
    destruct (moveChild _ targetChild (N.succ heap)) as [copy heap1].
    assert (Hheap1 : (heap0 <= heap1)%N) by (simpl in Hmono; lia).
    specialize (IH heap1 Hheap1).
    destruct (moveRows moveChild targets [] heap1) as [rest heap2].
    simpl in *. rewrite filter_cons_False by (rewrite Haddress; lia). done.
  - intros targetChild targets itemChild children Hlt IH heap Hheap.
    rewrite moveRows_cons_cons. simpl. rewrite Hlt.
    apply sublist_cons. by apply IH.
  - intros targetChild targets itemChild children Hlt Hsame IH heap Hheap.
    rewrite moveRows_cons_cons. simpl. rewrite Hlt.
    rewrite decide_True by done.
    pose proof (moveTree_heap targetChild itemChild heap) as Hmono.
    destruct (moveTree_address_values targetChild itemChild heap)
      as [Haddress _].
    fold (moveChild itemChild targetChild heap) in Hmono, Haddress.
    destruct (moveChild itemChild targetChild heap) as [itemChild' heap1].
    assert (Hheap1 : (heap0 <= heap1)%N) by (simpl in Hmono; lia).
    specialize (IH heap1 Hheap1).
    destruct (moveRows moveChild targets children heap1) as [rest heap2].
    simpl in *. rewrite Haddress, filter_cons.
    case_decide; [by apply sublist_skip | by apply sublist_cons].
  - intros targetChild targets itemChild children Hlt Hother IH heap Hheap.
    rewrite moveRows_cons_cons. simpl. rewrite Hlt.
    rewrite decide_False by done. unfold clone.
    pose proof (moveTree_heap targetChild (mkItem heap (values targetChild) [])
                  (N.succ heap)) as Hmono.
    destruct (moveTree_address_values targetChild
                (mkItem heap (values targetChild) []) (N.succ heap))
      as [Haddress _].
    fold (moveChild (mkItem heap (values targetChild) []) targetChild
                    (N.succ heap)) in Hmono, Haddress.
    destruct (moveChild _ targetChild (N.succ heap)) as [copy heap1].
    assert (Hheap1 : (heap0 <= heap1)%N) by (simpl in Hmono; lia).
    specialize (IH heap1 Hheap1).
    destruct (moveRows moveChild targets (itemChild :: children) heap1)
      as [rest heap2].
    simpl in *. rewrite filter_cons_False by (rewrite Haddress; lia). done.
Qed.

(** X5: [moveItemToTarget] never reorders.  The rows of the result that
    are objects from before the call, that is, at addresses below the next
    free address [heap], are rows of the item and follow one another as they
    did in the item; sorted or not, rows are only dropped and put in
    between. *)
Theorem moveItemToTarget_keeps_order item target heap :
  sublist (filter (fun a => (a < heap)%N)
                  (map address (rows (moveItemToTarget item target heap).1)))
          (map address (rows item)).
Proof.
  rewrite moveItemToTarget_moveTree, moveTree_rows.
  by apply moveRows_old_rows.
Qed.

Lemma fetchRows_count targets children :
  forall heap,
    let result := fetchRows targets children heap in
    (length children <= length result.1)%nat
    /\ (length result.1 <= length children + length targets)%nat
    /\ result.2 = (heap + N.of_nat (length result.1 - length children))%N.
Proof.
  apply (reconcile_ind (fun targets children =>
    forall heap,
      let result := fetchRows targets children heap in
      (length children <= length result.1)%nat
      /\ (length result.1 <= length children + length targets)%nat
      /\ result.2 = (heap + N.of_nat (length result.1 - length children))%N));
    clear targets children.
  - intros children heap. rewrite fetchRows_nil. simpl.
    rewrite Nat.sub_diag. simpl. lia.
  - intros targetChild targets IH heap.
    rewrite fetchRows_cons_nil. unfold clone.
    specialize (IH (N.succ heap)).
    destruct (fetchRows targets [] (N.succ heap)) as [rest heap1].
    simpl in *. destruct IH as (? & ? & ->). lia.
  - intros targetChild targets itemChild children Hlt IH heap.
    rewrite fetchRows_cons_cons. simpl. rewrite Hlt.
    specialize (IH heap).
    destruct (fetchRows (targetChild :: targets) children heap)
      as [rest heap1].
    simpl in *. destruct IH as (? & ? & ->). lia.
  - intros targetChild targets itemChild children Hlt Hsame IH heap.
    rewrite fetchRows_cons_cons. simpl. rewrite Hlt.
    rewrite decide_True by done.
    specialize (IH heap).
    destruct (fetchRows targets children heap) as [rest heap1].
    simpl in *. destruct IH as (? & ? & ->). lia.
  - intros targetChild targets itemChild children Hlt Hother IH heap.
    rewrite fetchRows_cons_cons. simpl. rewrite Hlt.
    rewrite decide_False by done. unfold clone.
    specialize (IH (N.succ heap)).
    destruct (fetchRows targets (itemChild :: children) (N.succ heap))
      as [rest heap1].
    simpl in *. destruct IH as (? & ? & ->). lia.
Qed.

(** X6: [fetchItemToTarget] returns (a run with [fetchFuel] units of fuel
    is not cut off) and only adds: the item keeps its address, its data and
    every row it had, in order; each row that is new is a copy of a target
    row without children at a new address; the number of rows grows by the
    number of objects allocated, and by at most the number of target rows. *)
Theorem fetchItemToTarget_only_adds item target heap :
  let result := fetchItemToTarget item target heap in
  fetchItemToTarget_run (fetchFuel item target) item target heap = Some result
  /\ address result.1 = address item
  /\ values result.1 = values item
  /\ sublist (rows item) (rows result.1)
  /\ Forall (fun row =>
               row ∈ rows item
               \/ (exists targetChild,
                      targetChild ∈ rows target
                      /\ values row = values targetChild
                      /\ rows row = [] /\ (heap <= address row)%N))
            (rows result.1)
  /\ (rowCount result.1 <= rowCount item + rowCount target)%nat
  /\ result.2 = (heap + N.of_nat (rowCount result.1 - rowCount item))%N.
Proof.
  simpl. split.
  { rewrite fetchItemToTarget_fetchRows.
    by apply fetchItemToTarget_run_enough. }
  rewrite fetchItemToTarget_fetchRows. unfold rowCount.
  destruct (fetchRows_rows (rows target) (rows item) heap) as (Hsub & Hall & _).
  destruct (fetchRows_count (rows target) (rows item) heap) as (_ & Hle & Hheap).
  destruct (fetchRows (rows target) (rows item) heap) as [children heap1].
  simpl in *. done.
Qed.
End ReconcileOrder.

Section FetchTwice.
Context `{Declarations}.

Implicit Types (item target : QStandardItem) (heap : N).
Implicit Types (children targets : list QStandardItem).

#[local] Arguments fetchRows : simpl never.

Hypothesis lessThan_irrefl : forall a, lessThan a a = false.
Hypothesis lessThan_trans :
  forall a b c, lessThan a b = true -> lessThan b c = true -> lessThan a c = true.

Local Abbreviation infosOf := (map symbolInformationFromItem).

Lemma fetchRows_nothing_new targets children :
  sortedInfos (infosOf targets) = true ->
  sortedInfos (infosOf children) = true ->
  (forall x, x ∈ infosOf targets -> x ∈ infosOf children) ->
  forall heap, fetchRows targets children heap = (children, heap).
Proof using lessThan_irrefl lessThan_trans.
  apply (reconcile_ind (fun targets children =>
    sortedInfos (infosOf targets) = true ->
    sortedInfos (infosOf children) = true ->
    (forall x, x ∈ infosOf targets -> x ∈ infosOf children) ->
    forall heap, fetchRows targets children heap = (children, heap)));
    clear targets children.
  - intros children _ _ _ heap. by rewrite fetchRows_nil.
  - intros targetChild targets _ _ _ Hsub. exfalso.
    eapply not_elem_of_nil, Hsub. simpl. by left.
  - intros targetChild targets itemChild children Hlt IH Htargets Hchildren
           Hsub heap.
    rewrite fetchRows_cons_cons. simpl. rewrite Hlt.
    rewrite IH; try done.
    + by eapply sortedInfos_tail.
    + intros x Hx. specialize (Hsub x Hx). simpl in Hsub.
      apply elem_of_cons in Hsub as [-> | Hin]; [|done]. exfalso.
      simpl in Htargets. apply (sortedInfos_cons lessThan_trans) in Htargets
        as [Hall _].
      rewrite Forall_forall in Hall.
      simpl in Hx. apply elem_of_cons in Hx as [Hx | Hx].
      * rewrite Hx in Hlt. by rewrite lessThan_irrefl in Hlt.
      * pose proof (lessThan_trans _ _ _ Hlt (Hall _ Hx)) as Hcontra.
        by rewrite lessThan_irrefl in Hcontra.
  - intros targetChild targets itemChild children Hlt Hsame IH Htargets
           Hchildren Hsub heap.
    rewrite fetchRows_cons_cons. simpl. rewrite Hlt.
    rewrite decide_True by done.
    rewrite IH; try done.
    + by eapply sortedInfos_tail.
    + by eapply sortedInfos_tail.
    + intros x Hx.
      assert (Hin : x ∈ infosOf (itemChild :: children))
        by (apply Hsub; simpl; by right).
      simpl in Hin. apply elem_of_cons in Hin as [-> | Hin]; [|done]. exfalso.
      simpl in Htargets. apply (sortedInfos_cons lessThan_trans) in Htargets
        as [Hall _].
      rewrite Forall_forall in Hall. specialize (Hall _ Hx).
      rewrite Hsame in Hall. by rewrite lessThan_irrefl in Hall.
  - intros targetChild targets itemChild children Hlt Hother IH Htargets
           Hchildren Hsub heap. exfalso.
    assert (Hin : symbolInformationFromItem targetChild
                  ∈ infosOf (itemChild :: children))
      by (apply Hsub; simpl; by left).
    simpl in Hin. apply elem_of_cons in Hin as [Heq | Hin]; [congruence|].
    simpl in Hchildren. apply (sortedInfos_cons lessThan_trans) in Hchildren
      as [Hall _].
    rewrite Forall_forall in Hall. specialize (Hall _ Hin). congruence.
Qed.

(** X7: when every child of the target already has a counterpart in the
    item, child lists being sorted, [fetchItemToTarget] changes nothing:
    the item is returned as it is and no object is allocated. *)
Theorem fetchItemToTarget_nothing_new item target heap :
  sortedInfos (childInfos item) = true ->
  sortedInfos (childInfos target) = true ->
  (forall x, x ∈ childInfos target -> x ∈ childInfos item) ->
  fetchItemToTarget item target heap = (item, heap).
Proof using lessThan_irrefl lessThan_trans.
  intros Hitem Htarget Hsub. rewrite fetchItemToTarget_fetchRows.
  rewrite fetchRows_nothing_new; try done. by destruct item.
Qed.

(** Fetching a second time finds every target row in place. *)
Lemma fetchRows_again targets children :
  forall heap heap',
    fetchRows targets (fetchRows targets children heap).1 heap'
    = ((fetchRows targets children heap).1, heap').
Proof using lessThan_irrefl.
  apply (reconcile_ind (fun targets children =>
    forall heap heap',
      fetchRows targets (fetchRows targets children heap).1 heap'
      = ((fetchRows targets children heap).1, heap')));
    clear targets children.
  - intros children heap heap'. by rewrite !fetchRows_nil.
  - intros targetChild targets IH heap heap'.
    rewrite fetchRows_cons_nil. unfold clone.
    specialize (IH (N.succ heap) heap').
    destruct (fetchRows targets [] (N.succ heap)) as [rest heap1].
    simpl in *. rewrite fetchRows_cons_cons. simpl.
    rewrite (symbolInformationFromItem_values
               (mkItem heap (values targetChild) []) targetChild) by done.
    rewrite lessThan_irrefl, decide_True by done. by rewrite IH.
  - intros targetChild targets itemChild children Hlt IH heap heap'.
    rewrite fetchRows_cons_cons. simpl. rewrite Hlt.
    specialize (IH heap heap').
    destruct (fetchRows (targetChild :: targets) children heap)
      as [rest heap1].
    simpl in *. rewrite fetchRows_cons_cons. simpl. rewrite Hlt.
    by rewrite IH.
  - intros targetChild targets itemChild children Hlt Hsame IH heap heap'.
    rewrite fetchRows_cons_cons. simpl. rewrite Hlt.
    rewrite decide_True by done.
    specialize (IH heap heap').
    destruct (fetchRows targets children heap) as [rest heap1].
    simpl in *. rewrite fetchRows_cons_cons. simpl. rewrite Hlt.
    rewrite decide_True by done. by rewrite IH.
  - intros targetChild targets itemChild children Hlt Hother IH heap heap'.
    rewrite fetchRows_cons_cons. simpl. rewrite Hlt.
    rewrite decide_False by done. unfold clone.
    specialize (IH (N.succ heap) heap').
    destruct (fetchRows targets (itemChild :: children) (N.succ heap))
      as [rest heap1].
    simpl in *. rewrite fetchRows_cons_cons. simpl.
    rewrite (symbolInformationFromItem_values
               (mkItem heap (values targetChild) []) targetChild) by done.
    rewrite lessThan_irrefl, decide_True by done. by rewrite IH.
Qed.

(** X8: [fetchItemToTarget] is idempotent: a second call with the same
    target, whatever the two child lists were, changes nothing any more
    and allocates nothing. *)
Theorem fetchItemToTarget_idempotent item target heap :
  let first := fetchItemToTarget item target heap in
  fetchItemToTarget first.1 target first.2 = first.
Proof using lessThan_irrefl.
  simpl. rewrite (fetchItemToTarget_fetchRows item).
  pose proof (fetchRows_again (rows target) (rows item) heap) as Hagain.
  destruct (fetchRows (rows target) (rows item) heap) as [children heap1].
  simpl in *. rewrite fetchItemToTarget_fetchRows. simpl.
  by rewrite Hagain.
Qed.
End FetchTwice.

(** ** Location sets and icon keys, further *)

Lemma roleToLocations_cons (v : QVariant) (locationsVar : list QVariant) :
  roleToLocations (v :: locationsVar)
  = roleToLocations locationsVar
    ∪ (if canConvertLocation v then {[ valueLocation v ]} else ∅).
Proof.
  unfold roleToLocations at 1. simpl. rewrite roleToLocations_from.
  destruct (canConvertLocation v); set_solver.
Qed.

(** X9: [roleToLocations] keeps exactly the locations in the list:
    variants that are no location are dropped and duplicates fall together,
    so the set has at most as many elements as the list; and a list of
    distinct locations comes back from the set, up to its order. *)
Theorem roleToLocations_holds (locationsVar : list QVariant) :
  (forall loc, loc ∈ roleToLocations locationsVar <->
               VLocation loc ∈ locationsVar)
  /\ (size (roleToLocations locationsVar) <= length locationsVar)%nat
  /\ (forall locs : list SymbolLocation,
        NoDup locs ->
        locationsVar = VLocation <$> locs ->
        locationsToRole (roleToLocations locationsVar) ≡ₚ locationsVar).
Proof.
  split; [|split].
  - intros loc. induction locationsVar as [|v l IH].
    + split; [set_solver|]. by intros ?%not_elem_of_nil.
    + rewrite roleToLocations_cons, elem_of_union, IH, elem_of_cons.
      destruct v; simpl; set_solver.
  - induction locationsVar as [|v l IH]; [done|].
    rewrite roleToLocations_cons. simpl.
    rewrite size_union_alt.
    assert (size ((if canConvertLocation v
                   then ({[ valueLocation v ]} : gset SymbolLocation)
                   else ∅) ∖ roleToLocations l) <= 1)%nat; [|lia].
    etransitivity; [apply subseteq_size, subseteq_difference_l; reflexivity|].
    destruct (canConvertLocation v).
    + rewrite size_singleton. lia.
    + rewrite size_empty. lia.
  - intros locs Hnodup ->.
    rewrite roleToLocations_locations, locationsToRole_fmap.
    apply fmap_Permutation. by apply elements_list_to_set.
Qed.

Section IconKeys.
Context `{Declarations}.

Hypothesis iconValue_inj : forall a b, iconValue a = iconValue b -> a = b.

Lemma IconSortOrder_length : length IconSortOrder = 23%nat.
Proof. reflexivity. Qed.

(** X10: what [iconTypeSortOrder] returns does not depend on the calls
    made before: the static hash is filled on the first call, holds the 23
    entries of the table from then on, and is left as it is by every later
    call. *)
Theorem iconTypeSortOrder_history (st : gmap Z Z) (icon : Z) :
  sortOrderState st ->
  (iconTypeSortOrder st icon).1 = (iconTypeSortOrder ∅ icon).1
  /\ (iconTypeSortOrder st icon).2 = fillSortOrder IconSortOrder ∅
  /\ size (iconTypeSortOrder st icon).2 = 23%nat
  /\ (st <> ∅ -> (iconTypeSortOrder st icon).2 = st).
Proof using iconValue_inj.
  intros Hst.
  pose proof (iconTypeSortOrder_lookup iconValue_inj st icon Hst) as Hkey.
  pose proof (iconTypeSortOrder_lookup iconValue_inj ∅ icon sortOrder_fresh)
    as Hkey0.
  assert (Hafter : (iconTypeSortOrder st icon).2 = fillSortOrder IconSortOrder ∅).
  { destruct (sortOrderState_cases iconValue_inj _
                (sortOrder_called st icon Hst)) as [Hempty | Hfilled]; [|done].
    exfalso. revert Hempty. unfold iconTypeSortOrder.
    destruct (fillSortOrder_spec iconValue_inj IconSortOrder ∅
                (IconSortOrder_NoDup iconValue_inj)) as (Hsize & _); [done|].
    case_decide as Hst0.
    - intros Hempty.
      assert (Hfill : fillSortOrder IconSortOrder st = ∅)
        by (by destruct (fillSortOrder IconSortOrder st !! icon)).
      apply map_size_empty_iff in Hst0 as ->.
      rewrite Hfill, map_size_empty, IconSortOrder_length in Hsize. lia.
    - intros Hempty.
      assert (st = ∅) as -> by (by destruct (st !! icon)).
      by rewrite map_size_empty in Hst0. }
  split; [congruence|]. split; [done|]. split.
  - rewrite Hafter.
    destruct (fillSortOrder_spec iconValue_inj IconSortOrder ∅
                (IconSortOrder_NoDup iconValue_inj)) as (Hsize & _); [done|].
    by rewrite Hsize, map_size_empty, IconSortOrder_length.
  - intros Hne.
    destruct (sortOrderState_cases iconValue_inj st Hst) as [-> | ->]; [done|].
    by rewrite Hafter.
Qed.

(** X11: the keys tell the icon types of the table apart, and nothing
    more.  Two icon types that the table lists and that have the same key
    are the same, and their keys lie in [0, 23); an integer that the table
    does not list (such as the value of an enumerator the table leaves out)
    and that is a position of the table has the key of the icon type listed
    at that position. *)
Theorem iconTypeSortOrder_keys (st : gmap Z Z) :
  sortOrderState st ->
  (forall icon, icon ∈ IconSortOrder ->
                0 <= (iconTypeSortOrder st icon).1 < 23)
  /\ (forall icon icon',
        icon ∈ IconSortOrder -> icon' ∈ IconSortOrder ->
        (iconTypeSortOrder st icon).1 = (iconTypeSortOrder st icon').1 ->
        icon = icon')
  /\ (forall (unlisted : Z) (i : nat) (listed : Z),
        unlisted ∉ IconSortOrder ->
        IconSortOrder !! i = Some listed ->
        unlisted = Z.of_nat i ->
        (iconTypeSortOrder st unlisted).1 = (iconTypeSortOrder st listed).1).
Proof using iconValue_inj.
  intros Hst.
  assert (Hkey : forall icon, icon ∈ IconSortOrder -> exists i : nat,
             IconSortOrder !! i = Some icon /\ (i < 23)%nat
             /\ (iconTypeSortOrder st icon).1 = Z.of_nat i).
  { intros icon Hin. apply list_elem_of_lookup in Hin as [i Hi].
    exists i. split; [done|]. split.
    { apply lookup_lt_Some in Hi. by rewrite IconSortOrder_length in Hi. }
    rewrite (iconTypeSortOrder_lookup iconValue_inj st _ Hst).
    destruct (fillSortOrder_spec iconValue_inj IconSortOrder ∅
                (IconSortOrder_NoDup iconValue_inj)) as (_ & Hin & _); [done|].
    by rewrite (Hin i _ Hi). }
  split; [|split].
  - intros icon Hin. destruct (Hkey icon Hin) as (i & _ & Hlt & ->). lia.
  - intros icon icon' Hin Hin' Heq.
    destruct (Hkey icon Hin) as (i & Hi & _ & Hai).
    destruct (Hkey icon' Hin') as (j & Hj & _ & Hbj).
    assert (i = j) as -> by lia.
    congruence.
  - intros unlisted i listed Hnot Hi Heq.
    by apply (iconTypeSortOrder_collision iconValue_inj st unlisted i listed).
Qed.
End IconKeys.

(** ** QNX: output lines and SDK paths *)

Module QnxPaths.
Import Qnx QnxFacts.
Local Open Scope string_scope.

(** X12: parsing undoes printing.  From the lines [name=value] of a list
    of items whose names contain no ['='], the parsing loop of
    [qnxEnvironmentFromEnvFile] gets the items back, in order, after the
    items it started with; an ['='] in a value does no harm. *)
Theorem parseOutput_itemLine (items start : list EnvironmentItem) :
  Forall (fun item => contains "=" (itemName item) = false) items ->
  parseOutput (itemLine <$> items) start = (start ++ items)%list.
Proof.
  intros Hnames. rewrite parseOutput_omap. f_equal.
  induction Hnames as [|[var value] items Hname _ IH]; [done|].
  assert (Hline : itemOfLine (itemLine (mkEnvironmentItem var value))
                  = Some (mkEnvironmentItem var value)).
  { unfold itemOfLine, itemLine. simpl.
    by rewrite (proj2 (splitAtEquals_Some (var +:+ "=" +:+ value) var value)). }
  rewrite fmap_cons.
  change (match itemOfLine (itemLine (mkEnvironmentItem var value)) with
          | Some item => item :: omap itemOfLine (itemLine <$> items)
          | None => omap itemOfLine (itemLine <$> items)
          end = mkEnvironmentItem var value :: items).
  by rewrite Hline, IH.
Qed.

Lemma replace_spec (before after : ascii) (s : string) :
  before <> after ->
  contains before (replace before after s) = false
  /\ String.length (replace before after s) = String.length s.
Proof.
  intros Hne. induction s as [|a s [IHc IHl]]; [done|]. simpl.
  rewrite IHc, IHl. split; [|done].
  destruct (Ascii.eqb a before) eqn:Ha.
  - rewrite orb_false_r. apply Ascii.eqb_neq. congruence.
  - by rewrite Ha.
Qed.

(** X13: the three answers of [envFilePath].  A file of the SDK directory
    matching [*-env.sh] ([*-env.bat] on Windows) wins, the first one listed.
    Without one the answer is [bbndk-env.sh] in the SDK directory when that
    exists, and otherwise [bbndk-env_VERSION.sh], where VERSION is the target
    version (the default one for an empty argument) with every dot replaced
    by an underscore: it has the length of the version and no dot.  On a host
    that is neither Windows nor Unix the answer without a matching file is
    empty. *)
Theorem envFilePath_answers (sdk : Sdk) (ndkPath targetVersion : string) :
  let isWindows := isWindowsHost (files sdk) in
  let suffix := if isWindows then ".bat" else ".sh" in
  let entries :=
    if isWindows
    then entryList sdk ndkPath "*-env.bat"
    else entryList sdk ndkPath "*-env.sh" in
  let envFile :=
    if isWindows then ndkPath +:+ "/bbndk-env.bat"
    else ndkPath +:+ "/bbndk-env.sh" in
  let version :=
    if isEmpty targetVersion then defaultTargetVersion sdk ndkPath
    else targetVersion in
  (forall first rest,
      entries = first :: rest ->
      envFilePath sdk ndkPath targetVersion
      = absoluteFilePath sdk ndkPath first)
  /\ (entries = [] ->
      isWindows = true \/ isAnyUnixHost sdk = true ->
      (fileExists (files sdk) envFile = true ->
         envFilePath sdk ndkPath targetVersion = envFile)
      /\ (fileExists (files sdk) envFile = false ->
            exists underscored,
              envFilePath sdk ndkPath targetVersion
              = ndkPath +:+ "/bbndk-env_" +:+ underscored +:+ suffix
              /\ contains "." underscored = false
              /\ String.length underscored = String.length version))
  /\ (entries = [] ->
      isWindows = false -> isAnyUnixHost sdk = false ->
      envFilePath sdk ndkPath targetVersion = "").
Proof.
  cbv zeta. unfold envFilePath.
  destruct (isWindowsHost (files sdk)) eqn:Hwin.
  - split; [intros first rest Hentries; by rewrite Hentries|].
    split; [|done].
    intros Hentries _. rewrite Hentries. split.
    + intros Hexists. by rewrite Hexists.
    + intros Hexists. rewrite Hexists. cbn [negb].
      eexists. split; [reflexivity|]. by apply replace_spec.
  - split; [intros first rest Hentries; by rewrite Hentries|]. split.
    + intros Hentries [?|Hunix]; [done|]. rewrite Hentries, Hunix. split.
      * intros Hexists. by rewrite Hexists.
      * intros Hexists. rewrite Hexists. cbn [negb].
        eexists. split; [reflexivity|]. by apply replace_spec.
    + intros Hentries _ Hunix. rewrite Hentries, Hunix.
      by destruct (fileExists (files sdk) "").
Qed.

(** X14: without the installer there is no command line.
    [sdkInstallerPath] returns a path only if a file exists there, and
    [qdeInstallProcess] returns the empty string exactly when
    [sdkInstallerPath] does; otherwise its result starts with the path of the
    installer. *)
Theorem qdeInstallProcess_needs_installer (sdk : Sdk)
    (ndkPath target option version : string) :
  let installer := sdkInstallerPath sdk ndkPath in
  let command := qdeInstallProcess sdk ndkPath target option version in
  (installer <> "" ->
     installer = withExecutableSuffix sdk (ndkPath +:+ "/qde")
     /\ fileExists (files sdk) installer = true)
  /\ (command = "" <-> installer = "")
  /\ (installer <> "" -> String.prefix installer command = true).
Proof.
  simpl. unfold qdeInstallProcess, sdkInstallerPath.
  destruct (fileExists (files sdk) (withExecutableSuffix sdk (ndkPath +:+ "/qde")))
    eqn:Hexists; simpl; [|by repeat split].
  split; [done|].
  destruct (withExecutableSuffix sdk (ndkPath +:+ "/qde")) as [|c installer]
    eqn:Hinstaller; simpl; [by repeat split|].
  split; [split; discriminate|].
  intros _.
  destruct (ascii_dec c c) as [_|Hne]; [|done].
  clear. induction installer as [|d installer IH]; simpl; [done|].
  destruct (ascii_dec d d) as [_|Hne]; [exact IH | done].
Qed.
End QnxPaths.

(** ** The qmldump tool: build tasks, Qt versions, directories *)

Module QmlDumpTasks.
Import QmlDump QmlDumpFacts.
Local Open Scope string_scope.

(** X15: a build is started once.  Two calls of [qmlDumpPath] in a row for
    projects with the same Qt version start at most one build task between
    them: the second call starts none.  And a task that has failed blocks:
    while it is registered for the Qt version of the project, [qmlDumpPath]
    returns the empty path and leaves everything as it is, so the build is
    not tried again. *)
Theorem qmlDumpPath_builds_once (host : Host) (project project' : Project)
    (st : State) :
  (qtVersionForProject host project = qtVersionForProject host project' ->
     let st1 := (qmlDumpPath host project st).2 in
     started (qmlDumpPath host project' st1).2 = started st1)
  /\ (forall version task,
        qtVersionForProject host project = Some version ->
        toolByInstallData host (qtInstallData version) = "" ->
        qmlDumpBuilds st !! uniqueId version = Some task ->
        m_failed task = true ->
        qmlDumpPath host project st = ("", st)).
Proof.
  split.
  - intros Hsame. simpl. unfold qmlDumpPath, toolForProject.
    rewrite <- Hsame.
    destruct (qtVersionForProject host project) as [version|]; simpl.
    + destruct (isEmpty (toolByInstallData host (qtInstallData version)))
        eqn:Hempty; simpl.
      * destruct (qmlDumpBuilds st !! uniqueId version) as [task|] eqn:Htask;
          simpl.
        -- destruct (m_failed task) eqn:Hfailed; simpl.
           ++ by rewrite Htask, Hfailed.
           ++ rewrite lookup_insert_eq. simpl. by rewrite Hfailed.
        -- rewrite lookup_insert_eq. done.
      * destruct (fileExists host _), (isFile host _); done.
    + done.
  - intros version task Hversion Htool Htask Hfailed.
    unfold qmlDumpPath, toolForProject.
    by rewrite Hversion, Htool, Htask, Hfailed.
Qed.

Lemma finish_fold (projects : list Project) (path : string)
    (infos : gmap N string) (project : Project) :
  projectInfo
    (foldl (fun infos project =>
              if isEmpty (projectInfo infos project)
              then updateProjectInfo project path infos
              else infos) infos projects) project
  = if decide (project ∈ projects /\ projectInfo infos project = "")
    then path
    else projectInfo infos project.
Proof.
  revert infos. induction projects as [|x projects IH]; intros infos.
  - cbn [foldl]. destruct (decide _) as [Hcond|Hcond]; [|done].
    by destruct Hcond as [?%not_elem_of_nil _].
  - cbn [foldl]. rewrite IH. clear IH.
    destruct (decide (project = x)) as [->|Hne].
    + destruct (isEmpty (projectInfo infos x)) eqn:Hempty.
      * apply isEmpty_true in Hempty.
        assert (Hnew : projectInfo (updateProjectInfo x path infos) x = path).
        { unfold projectInfo, updateProjectInfo.
          by rewrite lookup_insert_eq. }
        rewrite Hnew.
        repeat case_decide; try done; try naive_solver.
        exfalso. set_solver.
      * assert (projectInfo infos x <> "").
        { intros Heq. apply isEmpty_true in Heq. congruence. }
        repeat case_decide; naive_solver.
    + assert (Hold : projectInfo (if isEmpty (projectInfo infos x)
                                  then updateProjectInfo x path infos
                                  else infos) project
                     = projectInfo infos project).
      { destruct (isEmpty _); [|done].
        unfold projectInfo, updateProjectInfo. by rewrite lookup_insert_ne. }
      rewrite Hold.
      repeat case_decide; try done; exfalso; set_solver.
Qed.

(** X16: what [finish] leaves.  The task is no longer registered, other
    tasks stay, and this with and without a model manager; without one
    nothing else happens; with one, the qmldump path is set for exactly
    those projects of the task that had none, and a path that is there is
    never overwritten.  The order in which the projects are visited makes no
    difference. *)
Theorem finish_updates (task : QmlDumpBuildTask) (qmldumpPath : string)
    (builds : gmap Z QmlDumpBuildTask) (infos : gmap N string) :
  (forall modelManager,
     (finish task qmldumpPath builds modelManager).1
     = delete (uniqueId (m_version task)) builds
     /\ (finish task qmldumpPath builds modelManager).1
          !! uniqueId (m_version task) = None
     /\ forall id, id <> uniqueId (m_version task) ->
          (finish task qmldumpPath builds modelManager).1 !! id
          = builds !! id)
  /\ (finish task qmldumpPath builds None).2 = None
  /\ (exists infos',
        (finish task qmldumpPath builds (Some infos)).2 = Some infos'
        /\ forall project,
             projectInfo infos' project
             = if decide (project ∈ m_projectsToUpdate task
                          /\ projectInfo infos project = "")
               then qmldumpPath
               else projectInfo infos project)
  /\ (forall projects project infos',
        projects ≡ₚ elements (m_projectsToUpdate task) ->
        (finishIn projects task qmldumpPath builds (Some infos)).2
        = Some infos' ->
        projectInfo infos' project
        = projectInfo
            (default ∅ (finish task qmldumpPath builds (Some infos)).2)
            project).
Proof.
  split.
  { intros modelManager.
    assert (Hbuilds : (finish task qmldumpPath builds modelManager).1
                      = delete (uniqueId (m_version task)) builds)
      by (by destruct modelManager).
    rewrite Hbuilds. split; [done|]. split.
    - apply lookup_delete_eq.
    - intros id Hid. by apply lookup_delete_ne. }
  split; [done|]. split.
  - eexists. split; [reflexivity|]. intros project.
    rewrite finish_fold. apply decide_ext. by rewrite elem_of_elements.
  - intros projects project infos' Hperm [= <-]. simpl.
    rewrite !finish_fold. apply decide_ext. by rewrite Hperm.
Qed.

(** X17: a project that asks while the tool is missing is served when the
    build is done.  If [qmlDumpPath] finds the Qt version of the project
    without the tool, and no failed task is registered for it, then
    afterwards a task that has not failed is registered for the version, and
    when that task finishes with a path the project, if it has no qmldump
    path yet, gets this one. *)
Theorem qmlDumpPath_then_finish (host : Host) (project : Project) (st : State)
    (version : QtVersion) :
  qtVersionForProject host project = Some version ->
  toolByInstallData host (qtInstallData version) = "" ->
  (forall task, qmlDumpBuilds st !! uniqueId version = Some task ->
                m_failed task = false) ->
  exists task,
    qmlDumpBuilds (qmlDumpPath host project st).2 !! uniqueId version
    = Some task
    /\ m_failed task = false
    /\ project ∈ m_projectsToUpdate task
    /\ forall qmldumpPath builds infos,
         projectInfo infos project = "" ->
         exists infos',
           (finish task qmldumpPath builds (Some infos)).2 = Some infos'
           /\ projectInfo infos' project = qmldumpPath.
Proof.
  intros Hversion Htool Hfailed.
  assert (Hserved : forall task,
             project ∈ m_projectsToUpdate task ->
             forall qmldumpPath builds infos,
               projectInfo infos project = "" ->
               exists infos',
                 (finish task qmldumpPath builds (Some infos)).2 = Some infos'
                 /\ projectInfo infos' project = qmldumpPath).
  { intros task Hin qmldumpPath builds infos Hnone.
    eexists. split; [reflexivity|].
    rewrite finish_fold. rewrite decide_True; [done|].
    split; [by apply elem_of_elements | done]. }
  destruct (qmlDumpBuilds st !! uniqueId version) as [task|] eqn:Htask.
  - pose proof (Hfailed task eq_refl) as Hok.
    assert (Hin : project ∈ m_projectsToUpdate
                    (updateProjectWhenDone project task))
      by (unfold updateProjectWhenDone, m_projectsToUpdate; set_solver).
    exists (updateProjectWhenDone project task).
    split.
    { unfold qmlDumpPath, toolForProject.
      rewrite Hversion, Htool, Htask, Hok. cbn. apply lookup_insert_eq. }
    split; [exact Hok|]. split; [exact Hin|]. by apply Hserved.
  - assert (Hin : project ∈ m_projectsToUpdate
                    (updateProjectWhenDone project (mkTask version false ∅)))
      by (unfold updateProjectWhenDone, m_projectsToUpdate; set_solver).
    exists (updateProjectWhenDone project (mkTask version false ∅)).
    split.
    { unfold qmlDumpPath, toolForProject.
      rewrite Hversion, Htool, Htask. cbn. apply lookup_insert_eq. }
    split; [done|]. split; [exact Hin|]. by apply Hserved.
Qed.
End QmlDumpTasks.

Module QmlDumpVersions.
Import QmlDump QmlDump.Lookup.
Local Open Scope string_scope.

(** Whether qmldump is found for a Qt version. *)
Definition hasTool (versions : Versions) (version : Version) : bool :=
  negb (isEmpty (toolOf versions (qtInstallData (qtVersion version)))).

Lemma anyDesktopVersion_find (versions : Versions)
    (candidates : list Version) (desktopQt : option Version) :
  anyDesktopVersion versions candidates desktopQt
  = match List.find (fun version =>
                       supportsDesktop version && hasTool versions version)
                    candidates with
    | Some version => Some version
    | None =>
        match desktopQt with
        | Some version => Some version
        | None => List.find (canBuild versions) candidates
        end
    end.
Proof.
  revert desktopQt.
  induction candidates as [|version candidates IH]; intros desktopQt.
  - by destruct desktopQt.
  - cbn [anyDesktopVersion List.find]. unfold hasTool at 1.
    unfold canBuild at 2.
    destruct (supportsDesktop version) eqn:Hdesktop; cbn [andb].
    + destruct (negb (isEmpty _)) eqn:Htool; [done|].
      rewrite IH.
      destruct (List.find _ candidates) as [found|]; [done|].
      destruct desktopQt as [desktop|]; [done|].
      unfold canBuild at 1. rewrite Hdesktop. cbn [andb].
      by destruct (headerExists versions _).
    + by rewrite IH.
Qed.

(** X18: which Qt version a project gets.  For a Qt4 or a QML project the
    version found is a valid one.  For any other project, and for none, it
    is the first valid version for the desktop that has qmldump, and only
    if there is none the first one that can build it: a version with the
    tool is preferred to a buildable one that comes earlier in the list. *)
Theorem qtVersionForProject_choice (versions : Versions) :
  (forall project,
     (forall active, project <> Some (Qt4Project active)) ->
     (forall run id, project <> Some (QmlProject run id)) ->
     qtVersionForProject versions project
     = match List.find (fun version =>
                          supportsDesktop version && hasTool versions version)
                       (validVersions versions) with
       | Some version => Some version
       | None => List.find (canBuild versions) (validVersions versions)
       end)
  /\ (forall active version,
        qtVersionForProject versions (Some (Qt4Project active)) = Some version ->
        active = Some version /\ isValid version = true)
  /\ (forall run id version,
        qtVersionForProject versions (Some (QmlProject run id)) = Some version ->
        run = true /\ isValid version = true
        /\ exists n, id = Some n /\ versionOfId versions n = Some version).
Proof.
  split; [|split].
  - intros project Hqt4 Hqml.
    destruct project as [[active|run id|]|].
    + by destruct (Hqt4 active).
    + by destruct (Hqml run id).
    + cbn [qtVersionForProject]. by rewrite anyDesktopVersion_find.
    + cbn [qtVersionForProject]. by rewrite anyDesktopVersion_find.
  - intros [active|] version; cbn [qtVersionForProject]; [|done].
    destruct (isValid active) eqn:Hvalid; [|done].
    by intros [= ->].
  - intros run id version. cbn [qtVersionForProject].
    destruct run; cbn [negb]; [|done].
    destruct id as [n|]; [|done].
    destruct (versionOfId versions n) as [found|] eqn:Hfound; [|done].
    destruct (isValid found) eqn:Hvalid; [|done].
    intros [= ->]. eauto.
Qed.
End QmlDumpVersions.

Module QmlDumpInstall.
Import QmlDump.
Local Open Scope string_scope.

Lemma append_slash (s t : string) : (s +:+ t) +:+ "/" = s +:+ (t +:+ "/").
Proof.
  induction s as [|c s IH]; [done|].
  change (String c ((s +:+ t) +:+ "/") = String c (s +:+ (t +:+ "/"))).
  by f_equal.
Qed.

Lemma append_empty (s t : string) : s +:+ t = "" -> t = "".
Proof. by destruct s. Qed.

Lemma firstWritable_found (install : Install) (directories : list string)
    (errorMessage : string) (directory message : string) :
  firstWritable install directories errorMessage = (Some directory, message) ->
  exists earlier later before,
    directories = (earlier ++ directory :: later)%list
    /\ copyFiles install directory before = (true, message)
    /\ Forall (fun d => exists b a, copyFiles install d b = (false, a)) earlier.
Proof.
  revert errorMessage.
  induction directories as [|d directories IH]; intros errorMessage;
    cbn [firstWritable]; [done|].
  destruct (copyFiles install d errorMessage) as [copied after] eqn:Hcopy.
  destruct copied.
  - intros [= <- <-]. exists [], directories, errorMessage.
    split; [done|]. split; [done|]. constructor.
  - intros Hrest. apply IH in Hrest as (earlier & later & before & -> & ? & ?).
    exists (d :: earlier), later, before.
    split; [done|]. split; [done|]. constructor; eauto.
Qed.

Lemma firstWritable_none (install : Install) (directories : list string)
    (errorMessage message : string) :
  firstWritable install directories errorMessage = (None, message) ->
  Forall (fun d => exists b a, copyFiles install d b = (false, a)) directories.
Proof.
  revert errorMessage.
  induction directories as [|d directories IH]; intros errorMessage;
    cbn [firstWritable]; [constructor|].
  destruct (copyFiles install d errorMessage) as [copied after] eqn:Hcopy.
  destruct copied; [done|].
  intros Hrest. constructor; eauto.
Qed.

(** X19: where [copy] puts the sources.  There are three install
    directories and each ends with a slash.  [copy] returns the empty
    string exactly when copying failed for every one of them, and then the
    error message lists the directories and ends with a reason; otherwise it
    returns the first install directory for which copying succeeded, with
    the message this copying left. *)
Theorem copy_first_writable (install : Install)
    (qtInstallData errorMessage : string) :
  let directories := installDirectories install qtInstallData in
  let result := copy install qtInstallData errorMessage in
  length directories = 3%nat
  /\ Forall (fun d => exists path, d = path +:+ "/") directories
  /\ (result.1 = "" ->
        Forall (fun d => exists b a, copyFiles install d b = (false, a))
               directories
        /\ exists reason,
             result.2
             = "qmldump could not be built in any of the directories:"
                 +:+ String (ascii_of_nat 10) ""
                 +:+ "- "
                 +:+ String.concat (String (ascii_of_nat 10) "- ") directories
                 +:+ String (ascii_of_nat 10) (String (ascii_of_nat 10) "")
                 +:+ "Reason: " +:+ reason)
  /\ (result.1 <> "" ->
        exists earlier later before,
          directories = (earlier ++ result.1 :: later)%list
          /\ copyFiles install result.1 before = (true, result.2)
          /\ Forall (fun d => exists b a, copyFiles install d b = (false, a))
                    earlier).
Proof.
  intros directories result.
  assert (Hslash : Forall (fun d => exists path, d = path +:+ "/") directories).
  { unfold directories, installDirectories. cbv zeta.
    repeat constructor; [|by eexists..].
    exists (qtInstallData +:+ "/qtc-qmldump"). by rewrite append_slash. }
  split; [done|]. split; [done|].
  unfold result, copy. cbv zeta. fold directories.
  destruct (firstWritable install directories errorMessage)
    as [[directory|] message] eqn:Hfirst; cbn [fst snd].
  - split.
    + intros ->. apply firstWritable_found in Hfirst
        as (earlier & later & _ & Hdirs & _).
      assert (Hin : "" ∈ directories) by (rewrite Hdirs; set_solver).
      rewrite Forall_forall in Hslash.
      destruct (Hslash _ Hin) as [path Hpath].
      symmetry in Hpath. by apply append_empty in Hpath.
    + intros _. by apply firstWritable_found in Hfirst.
  - split; [|done]. intros _. split.
    + by apply firstWritable_none in Hfirst.
    + by exists message.
Qed.
End QmlDumpInstall.

(** ** The further properties on sample inputs *)

Module MoreExamples.
Import Sample SampleFacts.
Local Open Scope string_scope.

Lemma sample_in_step :
  childTrees liveTree
  = childTrees
      (mkItem 10 ∅
         [ item 11 "a" "" 0 [];
           item 12 "b" "" 0 [ item 15 "x" "" 0 [] ];
           item 13 "c" "" 0 [] ]).
Proof. by vm_compute. Qed.

(** X1 on the live tree and a target with the same symbols at other
    addresses. *)
Lemma moveItemToTarget_in_step_witness :
  moveItemToTarget liveTree
    (mkItem 10 ∅
       [ item 11 "a" "" 0 [];
         item 12 "b" "" 0 [ item 15 "x" "" 0 [] ];
         item 13 "c" "" 0 [] ]) 100
  = (liveTree, 100%N).
Proof.
  exact (moveItemToTarget_in_step (H := declarations) keyLess_irrefl
           liveTree _ 100%N sample_in_step).
Defined.

(** X2 on the sample trees. *)
Lemma moveItemToTarget_idempotent_witness :
  moveItemToTarget (moveItemToTarget liveTree targetTree 100).1 targetTree
                   (moveItemToTarget liveTree targetTree 100).2
  = moveItemToTarget liveTree targetTree 100.
Proof.
  exact (moveItemToTarget_idempotent (H := declarations) keyLess_irrefl
           liveTree targetTree 100%N).
Defined.

Lemma sample_part :
  sortedInfos (childInfos liveTree) = true
  /\ sortedInfos
       (childInfos (mkItem 10 ∅ [ item 12 "b" "" 0 [ item 15 "y" "" 0 [] ] ]))
     = true
  /\ (forall x,
        x ∈ childInfos
              (mkItem 10 ∅ [ item 12 "b" "" 0 [ item 15 "y" "" 0 [] ] ]) ->
        x ∈ childInfos liveTree).
Proof.
  split; [by vm_compute|]. split; [by vm_compute|].
  assert (Hlive : childInfos liveTree
                  = [ mkSymbolInformation "a" "" 0;
                      mkSymbolInformation "b" "" 0;
                      mkSymbolInformation "c" "" 0 ]) by (by vm_compute).
  assert (Hpart : childInfos
                    (mkItem 10 ∅ [ item 12 "b" "" 0 [ item 15 "y" "" 0 [] ] ])
                  = [ mkSymbolInformation "b" "" 0 ]) by (by vm_compute).
  rewrite Hlive, Hpart. set_solver.
Qed.

(** X7 on the live tree and a target with one of its children. *)
Lemma fetchItemToTarget_nothing_new_witness :
  sortedInfos (childInfos liveTree) = true
  /\ fetchItemToTarget liveTree
       (mkItem 10 ∅ [ item 12 "b" "" 0 [ item 15 "y" "" 0 [] ] ]) 100
     = (liveTree, 100%N).
Proof.
  split; [exact (proj1 sample_part)|].
  exact (fetchItemToTarget_nothing_new (H := declarations)
           keyLess_irrefl keyLess_trans liveTree _ 100%N
           (proj1 sample_part) (proj1 (proj2 sample_part))
           (proj2 (proj2 sample_part))).
Defined.

(** X8 on the sample trees. *)
Lemma fetchItemToTarget_idempotent_witness :
  fetchItemToTarget (fetchItemToTarget liveTree targetTree 100).1 targetTree
                    (fetchItemToTarget liveTree targetTree 100).2
  = fetchItemToTarget liveTree targetTree 100.
Proof.
  exact (fetchItemToTarget_idempotent (H := declarations)
           keyLess_irrefl liveTree targetTree 100%N).
Defined.

(** X10 after a first call for the icon type 4, asking for 10. *)
Lemma iconTypeSortOrder_history_witness :
  sortOrderState (iconTypeSortOrder ∅ 4).2
  /\ (iconTypeSortOrder (iconTypeSortOrder ∅ 4).2 10).1
     = (iconTypeSortOrder ∅ 10).1.
Proof.
  split; [exact (sortOrder_called ∅ 4 sortOrder_fresh)|].
  exact (proj1 (iconTypeSortOrder_history (H := declarations) iconNumber_inj
                  (iconTypeSortOrder ∅ 4).2 10
                  (sortOrder_called ∅ 4 sortOrder_fresh))).
Defined.

Lemma sample_listed : 10 ∈ IconSortOrder.
Proof. unfold IconSortOrder. simpl. set_solver. Qed.

(** X11 after a first call: the key of [Namespace], 10 in the sample
    numbering, is in range. *)
Lemma iconTypeSortOrder_keys_witness :
  sortOrderState (iconTypeSortOrder ∅ 4).2
  /\ 0 <= (iconTypeSortOrder (iconTypeSortOrder ∅ 4).2 10).1 < 23.
Proof.
  split; [exact (sortOrder_called ∅ 4 sortOrder_fresh)|].
  exact (proj1 (iconTypeSortOrder_keys (H := declarations) iconNumber_inj
                  (iconTypeSortOrder ∅ 4).2
                  (sortOrder_called ∅ 4 sortOrder_fresh))
               10 sample_listed).
Defined.

(** X12 on two variables, one with an equals sign in its value. *)
Lemma parseOutput_itemLine_witness :
  Forall (fun item => Qnx.contains "=" (Qnx.itemName item) = false)
         [ Qnx.mkEnvironmentItem "QNX_HOST" "/opt/qnx";
           Qnx.mkEnvironmentItem "MAKEFLAGS" "-I=/opt" ]
  /\ Qnx.parseOutput
       (Qnx.itemLine <$>
          [ Qnx.mkEnvironmentItem "QNX_HOST" "/opt/qnx";
            Qnx.mkEnvironmentItem "MAKEFLAGS" "-I=/opt" ]) []
     = [ Qnx.mkEnvironmentItem "QNX_HOST" "/opt/qnx";
         Qnx.mkEnvironmentItem "MAKEFLAGS" "-I=/opt" ].
Proof.
  assert (Hnames :
            Forall (fun item => Qnx.contains "=" (Qnx.itemName item) = false)
                   [ Qnx.mkEnvironmentItem "QNX_HOST" "/opt/qnx";
                     Qnx.mkEnvironmentItem "MAKEFLAGS" "-I=/opt" ]).
  { repeat constructor. }
  split; [exact Hnames|].
  exact (QnxPaths.parseOutput_itemLine _ [] Hnames).
Defined.

Lemma sample_no_task (task : QmlDump.QmlDumpBuildTask) :
  (∅ : gmap Z QmlDump.QmlDumpBuildTask) !! 1 = Some task ->
  QmlDump.m_failed task = false.
Proof. intros Htask. by rewrite lookup_empty in Htask. Qed.

(** X17 for a first project of a Qt version without the tool. *)
Lemma qmlDumpPath_then_finish_witness :
  exists task,
    QmlDump.qmlDumpBuilds
      (QmlDump.qmlDumpPath
         (QmlDump.mkHost (fun _ => Some (QmlDump.mkQtVersion 1 "/qt"))
                         (fun _ => "") (fun _ => false) (fun _ => false))
         5%N (QmlDump.mkState ∅ [] [])).2 !! 1
    = Some task
    /\ QmlDump.m_failed task = false
    /\ 5%N ∈ QmlDump.m_projectsToUpdate task.
Proof.
  destruct (QmlDumpTasks.qmlDumpPath_then_finish
              (QmlDump.mkHost (fun _ => Some (QmlDump.mkQtVersion 1 "/qt"))
                              (fun _ => "") (fun _ => false) (fun _ => false))
              5%N (QmlDump.mkState ∅ [] []) (QmlDump.mkQtVersion 1 "/qt")
              eq_refl eq_refl
              sample_no_task)
    as (task & Htask & Hfailed & Hin & _).
  exists task. split; [exact Htask|]. split; [exact Hfailed|]. exact Hin.
Defined.
End MoreExamples.
